(** * The igraph string vector ([igraph_strvector_t]) over an explicit heap

    The C type is three pointers into one array of [char*] slots:
    [stor_begin] (start of the array), [stor_end] (end of the reserved
    array) and [end] (end of the part in use).  Every slot owns a separately
    allocated, zero terminated [char] buffer.

    The embedding keeps that shape.  Pointers into the slot array are
    addresses (numbers, counted in slots), [char*] values are [Vnull], an
    address of a [char] block, or indeterminate.  The heap has the live
    [char] blocks and the live slot arrays.  The C allocator may refuse a
    request and [realloc] may move a block: both are decided by a list of
    scheduled outcomes carried in the memory.  Code that reads or writes
    outside a block, releases a block twice or fails an [IGRAPH_ASSERT]
    ends in [Fault]. *)

From Stdlib Require Import ZArith Lia.
From Stdlib Require Import Init.Byte.
From Stdlib Require Strings.String.
Import String.StringSyntax.
Delimit Scope string_scope with string.
From stdpp Require Import base option list gmap.

Local Open Scope Z_scope.

(** ** Memory *)

Module Mem.

(** A [char*] value held in a slot. *)
Inductive cptr : Type :=
| Vundef                (* indeterminate: never written *)
| Vnull
| Vptr (a : Z).

#[global] Instance cptr_eq_dec : EqDecision cptr.
Proof. solve_decision. Defined.

Definition is_null (p : cptr) : bool :=
  match p with Vnull => true | _ => false end.

(** What the allocator does at its next call. *)
Inductive alloc_outcome : Type :=
| Fails                 (* returns NULL *)
| InPlace               (* realloc keeps the address *)
| Moves.                (* realloc hands out a new block and releases the old one *)

#[global] Instance alloc_outcome_eq_dec : EqDecision alloc_outcome.
Proof. solve_decision. Defined.

Record mem : Type := mkMem {
  cheap : gmap Z (list byte);     (* live char blocks, by address *)
  aheap : gmap Z (list cptr);     (* live slot arrays, by address of slot 0 *)
  cnext : Z;                      (* next unused char address *)
  anext : Z;                      (* next unused slot address *)
  oracle : list alloc_outcome     (* outcomes of the coming allocator calls *)
}.

Definition empty_mem (o : list alloc_outcome) : mem :=
  mkMem ∅ ∅ 1 1 o.

Inductive fault : Type :=
| AssertionFailed
| InvalidAccess
| InvalidFree.

Inductive outcome (A : Type) : Type :=
| Done (a : A) (m : mem)
| Fault (f : fault).
Arguments Done {A} a m.
Arguments Fault {A} f.

Definition M (A : Type) : Type := mem -> outcome A.

Definition ret {A} (a : A) : M A := fun m => Done a m.

Definition bind {A B} (c : M A) (k : A -> M B) : M B :=
  fun m => match c m with
           | Done a m' => k a m'
           | Fault f => Fault f
           end.

Definition raise {A} (f : fault) : M A := fun _ => Fault f.

End Mem.
Import Mem.

Notation "'let*' x := c 'in' k" := (bind c (fun x => k))
  (at level 10, x name, c at level 100, k at level 200).
Notation "'do' c 'then' k" := (bind c (fun _ => k))
  (at level 10, c at level 100, k at level 200).

(** The outcome scheduled for the next allocator call; once the schedule is
    used up every request is granted. *)
Definition next_outcome : M alloc_outcome :=
  fun m => match oracle m with
           | [] => Done InPlace m
           | o :: os => Done o (mkMem (cheap m) (aheap m) (cnext m) (anext m) os)
           end.

(** *** [char] blocks *)

(** Modelled from the spec: the allocation macros [IGRAPH_CALLOC],
    [IGRAPH_REALLOC] and [IGRAPH_FREE] of igraph_memory.h, which is not among
    the sources.  They are taken as [calloc], [realloc] and [free] on the
    given number of elements, any of which "cannot be obtained" when the
    allocator refuses; a request for no element gives a block without a
    usable element.

    [IGRAPH_CALLOC(n, char)]: [n] zero bytes at a new address, or NULL. *)
Definition calloc_chars (n : Z) : M cptr :=
  let* o := next_outcome in
  match o with
  | Fails => ret Vnull
  | _ => fun m =>
      Done (Vptr (cnext m))
           (mkMem (<[cnext m := replicate (Z.to_nat n) x00]> (cheap m))
                  (aheap m) (cnext m + 1) (anext m) (oracle m))
  end.

(** The first [n] bytes of [buf], padded when [buf] is shorter.  C leaves the
    padding indeterminate; every caller below overwrites the whole block
    before it is read. *)
Definition resize_bytes (n : nat) (buf : list byte) : list byte :=
  take n buf ++ replicate (n - length buf) x00.

(** [IGRAPH_REALLOC(p, n, char)] on a [char] block. *)
Definition realloc_chars (a : Z) (n : Z) : M cptr :=
  let* o := next_outcome in
  fun m =>
    match cheap m !! a with
    | None => Fault InvalidAccess
    | Some buf =>
        match o with
        | Fails => Done Vnull m
        | InPlace =>
            Done (Vptr a)
                 (mkMem (<[a := resize_bytes (Z.to_nat n) buf]> (cheap m))
                        (aheap m) (cnext m) (anext m) (oracle m))
        | Moves =>
            Done (Vptr (cnext m))
                 (mkMem (<[cnext m := resize_bytes (Z.to_nat n) buf]> (delete a (cheap m)))
                        (aheap m) (cnext m + 1) (anext m) (oracle m))
        end
    end.

(** [free(p)]: nothing for NULL, a fault for a pointer that is not live. *)
Definition free_chars (p : cptr) : M unit :=
  match p with
  | Vnull => ret tt
  | Vundef => raise InvalidFree
  | Vptr a => fun m =>
      match cheap m !! a with
      | None => Fault InvalidFree
      | Some _ =>
          Done tt (mkMem (delete a (cheap m)) (aheap m) (cnext m) (anext m) (oracle m))
      end
  end.

(** The bytes of the block at [p]. *)
Definition read_chars (p : cptr) : M (list byte) :=
  match p with
  | Vptr a => fun m =>
      match cheap m !! a with
      | Some buf => Done buf m
      | None => Fault InvalidAccess
      end
  | _ => raise InvalidAccess
  end.

(** Writes [data] at the start of the block at [p]; the block must be long
    enough. *)
Definition write_chars (p : cptr) (data : list byte) : M unit :=
  match p with
  | Vptr a => fun m =>
      match cheap m !! a with
      | Some buf =>
          if (length data <=? length buf)%nat then
            Done tt (mkMem (<[a := data ++ drop (length data) buf]> (cheap m))
                           (aheap m) (cnext m) (anext m) (oracle m))
          else Fault InvalidAccess
      | None => Fault InvalidAccess
      end
  | _ => raise InvalidAccess
  end.

(** *** C strings *)

(** The bytes before the first zero byte; [None] when there is none. *)
Fixpoint cstring (buf : list byte) : option (list byte) :=
  match buf with
  | [] => None
  | b :: rest =>
      if Byte.eqb b x00 then Some []
      else match cstring rest with
           | Some s => Some (b :: s)
           | None => None
           end
  end.

(** [strlen(value)], where [value] is the memory the pointer leads to. *)
Definition strlen (value : list byte) : M Z :=
  match cstring value with
  | Some s => ret (Z.of_nat (length s))
  | None => raise InvalidAccess
  end.

(** [strcpy(dst, src)]: the string and its terminator. *)
Definition strcpy (dst : cptr) (src : list byte) : M unit :=
  match cstring src with
  | Some s => write_chars dst (s ++ [x00])
  | None => raise InvalidAccess
  end.

(** [memcpy(dst, src, len)] *)
Definition memcpy (dst : cptr) (src : list byte) (len : Z) : M unit :=
  if (0 <=? len) && (len <=? Z.of_nat (length src))
  then write_chars dst (take (Z.to_nat len) src)
  else raise InvalidAccess.

(** [p[i] = b] *)
Definition store_char (p : cptr) (i : Z) (b : byte) : M unit :=
  match p with
  | Vptr a => fun m =>
      match cheap m !! a with
      | Some buf =>
          if (0 <=? i) && (i <? Z.of_nat (length buf))
          then Done tt (mkMem (<[a := <[Z.to_nat i := b]> buf]> (cheap m))
                              (aheap m) (cnext m) (anext m) (oracle m))
          else Fault InvalidAccess
      | None => Fault InvalidAccess
      end
  | _ => raise InvalidAccess
  end.

(** [p[i]] *)
Definition load_char (p : cptr) (i : Z) : M byte :=
  let* buf := read_chars p in
  if 0 <=? i then
    match buf !! Z.to_nat i with
    | Some b => ret b
    | None => raise InvalidAccess
    end
  else raise InvalidAccess.

(** [strdup(p)] *)
Definition strdup (p : cptr) : M cptr :=
  let* buf := read_chars p in
  match cstring buf with
  | None => raise InvalidAccess
  | Some s =>
      let* q := calloc_chars (Z.of_nat (length s) + 1) in
      if is_null q then ret Vnull
      else do write_chars q (s ++ [x00]) then ret q
  end.

(** *** Slot arrays *)

(** [IGRAPH_CALLOC(n, char * )]: [n] null slots at a new address, or 0. *)
Definition calloc_slots (n : Z) : M Z :=
  let* o := next_outcome in
  match o with
  | Fails => ret 0
  | _ => fun m =>
      Done (anext m)
           (mkMem (cheap m) (<[anext m := replicate (Z.to_nat n) Vnull]> (aheap m))
                  (cnext m) (anext m + Z.max n 1) (oracle m))
  end.

(** The first [n] slots, followed by indeterminate ones when the array
    grows. *)
Definition resize_slots (n : nat) (slots : list cptr) : list cptr :=
  take n slots ++ replicate (n - length slots) Vundef.

(** [IGRAPH_REALLOC(base, n, char * )] *)
Definition realloc_slots (base : Z) (n : Z) : M Z :=
  let* o := next_outcome in
  fun m =>
    match aheap m !! base with
    | None => Fault InvalidAccess
    | Some slots =>
        match o with
        | Fails => Done 0 m
        | InPlace =>
            Done base
                 (mkMem (cheap m) (<[base := resize_slots (Z.to_nat n) slots]> (aheap m))
                        (cnext m) (anext m) (oracle m))
        | Moves =>
            Done (anext m)
                 (mkMem (cheap m)
                        (<[anext m := resize_slots (Z.to_nat n) slots]> (delete base (aheap m)))
                        (cnext m) (anext m + Z.max n 1) (oracle m))
        end
    end.

(** [free(base)] for a slot array. *)
Definition free_slots (base : Z) : M unit :=
  fun m =>
    match aheap m !! base with
    | None => Fault InvalidFree
    | Some _ =>
        Done tt (mkMem (cheap m) (delete base (aheap m)) (cnext m) (anext m) (oracle m))
    end.

(** [base[i]] read *)
Definition load_slot (base : Z) (i : Z) : M cptr :=
  fun m =>
    match aheap m !! base with
    | None => Fault InvalidAccess
    | Some slots =>
        if 0 <=? i then
          match slots !! Z.to_nat i with
          | Some p => Done p m
          | None => Fault InvalidAccess
          end
        else Fault InvalidAccess
    end.

(** [base[i] = p] *)
Definition store_slot (base : Z) (i : Z) (p : cptr) : M unit :=
  fun m =>
    match aheap m !! base with
    | None => Fault InvalidAccess
    | Some slots =>
        if (0 <=? i) && (i <? Z.of_nat (length slots))
        then Done tt (mkMem (cheap m) (<[base := <[Z.to_nat i := p]> slots]> (aheap m))
                            (cnext m) (anext m) (oracle m))
        else Fault InvalidAccess
    end.

(** Modelled from the spec: the macro [IGRAPH_FREE] of igraph_memory.h.
    The spec has released slots read as null (a "null source slot" gets no
    copy), and the code tests slots against 0 before it releases them: the
    macro releases the block and sets the pointer it was given to NULL.

    [IGRAPH_FREE(base[i])] *)
Definition IGRAPH_FREE_slot (base : Z) (i : Z) : M unit :=
  let* p := load_slot base i in
  do free_chars p then
  store_slot base i Vnull.

(** Modelled from the spec: the macro [IGRAPH_ASSERT] of igraph_error.h, an
    "assertion-style abort": the program stops when [cond] is false. *)
Definition IGRAPH_ASSERT (cond : bool) : M unit :=
  if cond then ret tt else raise AssertionFailed.

(** A test of a slot against 0; comparing an indeterminate pointer is a
    fault. *)
Definition slot_is_null (p : cptr) : M bool :=
  match p with
  | Vundef => raise InvalidAccess
  | Vnull => ret true
  | Vptr _ => ret false
  end.

(** *** Counted loops *)

(** [for (i = lo; i < hi; i++) body(i)], where the body may leave the loop
    (and the function) with a value. *)
Fixpoint for_loop {R} (n : nat) (i : Z) (body : Z -> M (option R)) : M (option R) :=
  match n with
  | O => ret None
  | S n' =>
      let* r := body i in
      match r with
      | Some x => ret (Some x)
      | None => for_loop n' (i + 1) body
      end
  end.

Definition for_range {R} (lo hi : Z) (body : Z -> M (option R)) : M (option R) :=
  for_loop (Z.to_nat (hi - lo)) lo body.

(** The same without an early exit. *)
Fixpoint for_each (n : nat) (i : Z) (body : Z -> M unit) : M unit :=
  match n with
  | O => ret tt
  | S n' => do body i then for_each n' (i + 1) body
  end.

Definition for_all (lo hi : Z) (body : Z -> M unit) : M unit :=
  for_each (Z.to_nat (hi - lo)) lo body.

(** ** The string vector *)

(** Modelled from the spec: the error codes of igraph_error.h that the
    functions return, the spec's [OutOfMemory] ([IGRAPH_ENOMEM]),
    [OutOfBounds] (the code's "index out of bounds", [IGRAPH_EINVAL]) and
    [Overflow] ([IGRAPH_EOVERFLOW]).  [IGRAPH_ERROR(msg, code)] reports to the
    installed error handler and returns [code]; [IGRAPH_CHECK(e)] returns the
    code of [e] when it is not [IGRAPH_SUCCESS]. *)
Inductive igraph_error_t : Type :=
| IGRAPH_SUCCESS
| IGRAPH_ENOMEM
| IGRAPH_EINVAL
| IGRAPH_EOVERFLOW.

#[global] Instance igraph_error_eq_dec : EqDecision igraph_error_t.
Proof. solve_decision. Defined.

Definition is_success (e : igraph_error_t) : bool :=
  match e with IGRAPH_SUCCESS => true | _ => false end.

(** Modelled from the spec: "the maximum representable count",
    [IGRAPH_INTEGER_MAX] of igraph_types.h, for the 64 bit [igraph_integer_t].
    Counts and indices are kept as unbounded integers: a count never exceeds
    the number of slots held in memory. *)
Definition IGRAPH_INTEGER_MAX : Z := 2 ^ 63 - 1.

(** Modelled from the spec: the struct of igraph_strvector.h, three
    pointers into the slot array, the spec's [capacity_begin]
    ([stor_begin]), [capacity_end] ([stor_end]) and [logical_end] ([end]),
    named as the code dereferences them. *)
Record igraph_strvector_t : Type := mkStrvector {
  stor_begin : Z;
  stor_end : Z;
  end_ : Z
}.

#[global] Instance igraph_strvector_eq_dec : EqDecision igraph_strvector_t.
Proof. solve_decision. Defined.

Definition set_stor_begin (sv : igraph_strvector_t) (b : Z) : igraph_strvector_t :=
  mkStrvector b (stor_end sv) (end_ sv).
Definition set_end (sv : igraph_strvector_t) (e : Z) : igraph_strvector_t :=
  mkStrvector (stor_begin sv) (stor_end sv) e.

(** [sv->end - sv->stor_begin] *)
Definition size_of (sv : igraph_strvector_t) : Z := end_ sv - stor_begin sv.

(** [sv->stor_end - sv->stor_begin] *)
Definition capacity_of (sv : igraph_strvector_t) : Z := stor_end sv - stor_begin sv.

Definition igraph_strvector_size (sv : igraph_strvector_t) : M Z :=
  do IGRAPH_ASSERT (negb (stor_begin sv =? 0)) then
  ret (end_ sv - stor_begin sv).

(** [*ptr] and [IGRAPH_FREE( *ptr)] for a pointer [ptr] obtained from
    [sv->stor_begin]. *)
Definition slot_index (sv : igraph_strvector_t) (ptr : Z) : Z := ptr - stor_begin sv.

Definition igraph_strvector_destroy (sv : igraph_strvector_t) : M igraph_strvector_t :=
  do IGRAPH_ASSERT (negb (stor_begin sv =? 0)) then
  do for_all (stor_begin sv) (end_ sv) (fun ptr =>
       if ptr =? 0 then ret tt
       else IGRAPH_FREE_slot (stor_begin sv) (slot_index sv ptr)) then
  do free_slots (stor_begin sv) then
  ret (set_stor_begin sv 0).

(** [sv] is the struct as found at the call: the function assigns
    [stor_begin] first and the other two fields only after the loop. *)
Definition igraph_strvector_init (sv : igraph_strvector_t) (size : Z)
  : M (igraph_error_t * igraph_strvector_t) :=
  let* b := calloc_slots size in
  let sv := set_stor_begin sv b in
  if b =? 0 then ret (IGRAPH_ENOMEM, sv)
  else
    let* r := for_range 0 size (fun i =>
      let* p := calloc_chars 1 in
      do store_slot b i p then
      if is_null p then
        let* sv' := igraph_strvector_destroy sv in
        ret (Some (IGRAPH_ENOMEM, sv'))
      else
        do store_char p 0 x00 then
        ret None) in
    match r with
    | Some res => ret res
    | None => ret (IGRAPH_SUCCESS, mkStrvector b (b + size) (b + size))
    end.

Definition igraph_strvector_get (sv : igraph_strvector_t) (idx : Z) : M cptr :=
  do IGRAPH_ASSERT (negb (stor_begin sv =? 0)) then
  let* p := load_slot (stor_begin sv) idx in
  let* z := slot_is_null p in
  do IGRAPH_ASSERT (negb z) then
  ret p.

Definition igraph_strvector_set (sv : igraph_strvector_t) (idx : Z) (value : list byte)
  : M igraph_error_t :=
  do IGRAPH_ASSERT (negb (stor_begin sv =? 0)) then
  let* value_len := strlen value in
  let* p := load_slot (stor_begin sv) idx in
  match p with
  | Vundef => raise InvalidAccess
  | Vnull =>
      let* q := calloc_chars (value_len + 1) in
      do store_slot (stor_begin sv) idx q then
      if is_null q then ret IGRAPH_ENOMEM
      else
        do strcpy q value then
        ret IGRAPH_SUCCESS
  | Vptr a =>
      let* tmp := realloc_chars a (value_len + 1) in
      if is_null tmp then ret IGRAPH_ENOMEM
      else
        do store_slot (stor_begin sv) idx tmp then
        do strcpy tmp value then
        ret IGRAPH_SUCCESS
  end.

Definition igraph_strvector_set2 (sv : igraph_strvector_t) (idx : Z)
    (value : list byte) (len : Z) : M igraph_error_t :=
  if (idx <? 0) || (idx >=? stor_end sv - stor_begin sv) then ret IGRAPH_EINVAL
  else
    do IGRAPH_ASSERT (negb (stor_begin sv =? 0)) then
    let* p := load_slot (stor_begin sv) idx in
    match p with
    | Vundef => raise InvalidAccess
    | Vnull =>
        let* q := calloc_chars (len + 1) in
        do store_slot (stor_begin sv) idx q then
        if is_null q then ret IGRAPH_ENOMEM
        else
          do memcpy q value len then
          do store_char q len x00 then
          ret IGRAPH_SUCCESS
    | Vptr a =>
        let* tmp := realloc_chars a (len + 1) in
        if is_null tmp then ret IGRAPH_ENOMEM
        else
          do store_slot (stor_begin sv) idx tmp then
          do memcpy tmp value len then
          do store_char tmp len x00 then
          ret IGRAPH_SUCCESS
    end.

Definition igraph_strvector_remove_section (v : igraph_strvector_t) (from to : Z)
  : M igraph_strvector_t :=
  do IGRAPH_ASSERT (negb (stor_begin v =? 0)) then
  do for_all from to (fun i =>
       let* p := load_slot (stor_begin v) i in
       let* z := slot_is_null p in
       if z then ret tt else IGRAPH_FREE_slot (stor_begin v) i) then
  do for_all (stor_begin v) (end_ v - to) (fun p =>
       let* q := load_slot (stor_begin v) (slot_index v p + to) in
       store_slot (stor_begin v) (slot_index v p + from) q) then
  ret (set_end v (end_ v - (to - from))).

Definition igraph_strvector_remove (v : igraph_strvector_t) (elem : Z)
  : M igraph_strvector_t :=
  do IGRAPH_ASSERT (negb (stor_begin v =? 0)) then
  igraph_strvector_remove_section v elem (elem + 1).

Definition igraph_strvector_move_interval (v : igraph_strvector_t) (begin end' to : Z)
  : M unit :=
  do IGRAPH_ASSERT (negb (stor_begin v =? 0)) then
  do for_all to (to + end' - begin) (fun i =>
       let* p := load_slot (stor_begin v) i in
       let* z := slot_is_null p in
       if z then ret tt else IGRAPH_FREE_slot (stor_begin v) i) then
  for_all 0 (end' - begin) (fun i =>
    let* p := load_slot (stor_begin v) (begin + i) in
    let* z := slot_is_null p in
    if z then ret tt
    else
      let* src := read_chars p in
      let* n := strlen src in
      let len := n + 1 in
      let* q := calloc_chars len in
      do store_slot (stor_begin v) (to + i) q then
      let* dst := load_slot (stor_begin v) (to + i) in
      let* p' := load_slot (stor_begin v) (begin + i) in
      let* src' := read_chars p' in
      memcpy dst src' len).

Definition igraph_strvector_resize (v : igraph_strvector_t) (newsize : Z)
  : M (igraph_error_t * igraph_strvector_t) :=
  let* sz := igraph_strvector_size v in
  let toadd := newsize - sz in
  let* oldsize := igraph_strvector_size v in
  do IGRAPH_ASSERT (negb (stor_begin v =? 0)) then
  if newsize <? oldsize then
    do for_all newsize oldsize (fun i => IGRAPH_FREE_slot (stor_begin v) i) then
    ret (IGRAPH_SUCCESS, set_end v (stor_begin v + newsize))
  else if newsize >? oldsize then
    let* tmp := realloc_slots (stor_begin v) newsize in
    if tmp =? 0 then ret (IGRAPH_ENOMEM, v)
    else
      let v := mkStrvector tmp (tmp + newsize) (tmp + newsize) in
      let* r := for_range 0 toadd (fun i =>
        let* p := calloc_chars 1 in
        do store_slot (stor_begin v) (oldsize + i) p then
        if is_null p then
          do for_all 0 i (fun j =>
               let* q := load_slot (stor_begin v) (oldsize + i) in
               let* z := slot_is_null q in
               if z then ret tt else IGRAPH_FREE_slot (stor_begin v) (oldsize + i)) then
          ret (Some IGRAPH_ENOMEM)
        else
          do store_char p 0 x00 then
          ret None) in
      match r with
      | Some e => ret (e, v)
      | None => ret (IGRAPH_SUCCESS, v)
      end
  else ret (IGRAPH_SUCCESS, v).

Definition igraph_strvector_clear (sv : igraph_strvector_t) : M igraph_strvector_t :=
  let* n := igraph_strvector_size sv in
  do for_all 0 n (fun i => IGRAPH_FREE_slot (stor_begin sv) i) then
  ret (set_end sv (stor_begin sv)).

Definition igraph_strvector_copy (to from : igraph_strvector_t)
  : M (igraph_error_t * igraph_strvector_t) :=
  let* n := igraph_strvector_size from in
  let* b := calloc_slots n in
  let to := set_stor_begin to b in
  if b =? 0 then ret (IGRAPH_ENOMEM, to)
  else
    let* n := igraph_strvector_size from in
    let to := mkStrvector b (b + n) (b + n) in
    let* n := igraph_strvector_size from in
    let* r := for_range 0 n (fun i =>
      let* str := igraph_strvector_get from i in
      let* value := read_chars str in
      let* e := igraph_strvector_set to i value in
      if is_success e then ret None
      else
        let* to' := igraph_strvector_destroy to in
        ret (Some (e, to'))) in
    match r with
    | Some res => ret res
    | None => ret (IGRAPH_SUCCESS, to)
    end.

Definition igraph_strvector_append (to from : igraph_strvector_t)
  : M (igraph_error_t * igraph_strvector_t) :=
  let* len1 := igraph_strvector_size to in
  let* len2 := igraph_strvector_size from in
  let* r := igraph_strvector_resize to (len1 + len2) in
  if negb (is_success (fst r)) then ret r
  else
    let to := snd r in
    let* error := for_range 0 len2 (fun i =>
      let* s := load_slot (stor_begin from) i in
      let* c := load_char s 0 in
      if Byte.eqb c x00 then ret None
      else
        do IGRAPH_FREE_slot (stor_begin to) (len1 + i) then
        let* q := strdup s in
        do store_slot (stor_begin to) (len1 + i) q then
        if is_null q then ret (Some tt) else ret None) in
    match error with
    | Some _ =>
        let* r' := igraph_strvector_resize to len1 in
        ret (IGRAPH_ENOMEM, snd r')
    | None => ret (IGRAPH_SUCCESS, to)
    end.

Definition igraph_strvector_add (v : igraph_strvector_t) (value : list byte)
  : M (igraph_error_t * igraph_strvector_t) :=
  let* old_size := igraph_strvector_size v in
  let* value_len := strlen value in
  let new_size :=
    if old_size <? Z.quot IGRAPH_INTEGER_MAX 2 then old_size * 2 else IGRAPH_INTEGER_MAX in
  if old_size =? IGRAPH_INTEGER_MAX then ret (IGRAPH_EOVERFLOW, v)
  else
    do IGRAPH_ASSERT (negb (stor_begin v =? 0)) then
    let* v :=
      (if end_ v =? stor_end v then
         let new_size := if new_size =? 0 then 1 else new_size in
         let* r := igraph_strvector_resize v new_size in
         ret (snd r)
       else ret v) in
    let* p := calloc_chars (value_len + 1) in
    do store_slot (stor_begin v) old_size p then
    if is_null p then ret (IGRAPH_ENOMEM, v)
    else
      do strcpy p value then
      ret (IGRAPH_SUCCESS, set_end v (stor_begin v + old_size + 1)).

(** Modelled from the spec: the mapping handed to
    [igraph_strvector_permdelete], an [igraph_vector_int_t] with "one entry
    per current element", read through the macro [VECTOR].

    [VECTOR( *index)[i]] *)
Definition vector_int_get (index : list Z) (i : Z) : M Z :=
  if 0 <=? i then
    match index !! Z.to_nat i with
    | Some x => ret x
    | None => raise InvalidAccess
    end
  else raise InvalidAccess.

Definition igraph_strvector_permdelete (v : igraph_strvector_t) (index : list Z)
    (nremove : Z) : M igraph_strvector_t :=
  do IGRAPH_ASSERT (negb (stor_begin v =? 0)) then
  let* n := igraph_strvector_size v in
  do for_all 0 n (fun i =>
       let* x := vector_int_get index i in
       if negb (x =? 0) then
         let* p := load_slot (stor_begin v) i in
         store_slot (stor_begin v) (x - 1) p
       else IGRAPH_FREE_slot (stor_begin v) i) then
  let* sz := igraph_strvector_size v in
  let* tmp := realloc_slots (stor_begin v) (if negb (sz - nremove =? 0) then sz - nremove else 1) in
  let v := if negb (tmp =? 0) then set_stor_begin v tmp else v in
  ret (mkStrvector (stor_begin v) (stor_end v - nremove) (end_ v - nremove)).

(** ** Reading a vector back *)

(** The C string a slot value leads to. *)
Definition string_at (m : mem) (p : cptr) : option (list byte) :=
  match p with
  | Vptr a => cheap m !! a ≫= cstring
  | _ => None
  end.

(** Slot [i] of the slot array of [v]. *)
Definition slot_at (m : mem) (v : igraph_strvector_t) (i : nat) : option cptr :=
  aheap m !! stor_begin v ≫= (fun slots => slots !! i).

(** The string of element [i]; [None] when the slot is outside the array,
    null, indeterminate or leads to no live terminated block. *)
Definition element (m : mem) (v : igraph_strvector_t) (i : nat) : option (list byte) :=
  slot_at m v i ≫= string_at m.

(** Elements [0 .. size-1]. *)
Definition contents (m : mem) (v : igraph_strvector_t) : list (option (list byte)) :=
  element m v <$> seq 0 (Z.to_nat (size_of v)).

Definition bytes (s : String.string) : list byte := String.list_byte_of_string s.

(** A C string literal: the bytes and the terminator. *)
Definition lit (s : String.string) : list byte := bytes s ++ [x00].

Arguments bytes s%_string.
Arguments lit s%_string.

(** Runs [c], keeping the value and the memory. *)
Definition run {A} (c : M A) (m : mem) : option (A * mem) :=
  match c m with
  | Done a m' => Some (a, m')
  | Fault _ => None
  end.

(** Builds a vector with the given strings by [igraph_strvector_init] and
    [igraph_strvector_set], every allocation granted. *)
Fixpoint set_all (v : igraph_strvector_t) (i : Z) (l : list String.string) : M unit :=
  match l with
  | [] => ret tt
  | s :: rest =>
      do igraph_strvector_set v i (lit s) then
      set_all v (i + 1) rest
  end.

Definition build (l : list String.string) : M igraph_strvector_t :=
  let* r := igraph_strvector_init (mkStrvector 0 0 0) (Z.of_nat (length l)) in
  do set_all (snd r) 0 l then
  ret (snd r).
(** ** Gathering by index and printing *)

(** Modelled from the spec: the "index_list" handed to
    [igraph_strvector_index] is an [igraph_vector_int_t], whose length
    [igraph_vector_int_size] returns. *)
Definition igraph_vector_int_size (idx : list Z) : Z := Z.of_nat (length idx).

(** [IGRAPH_CHECK] hands on the error of the resize; the result of
    [igraph_strvector_set] is not looked at. *)
Definition igraph_strvector_index (v newv : igraph_strvector_t) (idx : list Z)
  : M (igraph_error_t * igraph_strvector_t) :=
  let newlen := igraph_vector_int_size idx in
  let* r := igraph_strvector_resize newv newlen in
  if negb (is_success (fst r)) then ret r
  else
    let newv := snd r in
    do for_all 0 newlen (fun i =>
         let* j := vector_int_get idx i in
         let* str := igraph_strvector_get v j in
         let* value := read_chars str in
         let* _ := igraph_strvector_set newv i value in
         ret tt) then
    ret (IGRAPH_SUCCESS, newv).

(** *** Output streams *)

(** A [FILE]: the bytes written so far, and whether writes fail. *)
Record FILE : Type := mkFILE {
  written : list byte;
  failing : bool
}.

(** [fprintf(file, "%s", s)] and [fprintf(file, "%s%s", s1, s2)] for the
    strings the pointers lead to: the number of bytes written and the stream
    after the call, or a negative number when the write fails. *)
Definition fprintf_strings (file : FILE) (args : list (list byte)) : M (Z * FILE) :=
  match mapM cstring args with
  | Some strs =>
      if failing file then ret (-1, file)
      else ret (Z.of_nat (length (concat strs)),
                mkFILE (written file ++ concat strs) false)
  | None => raise InvalidAccess
  end.

(** A counted loop that carries a value from round to round. *)
Fixpoint for_fold {A} (n : nat) (i : Z) (acc : A) (body : Z -> A -> M A) : M A :=
  match n with
  | O => ret acc
  | S n' => let* acc' := body i acc in for_fold n' (i + 1) acc' body
  end.

(** Modelled from the spec: the macro [STR] of igraph_strvector.h, the
    "direct indexed access" to a slot.

    [STR(v, i)] *)
Definition STR (v : igraph_strvector_t) (i : Z) : M cptr := load_slot (stor_begin v) i.

(** [file] is the stream before the call, the result holds the stream after
    it; what [fprintf] returns is not looked at. *)
Definition igraph_strvector_print (v : igraph_strvector_t) (file : FILE)
    (sep : list byte) : M (igraph_error_t * FILE) :=
  let* n := igraph_strvector_size v in
  let* file :=
    (if negb (n =? 0) then
       let* p := STR v 0 in
       let* s := read_chars p in
       let* r := fprintf_strings file [s] in
       ret (snd r)
     else ret file) in
  let* file := for_fold (Z.to_nat (n - 1)) 1 file (fun i file =>
    let* p := STR v i in
    let* s := read_chars p in
    let* r := fprintf_strings file [sep; s] in
    ret (snd r)) in
  ret (IGRAPH_SUCCESS, file).


(** ** Well-formed memories and vectors *)

(** Addresses from [cnext] and [anext] on are unused. *)
Record mem_ok (m : mem) : Prop := {
  ok_anext : 0 < anext m;
  ok_cheap : ∀ a, cnext m ≤ a → cheap m !! a = None;
  ok_aheap : ∀ b, anext m ≤ b → aheap m !! b = None
}.

(** [v] is a vector whose slot array is [slots] and whose elements are the
    blocks at the addresses [ps], each owned once and zero terminated. *)
Record valid (m : mem) (v : igraph_strvector_t) (slots : list cptr) (ps : list Z) : Prop := {
  valid_base : stor_begin v ≠ 0;
  valid_block : aheap m !! stor_begin v = Some slots;
  valid_size : size_of v = Z.of_nat (length ps);
  valid_cap : size_of v ≤ capacity_of v ≤ Z.of_nat (length slots);
  valid_live : take (length ps) slots = Vptr <$> ps;
  valid_nodup : NoDup ps;
  valid_strings : ∀ a, a ∈ ps → is_Some (cheap m !! a ≫= cstring)
}.

(** Memory updates, as the primitives make them. *)
Definition put_slots (m : mem) (b : Z) (slots : list cptr) : mem :=
  mkMem (cheap m) (<[b := slots]> (aheap m)) (cnext m) (anext m) (oracle m).

Definition put_chars (m : mem) (a : Z) (buf : list byte) : mem :=
  mkMem (<[a := buf]> (cheap m)) (aheap m) (cnext m) (anext m) (oracle m).

Definition drop_chars (m : mem) (a : Z) : mem :=
  mkMem (delete a (cheap m)) (aheap m) (cnext m) (anext m) (oracle m).

(** *** Invariants of the two loops of [igraph_strvector_remove_section]

    [b] is the slot array, [f] and [t] the section, [slots] and [ps] the
    slot array and the element addresses before the call. *)

(** After [k] rounds of the loop that releases the section. *)
Definition released_inv (m : mem) (b : Z) (f : nat) (slots : list cptr) (ps : list Z)
    (k : nat) (m1 : mem) : Prop :=
  cnext m1 = cnext m ∧ anext m1 = anext m ∧ oracle m1 = oracle m ∧
  (∀ a, a ∈ take k (drop f ps) → cheap m1 !! a = None) ∧
  (∀ a, a ∉ take k (drop f ps) → cheap m1 !! a = cheap m !! a) ∧
  ∃ sl, aheap m1 = <[b := sl]> (aheap m) ∧ length sl = length slots ∧
    ∀ i, sl !! i = if decide (f ≤ i < f + k)%nat then Some Vnull else slots !! i.

(** After [k] rounds of the loop that closes the gap, started in [m1] with
    the slots [sl1]. *)
Definition shifted_inv (m : mem) (b : Z) (f t : nat) (slots : list cptr)
    (m1 : mem) (sl1 : list cptr) (k : nat) (m2 : mem) : Prop :=
  cnext m2 = cnext m ∧ anext m2 = anext m ∧ oracle m2 = oracle m ∧
  cheap m2 = cheap m1 ∧
  ∃ sl, aheap m2 = <[b := sl]> (aheap m) ∧ length sl = length slots ∧
    ∀ i, sl !! i = if decide (f ≤ i < f + k)%nat then sl1 !! (i + (t - f))%nat else sl1 !! i.

(** The memory once the allocator has used its next scheduled outcome. *)
Definition pop_oracle (m : mem) : mem :=
  mkMem (cheap m) (aheap m) (cnext m) (anext m) (tail (oracle m)).

(** The outcome the allocator will use next. *)
Definition scheduled (m : mem) : alloc_outcome :=
  match oracle m with
  | [] => InPlace
  | o :: _ => o
  end.

(** A decidable form of [valid], for concrete memories. *)
Definition check_valid (m : mem) (v : igraph_strvector_t)
    (slots : list cptr) (ps : list Z) : bool :=
  negb (stor_begin v =? 0)
  && bool_decide (aheap m !! stor_begin v = Some slots)
  && (size_of v =? Z.of_nat (length ps))
  && (size_of v <=? capacity_of v)
  && (capacity_of v <=? Z.of_nat (length slots))
  && bool_decide (take (length ps) slots = Vptr <$> ps)
  && bool_decide (NoDup ps)
  && forallb (fun a => bool_decide (is_Some (cheap m !! a ≫= cstring))) ps.

(** [m] with the allocator outcomes [o] scheduled next. *)
Definition with_oracle (m : mem) (o : list alloc_outcome) : mem :=
  mkMem (cheap m) (aheap m) (cnext m) (anext m) o.

(** The vector and the memory [c] leaves when run from the empty memory with
    every allocation granted in place; the outcomes [o] are scheduled for
    what comes after. *)
Definition state_of (c : M igraph_strvector_t) (o : list alloc_outcome)
  : igraph_strvector_t * mem :=
  match run c (empty_mem []) with
  | Some (v, m) => (v, with_oracle m o)
  | None => (mkStrvector 0 0 0, empty_mem [])
  end.

(** The result of [c] on the vector and memory of [state_of pre o]. *)
Definition after {A} (pre : M igraph_strvector_t) (o : list alloc_outcome)
    (c : igraph_strvector_t -> M A) : outcome A :=
  c (fst (state_of pre o)) (snd (state_of pre o)).

(** The pointer order the struct is meant to keep. *)
Definition ordered (v : igraph_strvector_t) : Prop :=
  stor_begin v ≤ end_ v ∧ end_ v ≤ stor_end v.

(** Example vectors. *)
Definition vec_x : M igraph_strvector_t := build ["x"%string].
Definition vec_ab : M igraph_strvector_t := build ["a"%string; "b"%string].
Definition vec_abc : M igraph_strvector_t :=
  build ["a"%string; "b"%string; "c"%string].
Definition vec_abcd : M igraph_strvector_t :=
  build ["a"%string; "b"%string; "c"%string; "d"%string].

(** ["a"; "b"] cut back to one element: size 1, two slots reserved. *)
Definition vec_a_spare : M igraph_strvector_t :=
  let* v := vec_ab in
  let* r := igraph_strvector_resize v 1 in
  ret (snd r).

(** The memory after a granted [calloc] of a [char] block with bytes [buf]. *)
Definition alloc_chars (m : mem) (buf : list byte) : mem :=
  mkMem (<[cnext m := buf]> (cheap m)) (aheap m) (cnext m + 1) (anext m)
        (tail (oracle m)).

(** None of the next [n] allocator calls is refused. *)
Definition granted (n : nat) (m : mem) : Prop :=
  Forall (fun o => o ≠ Fails) (take n (oracle m)).

(** *** Invariant of the copying loop of [igraph_strvector_move_interval]

    After [k] rounds, started in [m1] with the slots [sl1]; [bg] is the start
    of the source and [t] the start of the destination. *)
Definition copied_inv (m : mem) (b : Z) (bg t : nat) (ps : list Z)
    (m1 : mem) (sl1 : list cptr) (k : nat) (m2 : mem) : Prop :=
  cnext m2 = cnext m + Z.of_nat k ∧ anext m2 = anext m ∧
  oracle m2 = drop k (oracle m) ∧
  (∀ a, a < cnext m → cheap m2 !! a = cheap m1 !! a) ∧
  (∀ j a, (j < k)%nat → ps !! (bg + j)%nat = Some a →
     string_at m2 (Vptr (cnext m + Z.of_nat j)) = string_at m (Vptr a)) ∧
  ∃ sl, aheap m2 = <[b := sl]> (aheap m) ∧ length sl = length sl1 ∧
    ∀ i, sl !! i = if decide (t ≤ i < t + k)%nat
                   then Some (Vptr (cnext m + Z.of_nat (i - t)))
                   else sl1 !! i.

(** *** [igraph_strvector_permdelete] *)

(** The mappings the function is written for: one entry per element; a
    non-zero entry [p] sends its element to slot [p - 1], which is its own
    slot or an earlier one and lies below [bound]; no two elements are sent to
    the same slot. *)
Record compacting (index : list Z) (n : nat) (bound : Z) : Prop := {
  compacting_length : length index = n;
  compacting_back : ∀ i p, index !! i = Some p → p ≠ 0 →
                      1 ≤ p ≤ Z.of_nat i + 1 ∧ p ≤ bound;
  compacting_inj : ∀ i j p, index !! i = Some p → index !! j = Some p → p ≠ 0 → i = j
}.

(** [a] is the block of an element before [k] that the mapping deletes. *)
Definition released_by (index : list Z) (ps : list Z) (k : nat) (a : Z) : Prop :=
  ∃ i, (i < k)%nat ∧ index !! i = Some 0 ∧ ps !! i = Some a.

(** After [k] rounds of the loop. *)
Definition permuted_inv (m : mem) (b : Z) (slots : list cptr) (ps index : list Z)
    (k : nat) (m1 : mem) : Prop :=
  cnext m1 = cnext m ∧ anext m1 = anext m ∧ oracle m1 = oracle m ∧
  (∀ a, released_by index ps k a → cheap m1 !! a = None) ∧
  (∀ a, ¬ released_by index ps k a → cheap m1 !! a = cheap m !! a) ∧
  ∃ sl, aheap m1 = <[b := sl]> (aheap m) ∧ length sl = length slots ∧
    (∀ i, (k ≤ i)%nat → sl !! i = slots !! i) ∧
    (∀ i p a, (i < k)%nat → index !! i = Some p → p ≠ 0 → ps !! i = Some a →
       sl !! Z.to_nat (p - 1) = Some (Vptr a)).

(** *** [igraph_strvector_resize] *)

(** What a call on the vector at [b] leaves alone: the blocks that were live
    and the slot arrays other than [b]. *)
Definition frame (m m' : mem) (b : Z) : Prop :=
  cnext m ≤ cnext m' ∧ anext m ≤ anext m' ∧
  (∀ a, a < cnext m → cheap m' !! a = cheap m !! a) ∧
  (∀ b', b' ≠ b → b' < anext m → aheap m' !! b' = aheap m !! b').

(** After [k] rounds of the loop that fills the new slots; [m0] is the
    memory after the [realloc], [b] the array, [old] the old size and
    [slots0] the array as the [realloc] left it. *)
Definition grown_inv (m0 : mem) (b : Z) (old : nat) (slots0 : list cptr)
    (k : nat) (m2 : mem) : Prop :=
  cnext m2 = cnext m0 + Z.of_nat k ∧ anext m2 = anext m0 ∧
  oracle m2 = drop k (oracle m0) ∧
  (∀ a, a < cnext m0 → cheap m2 !! a = cheap m0 !! a) ∧
  (∀ j, (j < k)%nat → cheap m2 !! (cnext m0 + Z.of_nat j) = Some [x00]) ∧
  (∀ a, cnext m2 ≤ a → cheap m2 !! a = None) ∧
  ∃ sl, aheap m2 = <[b := sl]> (aheap m0) ∧ length sl = length slots0 ∧
    ∀ i, sl !! i = if decide (old ≤ i < old + k)%nat
                   then Some (Vptr (cnext m0 + Z.of_nat (i - old)))
                   else slots0 !! i.

(** The loop left with the error [e], [toadd] rounds having been due. *)
Definition grow_failed (m0 : mem) (b : Z) (toadd : nat)
    (e : igraph_error_t) (m2 : mem) : Prop :=
  e = IGRAPH_ENOMEM ∧ ¬ granted toadd m0 ∧
  cnext m0 ≤ cnext m2 ∧ anext m2 = anext m0 ∧
  (∀ a, a < cnext m0 → cheap m2 !! a = cheap m0 !! a) ∧
  (∀ b', b' ≠ b → aheap m2 !! b' = aheap m0 !! b').

(** Slots that can be released one after the other: each is null or leads
    to a live block that no other of them leads to. *)
Definition releasable (m : mem) (xs : list cptr) : Prop :=
  ∀ i p, xs !! i = Some p →
    p = Vnull ∨
    ∃ q, p = Vptr q ∧ is_Some (cheap m !! q) ∧ ∀ j, xs !! j = Some (Vptr q) → j = i.

(** After [k] rounds of the loop that releases the slots from [ns] on;
    [xs] are the slots to release. *)
Definition shrunk_inv (m : mem) (b : Z) (ns : nat) (sl xs : list cptr)
    (k : nat) (m2 : mem) : Prop :=
  cnext m2 = cnext m ∧ anext m2 = anext m ∧ oracle m2 = oracle m ∧
  (∀ a, Vptr a ∉ take k xs → cheap m2 !! a = cheap m !! a) ∧
  ∃ sl2, aheap m2 = <[b := sl2]> (aheap m) ∧ length sl2 = length sl ∧
    ∀ i, sl2 !! i = if decide (ns ≤ i < ns + k)%nat then Some Vnull else sl !! i.

(** *** [igraph_strvector_append]

    [m] is the memory at the call and [m1] the memory after the resize; [bA]
    is the slot array of the receiver after the resize, [bB] with [slotsB]
    that of the other vector; [psA] and [psB] are the elements of the two. *)

(** After [k] rounds of the copying loop: the receiver's new slots hold
    blocks [rs] allocated since the call, the first [k] with the strings of
    the other vector and the rest still empty. *)
Definition appended_inv (m m1 : mem) (bA bB : Z) (slotsB : list cptr)
    (psA psB : list Z) (k : nat) (m2 : mem) : Prop :=
  anext m2 = anext m1 ∧
  (∃ c, (c ≤ k)%nat ∧ oracle m2 = drop c (oracle m1)) ∧
  (∀ a, a < cnext m → cheap m2 !! a = cheap m !! a) ∧
  (∀ a, cnext m2 ≤ a → cheap m2 !! a = None) ∧
  aheap m2 !! bB = Some slotsB ∧
  ∃ rs, aheap m2 !! bA = Some (Vptr <$> (psA ++ rs)) ∧ length rs = length psB ∧
    NoDup rs ∧
    (∀ r, r ∈ rs → cnext m ≤ r ∧ is_Some (cheap m2 !! r)) ∧
    (∀ j r b, (j < k)%nat → rs !! j = Some r → psB !! j = Some b →
       string_at m2 (Vptr r) = string_at m (Vptr b)) ∧
    (∀ j r, (k ≤ j)%nat → rs !! j = Some r → cheap m2 !! r = Some [x00]).

(** The loop left because a copy could not be allocated. *)
Definition append_failed (m m1 : mem) (bA bB : Z) (slotsB : list cptr)
    (psA psB : list Z) (m2 : mem) : Prop :=
  ¬ granted (length psB) m1 ∧
  (∀ a, a < cnext m → cheap m2 !! a = cheap m !! a) ∧
  aheap m2 !! bB = Some slotsB ∧
  ∃ xs, aheap m2 !! bA = Some ((Vptr <$> psA) ++ xs) ∧ length xs = length psB ∧
    releasable m2 xs ∧ (∀ r, Vptr r ∈ xs → cnext m ≤ r).

(** A decidable form of [mem_ok]. *)
Definition check_mem_ok (m : mem) : bool :=
  (0 <? anext m)
  && bool_decide (map_Forall (fun a _ => a < cnext m) (cheap m))
  && bool_decide (map_Forall (fun b _ => b < anext m) (aheap m)).

(** A decidable form of [compacting]. *)
Definition check_compacting (index : list Z) (n : nat) (bound : Z) : bool :=
  bool_decide (length index = n)
  && forallb (fun ip : nat * Z =>
                (snd ip =? 0)
                || ((1 <=? snd ip) && (snd ip <=? Z.of_nat (fst ip) + 1)
                    && (snd ip <=? bound)))
             (imap pair index)
  && bool_decide (NoDup (filter (fun p => p ≠ 0) index)).

(** Two vectors in one memory: ["a"; "b"] and [""; "d"]. *)
Definition two_vectors (o : list alloc_outcome)
  : igraph_strvector_t * igraph_strvector_t * mem :=
  match run (let* a := vec_ab in
             let* b := build [""%string; "d"%string] in
             ret (a, b)) (empty_mem []) with
  | Some (ab, m) => (ab, with_oracle m o)
  | None => (mkStrvector 0 0 0, mkStrvector 0 0 0, empty_mem [])
  end.

(** The address a granted [realloc] of the [char] block at [a] returns. *)
Definition realloc_target (m : mem) (a : Z) : Z :=
  match scheduled m with
  | Moves => cnext m
  | _ => a
  end.
(** ** Further invariants and examples *)

(** After [k] releases from slot [ns] on: [shrunk_inv], and the released
    blocks are gone. *)
Definition freed_inv (m : mem) (b : Z) (ns : nat) (sl xs : list cptr)
    (k : nat) (m2 : mem) : Prop :=
  shrunk_inv m b ns sl xs k m2 ∧
  (∀ a, Vptr a ∈ take k xs → cheap m2 !! a = None).

(** *** Invariant of the loop of [igraph_strvector_copy]

    After [k] rounds, started in [m0] with the new array [b] of [n] null
    slots; [ps] are the elements of the vector that is copied. *)
Definition cloned_inv (m0 : mem) (b : Z) (n : nat) (ps : list Z)
    (k : nat) (m2 : mem) : Prop :=
  cnext m2 = cnext m0 + Z.of_nat k ∧ anext m2 = anext m0 ∧
  oracle m2 = drop k (oracle m0) ∧
  (∀ a, a < cnext m0 → cheap m2 !! a = cheap m0 !! a) ∧
  (∀ j a s, (j < k)%nat → ps !! j = Some a → string_at m0 (Vptr a) = Some s →
     cheap m2 !! (cnext m0 + Z.of_nat j) = Some (s ++ [x00])) ∧
  (∀ a, cnext m2 ≤ a → cheap m2 !! a = None) ∧
  ∃ sl, aheap m2 = <[b := sl]> (aheap m0) ∧ length sl = n ∧
    ∀ i, sl !! i = if decide (i < k)%nat then Some (Vptr (cnext m0 + Z.of_nat i))
                   else if decide (i < n)%nat then Some Vnull else None.

(** *** Invariant of the loop of [igraph_strvector_index]

    After [k] rounds, started in [m1]; [v] with [slotsV] and [psV] is the
    vector that is read, [newv] the one that is written. *)
Definition gathered (m1 : mem) (v newv : igraph_strvector_t) (slotsV : list cptr)
    (psV : list Z) (idx : list Z) (k : nat) (m2 : mem) : Prop :=
  ∃ slotsN psN,
    valid m2 newv slotsN psN ∧ mem_ok m2 ∧ valid m2 v slotsV psV ∧
    (∀ a, a ∈ psV → a ∉ psN) ∧ contents m2 v = contents m1 v ∧
    oracle m2 = drop k (oracle m1) ∧
    (∀ b', b' ≠ stor_begin newv → aheap m2 !! b' = aheap m1 !! b') ∧
    take k (contents m2 newv) = (fun j => element m1 v (Z.to_nat j)) <$> take k idx.

(** What [igraph_strvector_print] is to write: the strings with [sep]
    between them. *)
Definition joined (sep : list byte) (strs : list (list byte)) : list byte :=
  match strs with
  | [] => []
  | s :: rest => s ++ concat ((fun x => sep ++ x) <$> rest)
  end.

(** ["x"; "y"; "z"] and an empty vector in one memory. *)
Definition xyz_and_empty (o : list alloc_outcome)
  : igraph_strvector_t * igraph_strvector_t * mem :=
  match run (let* a := build ["x"%string; "y"%string; "z"%string] in
             let* b := build [] in
             ret (a, b)) (empty_mem []) with
  | Some (ab, m) => (ab, with_oracle m o)
  | None => (mkStrvector 0 0 0, mkStrvector 0 0 0, empty_mem [])
  end.



(** ** Stepping through the primitives *)

Lemma bind_done {A B} (c : M A) (k : A -> M B) m a m' :
  c m = Done a m' → bind c k m = k a m'.
Proof. unfold bind. by intros ->. Qed.

#[global] Arguments calloc_chars : simpl never.
#[global] Arguments realloc_chars : simpl never.
#[global] Arguments free_chars : simpl never.
#[global] Arguments read_chars : simpl never.
#[global] Arguments write_chars : simpl never.
#[global] Arguments store_char : simpl never.
#[global] Arguments load_char : simpl never.
#[global] Arguments strdup : simpl never.
#[global] Arguments calloc_slots : simpl never.
#[global] Arguments realloc_slots : simpl never.
#[global] Arguments free_slots : simpl never.
#[global] Arguments load_slot : simpl never.
#[global] Arguments store_slot : simpl never.
#[global] Arguments IGRAPH_FREE_slot : simpl never.
#[global] Arguments strlen : simpl never.
#[global] Arguments strcpy : simpl never.
#[global] Arguments memcpy : simpl never.
#[global] Arguments bind : simpl never.

Lemma bind_ret {A B} (a : A) (k : A -> M B) m : bind (ret a) k m = k a m.
Proof. done. Qed.

(** Runs the first command of a sequence with [tac]. *)
Ltac step tac := erewrite bind_done; [| solve [tac] ].

Lemma assert_base (b : Z) (m : mem) :
  b ≠ 0 → IGRAPH_ASSERT (negb (b =? 0)) m = Done tt m.
Proof. intros H. by destruct (Z.eqb_spec b 0). Qed.

Lemma size_run (v : igraph_strvector_t) (m : mem) :
  stor_begin v ≠ 0 → igraph_strvector_size v m = Done (size_of v) m.
Proof.
  intros H. unfold igraph_strvector_size.
  by rewrite (bind_done _ _ _ _ _ (assert_base _ m H)).
Qed.

Lemma load_slot_run (b i : Z) (m : mem) (slots : list cptr) (p : cptr) :
  aheap m !! b = Some slots → 0 ≤ i → slots !! Z.to_nat i = Some p →
  load_slot b i m = Done p m.
Proof.
  intros Hb Hi Hp. unfold load_slot. rewrite Hb.
  destruct (Z.leb_spec 0 i); [|lia]. by rewrite Hp.
Qed.

Lemma store_slot_run (b i : Z) (p : cptr) (m : mem) (slots : list cptr) :
  aheap m !! b = Some slots → 0 ≤ i < Z.of_nat (length slots) →
  store_slot b i p m = Done tt (put_slots m b (<[Z.to_nat i := p]> slots)).
Proof.
  intros Hb Hi. unfold store_slot. rewrite Hb.
  destruct (Z.leb_spec 0 i); [|lia].
  destruct (Z.ltb_spec i (Z.of_nat (length slots))); [|lia]. done.
Qed.

Lemma free_chars_run (a : Z) (m : mem) :
  is_Some (cheap m !! a) → free_chars (Vptr a) m = Done tt (drop_chars m a).
Proof. intros [buf Hbuf]. unfold free_chars. by rewrite Hbuf. Qed.

Lemma free_slot_run (b i a : Z) (m : mem) (slots : list cptr) :
  aheap m !! b = Some slots → 0 ≤ i → slots !! Z.to_nat i = Some (Vptr a) →
  is_Some (cheap m !! a) →
  IGRAPH_FREE_slot b i m
  = Done tt (put_slots (drop_chars m a) b (<[Z.to_nat i := Vnull]> slots)).
Proof.
  intros Hb Hi Hp Ha. unfold IGRAPH_FREE_slot.
  rewrite (bind_done _ _ _ _ _ (load_slot_run _ _ _ _ _ Hb Hi Hp)).
  rewrite (bind_done _ _ _ _ _ (free_chars_run _ _ Ha)).
  apply (store_slot_run b i Vnull (drop_chars m a) slots); [done|].
  apply lookup_lt_Some in Hp. lia.
Qed.

Lemma free_slot_null_run (b i : Z) (m : mem) (slots : list cptr) :
  aheap m !! b = Some slots → 0 ≤ i → slots !! Z.to_nat i = Some Vnull →
  IGRAPH_FREE_slot b i m = Done tt (put_slots m b (<[Z.to_nat i := Vnull]> slots)).
Proof.
  intros Hb Hi Hp. unfold IGRAPH_FREE_slot.
  rewrite (bind_done _ _ _ _ _ (load_slot_run _ _ _ _ _ Hb Hi Hp)).
  simpl. unfold bind, ret. apply store_slot_run; [done|].
  apply lookup_lt_Some in Hp. lia.
Qed.

(** *** Loops with an invariant *)

Lemma for_each_inv (I : nat → mem → Prop) (n : nat) (lo : Z) (body : Z → M unit) (m : mem) :
  I 0%nat m →
  (∀ k m1, (k < n)%nat → I k m1 →
     ∃ m2, body (lo + Z.of_nat k) m1 = Done tt m2 ∧ I (S k) m2) →
  ∃ m', for_each n lo body m = Done tt m' ∧ I n m'.
Proof.
  revert I lo m. induction n as [|n IH]; intros I lo m H0 Hstep.
  - exists m. done.
  - destruct (Hstep 0%nat m) as (m2 & Hb & H1); [lia|done|].
    rewrite Z.add_0_r in Hb.
    destruct (IH (fun k => I (S k)) (lo + 1) m2 H1) as (m' & Hrun & Hn).
    { intros k m1 Hk HI. destruct (Hstep (S k) m1) as (m3 & Hb3 & H3); [lia|done|].
      exists m3. split; [|done]. rewrite <- Hb3. f_equal. lia. }
    exists m'. split; [|done]. simpl. by rewrite (bind_done _ _ _ _ _ Hb).
Qed.

Lemma for_loop_inv {R} (I : nat → mem → Prop) (Q : R → mem → Prop)
    (n : nat) (lo : Z) (body : Z → M (option R)) (m : mem) :
  I 0%nat m →
  (∀ k m1, (k < n)%nat → I k m1 →
     (∃ m2, body (lo + Z.of_nat k) m1 = Done None m2 ∧ I (S k) m2) ∨
     (∃ r m2, body (lo + Z.of_nat k) m1 = Done (Some r) m2 ∧ Q r m2)) →
  (∃ m', for_loop n lo body m = Done None m' ∧ I n m') ∨
  (∃ r m', for_loop n lo body m = Done (Some r) m' ∧ Q r m').
Proof.
  revert I lo m. induction n as [|n IH]; intros I lo m H0 Hstep.
  - left. exists m. done.
  - destruct (Hstep 0%nat m) as [(m2 & Hb & H1)|(r & m2 & Hb & HQ)]; [lia|done| |].
    + rewrite Z.add_0_r in Hb.
      destruct (IH (fun k => I (S k)) (lo + 1) m2 H1) as [(m' & Hrun & Hn)|(r & m' & Hrun & HQ)].
      { intros k m1 Hk HI.
        destruct (Hstep (S k) m1) as [(m3 & Hb3 & H3)|(r & m3 & Hb3 & H3)]; [lia|done| |].
        - left. exists m3. split; [|done]. rewrite <- Hb3. f_equal. lia.
        - right. exists r, m3. split; [|done]. rewrite <- Hb3. f_equal. lia. }
      * left. exists m'. split; [|done]. simpl. by rewrite (bind_done _ _ _ _ _ Hb).
      * right. exists r, m'. split; [|done]. simpl. by rewrite (bind_done _ _ _ _ _ Hb).
    + rewrite Z.add_0_r in Hb. right. exists r, m2. split; [|done].
      simpl. by rewrite (bind_done _ _ _ _ _ Hb).
Qed.

(** *** Facts on lists of element addresses *)

Lemma split3 {A} (l : list A) (f t : nat) :
(f ≤ t)%nat → l = take f l ++ take (t - f) (drop f l) ++ drop t l.
Proof.
intros H. rewrite <- (take_drop f l) at 1. f_equal.
rewrite <- (take_drop (t - f) (drop f l)) at 1. f_equal.
rewrite drop_drop. f_equal. lia.
Qed.

Lemma valid_slot m v slots ps (i : nat) a :
valid m v slots ps → ps !! i = Some a → slots !! i = Some (Vptr a).
Proof.
intros Hv Ha. pose proof (lookup_lt_Some _ _ _ Ha) as Hlt.
rewrite <- (lookup_take_lt slots (length ps) i Hlt).
rewrite (valid_live _ _ _ _ Hv), list_lookup_fmap, Ha. done.
Qed.

Lemma valid_live_block m v slots ps a :
valid m v slots ps → a ∈ ps → is_Some (cheap m !! a).
Proof.
intros Hv Ha. destruct (valid_strings _ _ _ _ Hv a Ha) as [s Hs].
destruct (cheap m !! a); [eauto | done].
Qed.

Lemma valid_length m v slots ps :
valid m v slots ps → (length ps ≤ length slots)%nat.
Proof.
intros Hv. pose proof (valid_cap _ _ _ _ Hv). pose proof (valid_size _ _ _ _ Hv). lia.
Qed.

(** ** Removing a section *)

Section remove_section.
Context (m : mem) (v : igraph_strvector_t) (slots : list cptr) (ps : list Z).
Context (from to : Z).
Hypothesis Hv : valid m v slots ps.
Hypothesis Hrange : 0 ≤ from ≤ to ∧ to ≤ size_of v.

Let b := stor_begin v.
Let f := Z.to_nat from.
Let t := Z.to_nat to.

Lemma section_bounds : (f ≤ t ≤ length ps)%nat ∧ (length ps ≤ length slots)%nat.
Proof.
  pose proof (valid_size _ _ _ _ Hv). pose proof (valid_length _ _ _ _ Hv).
  unfold f, t. lia.
Qed.

Lemma release_loop :
  ∃ m1, for_all from to (fun i =>
          let* p := load_slot b i in
          let* z := slot_is_null p in
          if z then ret tt else IGRAPH_FREE_slot b i) m = Done tt m1
        ∧ released_inv m b f slots ps (t - f) m1.
Proof.
  destruct section_bounds as [Hft Hlen].
  unfold for_all. replace (Z.to_nat (to - from)) with (t - f)%nat by (unfold f, t; lia).
  apply for_each_inv.
  - repeat split; try done.
    + intros a Ha. rewrite take_0 in Ha. by apply elem_of_nil in Ha.
    + exists slots. split; [|split; [done|]].
      * symmetry. apply insert_id. apply (valid_block _ _ _ _ Hv).
      * intros i. case_decide; [lia|done].
  - intros k m1 Hk (Hc & Ha & Ho & Hgone & Hkept & sl & Hsl & Hlsl & Hpt).
    destruct (lookup_lt_is_Some_2 ps (f + k)) as [a Hak]; [lia|].
    assert (Hblk : aheap m1 !! b = Some sl) by (rewrite Hsl; apply lookup_insert_eq).
    assert (Hslot : sl !! Z.to_nat (from + Z.of_nat k) = Some (Vptr a)).
    { replace (Z.to_nat (from + Z.of_nat k)) with (f + k)%nat by (unfold f; lia).
      rewrite Hpt. case_decide; [lia|]. by apply (valid_slot m v slots ps). }
    assert (Hfresh : a ∉ take k (drop f ps)).
    { intros Hin. apply elem_of_take in Hin as (j & Hj & Hjk).
      rewrite lookup_drop in Hj.
      pose proof (NoDup_lookup _ _ _ _ (valid_nodup _ _ _ _ Hv) Hj Hak). lia. }
    assert (Hlive : is_Some (cheap m1 !! a)).
    { rewrite (Hkept a Hfresh). apply (valid_live_block m v slots ps); [done|].
      by apply list_elem_of_lookup_2 in Hak. }
    eexists. split.
    { rewrite (bind_done _ _ _ _ _
                 (load_slot_run b (from + Z.of_nat k) m1 sl _ Hblk ltac:(lia) Hslot)).
      simpl. unfold bind at 1, ret at 1.
      apply (free_slot_run b _ a m1 sl); [done|lia|done|done]. }
    assert (Htk : take (S k) (drop f ps) = take k (drop f ps) ++ [a]).
    { apply take_S_r. by rewrite lookup_drop. }
    repeat split; simpl; try done.
    + intros a' Hin. rewrite Htk in Hin. apply elem_of_app in Hin as [Hin|Hin].
      * destruct (decide (a' = a)) as [->|Hne]; [apply lookup_delete_eq|].
        rewrite lookup_delete_ne by done. by apply Hgone.
      * apply list_elem_of_singleton in Hin as ->. apply lookup_delete_eq.
    + intros a' Hnin. rewrite Htk in Hnin.
      rewrite lookup_delete_ne.
      * apply Hkept. intros Hin. apply Hnin, elem_of_app. by left.
      * intros ->. apply Hnin, elem_of_app. right. by apply list_elem_of_singleton.
    + eexists. split; [|split].
      * rewrite Hsl. apply insert_insert_eq.
      * by rewrite length_insert.
      * intros i. replace (Z.to_nat (from + Z.of_nat k)) with (f + k)%nat by (unfold f; lia).
        destruct (decide (i = f + k)%nat) as [->|Hne].
        -- rewrite list_lookup_insert_eq by lia. case_decide; [done|lia].
        -- rewrite list_lookup_insert_ne by done. rewrite Hpt.
           repeat case_decide; try done; lia.
Qed.

Lemma shift_loop (m1 : mem) (sl1 : list cptr) :
  cnext m1 = cnext m → anext m1 = anext m → oracle m1 = oracle m →
  aheap m1 = <[b := sl1]> (aheap m) → length sl1 = length slots →
  ∃ m2, for_all b (end_ v - to) (fun p =>
          let* q := load_slot b (slot_index v p + to) in
          store_slot b (slot_index v p + from) q) m1 = Done tt m2
        ∧ shifted_inv m b f t slots m1 sl1 (length ps - t) m2.
Proof.
  intros Hc Ha Ho Hsl1 Hl1.
  destruct section_bounds as [Hft Hlen].
  pose proof (valid_size _ _ _ _ Hv) as Hsz. unfold size_of in Hsz. fold b in Hsz.
  unfold for_all.
  replace (Z.to_nat (end_ v - to - b)) with (length ps - t)%nat by (unfold t; lia).
  apply for_each_inv.
  - repeat split; try done. exists sl1. split; [done|split; [done|]].
    intros i. case_decide; [lia|done].
  - intros k m2 Hk (Hc2 & Ha2 & Ho2 & Hch & sl & Hsl & Hlsl & Hpt).
    assert (Hblk : aheap m2 !! b = Some sl) by (rewrite Hsl; apply lookup_insert_eq).
    unfold slot_index. fold b.
    replace (b + Z.of_nat k - b + to) with (Z.of_nat (t + k)) by (unfold t; lia).
    replace (b + Z.of_nat k - b + from) with (Z.of_nat (f + k)) by (unfold f; lia).
    destruct (lookup_lt_is_Some_2 sl (t + k)) as [q Hq]; [lia|].
    eexists. split.
    { rewrite (bind_done _ _ _ _ _
                 (load_slot_run b (Z.of_nat (t + k)) m2 sl q Hblk ltac:(lia)
                    ltac:(by rewrite Nat2Z.id))).
      apply store_slot_run; [done|lia]. }
    repeat split; simpl; try done.
    eexists. split; [|split].
    + rewrite Hsl. apply insert_insert_eq.
    + by rewrite length_insert.
    + intros i. rewrite Nat2Z.id.
      destruct (decide (i = f + k)%nat) as [->|Hne].
      * rewrite list_lookup_insert_eq by lia. case_decide; [|lia].
        rewrite <- Hq, Hpt. case_decide; [lia|]. f_equal. lia.
      * rewrite list_lookup_insert_ne by done. rewrite Hpt.
        repeat case_decide; try done; lia.
Qed.

End remove_section.

Lemma valid_contents m v slots ps :
  valid m v slots ps → contents m v = (fun a => string_at m (Vptr a)) <$> ps.
Proof.
  intros Hv. unfold contents. rewrite (valid_size _ _ _ _ Hv), Nat2Z.id.
  apply list_eq. intros i. rewrite !list_lookup_fmap.
  destruct (decide (i < length ps)%nat) as [Hlt|Hge].
  - rewrite lookup_seq_lt by done. simpl.
    destruct (lookup_lt_is_Some_2 ps i Hlt) as [a Ha]. rewrite Ha. simpl.
    unfold element, slot_at. rewrite (valid_block _ _ _ _ Hv). simpl.
    by rewrite (valid_slot _ _ _ _ _ _ Hv Ha).
  - rewrite lookup_seq_ge by lia. by rewrite lookup_ge_None_2 by lia.
Qed.

(** C7: on a valid vector and [0 <= from <= to <= size],
    [igraph_strvector_remove_section] returns, releases the blocks of the
    elements [from .. to-1] and no other, moves every slot at [i >= to] to
    [i - (to - from)], and takes [to - from] off the size: the vector is
    again valid, with the elements before [from] followed by those from [to]
    on. *)
Theorem remove_section_spec (m : mem) (v : igraph_strvector_t)
    (slots : list cptr) (ps : list Z) (from to : Z) :
  valid m v slots ps → 0 ≤ from ≤ to → to ≤ size_of v →
  ∃ m' slots',
    igraph_strvector_remove_section v from to m
      = Done (set_end v (end_ v - (to - from))) m' ∧
    size_of (set_end v (end_ v - (to - from))) = size_of v - (to - from) ∧
    (∀ a, a ∈ take (Z.to_nat (to - from)) (drop (Z.to_nat from) ps) →
          cheap m' !! a = None) ∧
    (∀ a, a ∉ take (Z.to_nat (to - from)) (drop (Z.to_nat from) ps) →
          cheap m' !! a = cheap m !! a) ∧
    (∀ i, to ≤ i < size_of v →
          slot_at m' (set_end v (end_ v - (to - from))) (Z.to_nat (i - (to - from)))
          = slot_at m v (Z.to_nat i)) ∧
    valid m' (set_end v (end_ v - (to - from))) slots'
          (take (Z.to_nat from) ps ++ drop (Z.to_nat to) ps) ∧
    contents m' (set_end v (end_ v - (to - from)))
      = take (Z.to_nat from) (contents m v) ++ drop (Z.to_nat to) (contents m v).
Proof.
  intros Hv Hft Hts.
  assert (Hrange : 0 ≤ from ≤ to ∧ to ≤ size_of v) by done.
  destruct (section_bounds m v slots ps from to Hv Hrange) as [Hnat Hlen].
  set (f := Z.to_nat from) in *. set (t := Z.to_nat to) in *.
  set (b := stor_begin v).
  destruct (release_loop m v slots ps from to Hv Hrange)
    as (m1 & Hrun1 & Hc1 & Ha1 & Ho1 & Hgone & Hkept & sl1 & Hsl1 & Hl1 & Hpt1).
  destruct (shift_loop m v slots ps from to Hv Hrange m1 sl1 Hc1 Ha1 Ho1 Hsl1 Hl1)
    as (m2 & Hrun2 & Hc2 & Ha2 & Ho2 & Hch2 & sl2 & Hsl2 & Hl2 & Hpt2).
  fold f t b in Hgone, Hkept, Hpt1, Hpt2, Hsl1, Hsl2.
  replace (Z.to_nat (to - from)) with (t - f)%nat by lia.
  pose proof (valid_size _ _ _ _ Hv) as Hsz.
  pose proof (valid_cap _ _ _ _ Hv) as Hcap.
  assert (Hblk2 : aheap m2 !! b = Some sl2) by (rewrite Hsl2; apply lookup_insert_eq).
  assert (Hdisj : ∀ a, a ∈ take f ps ++ drop t ps → a ∉ take (t - f) (drop f ps)).
  { intros a Hin Hrem. pose proof (valid_nodup _ _ _ _ Hv) as Hnd.
    rewrite (split3 ps f t) in Hnd by lia.
    apply NoDup_app in Hnd as (_ & Hd1 & Hnd).
    apply NoDup_app in Hnd as (_ & Hd2 & _).
    apply elem_of_app in Hin as [Hin|Hin].
    - apply (Hd1 a Hin). apply elem_of_app. by left.
    - by apply (Hd2 a Hrem). }
  assert (Hsl2pt : ∀ i a, (take f ps ++ drop t ps) !! i = Some a → sl2 !! i = Some (Vptr a)).
  { intros i a Hi. rewrite Hpt2.
    pose proof (lookup_lt_Some _ _ _ Hi) as Hlt.
    rewrite length_app, length_take, length_drop in Hlt.
    destruct (decide (i < f)%nat) as [Hif|Hif].
    - case_decide; [lia|]. rewrite Hpt1. case_decide; [lia|].
      rewrite lookup_app_l in Hi by (rewrite length_take; lia).
      rewrite lookup_take_lt in Hi by done. by apply (valid_slot m v slots ps).
    - case_decide; [|lia]. rewrite Hpt1. case_decide; [lia|].
      rewrite lookup_app_r in Hi by (rewrite length_take; lia).
      rewrite length_take, lookup_drop in Hi.
      apply (valid_slot m v slots ps); [done|].
      rewrite <- Hi. f_equal. lia. }
  assert (Hvalid' : valid m2 (set_end v (end_ v - (to - from))) sl2
                      (take f ps ++ drop t ps)).
  { split; simpl.
    - apply (valid_base _ _ _ _ Hv).
    - done.
    - unfold size_of in *. simpl. rewrite length_app, length_take, length_drop. lia.
    - unfold size_of, capacity_of in *. simpl. lia.
    - apply list_eq. intros i. rewrite list_lookup_fmap.
      destruct ((take f ps ++ drop t ps) !! i) as [a|] eqn:Hi; simpl.
      + rewrite lookup_take_lt by (by apply lookup_lt_Some in Hi). by apply Hsl2pt.
      + apply lookup_take_ge. by apply lookup_ge_None_1 in Hi.
    - pose proof (valid_nodup _ _ _ _ Hv) as Hnd.
      rewrite (split3 ps f t) in Hnd by lia.
      apply NoDup_app in Hnd as (Hn1 & Hd1 & Hnd).
      apply NoDup_app in Hnd as (_ & Hd2 & Hn3).
      apply NoDup_app. split; [done|split; [|done]].
      intros a Ha1' Ha3. apply (Hd1 a Ha1'). apply elem_of_app. by right.
    - intros a Ha. rewrite Hch2, (Hkept a (Hdisj a Ha)).
      apply (valid_strings _ _ _ _ Hv).
      apply elem_of_app in Ha as [Ha|Ha].
      + apply elem_of_take in Ha as (i & Hi & _). by apply list_elem_of_lookup_2 in Hi.
      + apply list_elem_of_lookup in Ha as (i & Hi). rewrite lookup_drop in Hi.
        by apply list_elem_of_lookup_2 in Hi. }
  exists m2, sl2. split; [|split; [|split; [|split; [|split; [|split]]]]].
  - unfold igraph_strvector_remove_section.
    rewrite (bind_done _ _ _ _ _ (assert_base _ m (valid_base _ _ _ _ Hv))).
    rewrite (bind_done _ _ _ _ _ Hrun1).
    rewrite (bind_done _ _ _ _ _ Hrun2). done.
  - unfold size_of. simpl. lia.
  - intros a Ha. rewrite Hch2. by apply Hgone.
  - intros a Ha. rewrite Hch2. by apply Hkept.
  - intros i Hi. unfold slot_at. simpl. rewrite (valid_block _ _ _ _ Hv).
    fold b. rewrite Hblk2. simpl.
    rewrite Hpt2. case_decide; [|lia]. rewrite Hpt1. case_decide; [lia|].
    f_equal. lia.
  - done.
  - rewrite (valid_contents _ _ _ _ Hvalid'), (valid_contents _ _ _ _ Hv).
    rewrite fmap_app, <- fmap_take, <- fmap_drop. f_equal.
    + apply list_fmap_ext. intros i a Hi. unfold string_at.
      rewrite Hch2, Hkept; [done|]. apply Hdisj, elem_of_app. left.
      by apply list_elem_of_lookup_2 in Hi.
    + apply list_fmap_ext. intros i a Hi. unfold string_at.
      rewrite Hch2, Hkept; [done|]. apply Hdisj, elem_of_app. right.
      by apply list_elem_of_lookup_2 in Hi.
Qed.

(** ** Setting and reading an element *)

Lemma next_outcome_run (m : mem) : next_outcome m = Done (scheduled m) (pop_oracle m).
Proof. unfold next_outcome, scheduled, pop_oracle. destruct m as [c a cn an [|o os]]; done. Qed.

Lemma length_resize_bytes (n : nat) (buf : list byte) : length (resize_bytes n buf) = n.
Proof. unfold resize_bytes. rewrite length_app, length_take, length_replicate. lia. Qed.

Lemma write_chars_run (a : Z) (data buf : list byte) (m : mem) :
  cheap m !! a = Some buf → (length data ≤ length buf)%nat →
  write_chars (Vptr a) data m = Done tt (put_chars m a (data ++ drop (length data) buf)).
Proof.
  intros Hb Hl. unfold write_chars. rewrite Hb.
  destruct (Nat.leb_spec (length data) (length buf)); [done|lia].
Qed.

Lemma store_char_run (a i : Z) (c : byte) (buf : list byte) (m : mem) :
  cheap m !! a = Some buf → 0 ≤ i < Z.of_nat (length buf) →
  store_char (Vptr a) i c m = Done tt (put_chars m a (<[Z.to_nat i := c]> buf)).
Proof.
  intros Hb Hi. unfold store_char. rewrite Hb.
  destruct (Z.leb_spec 0 i); [|lia].
  destruct (Z.ltb_spec i (Z.of_nat (length buf))); [done|lia].
Qed.

Lemma insert_last_byte (pre rest : list byte) (c : byte) :
  length rest = 1%nat → <[length pre := c]> (pre ++ rest) = pre ++ [c].
Proof.
  intros Hr. destruct rest as [|r [|]]; try done.
  rewrite insert_app_r_alt by lia. by rewrite Nat.sub_diag.
Qed.

Lemma realloc_chars_run (a n : Z) (buf : list byte) (m : mem) :
  cheap m !! a = Some buf →
  scheduled m ≠ Fails →
  ∃ m1, realloc_chars a n m = Done (Vptr (realloc_target m a)) m1 ∧
        cheap m1 !! realloc_target m a = Some (resize_bytes (Z.to_nat n) buf) ∧
        aheap m1 = aheap m ∧ oracle m1 = tail (oracle m).
Proof.
  intros Hb Ho. unfold realloc_chars, realloc_target.
  rewrite (bind_done _ _ _ _ _ (next_outcome_run m)). simpl. rewrite Hb.
  destruct (scheduled m); [done| |]; eexists; (split; [done|]); simpl;
    by rewrite lookup_insert_eq.
Qed.

Lemma realloc_chars_fails (a n : Z) (m : mem) :
  is_Some (cheap m !! a) → scheduled m = Fails →
  realloc_chars a n m = Done Vnull (pop_oracle m).
Proof.
  intros [buf Hb] Ho. unfold realloc_chars.
  rewrite (bind_done _ _ _ _ _ (next_outcome_run m)). simpl. by rewrite Hb, Ho.
Qed.

Lemma strlen_run (value s : list byte) (m : mem) :
  cstring value = Some s → strlen value m = Done (Z.of_nat (length s)) m.
Proof. intros H. unfold strlen. by rewrite H. Qed.

Section set_element.
Context (m : mem) (v : igraph_strvector_t) (slots : list cptr) (ps : list Z) (idx : Z).
Hypothesis Hv : valid m v slots ps.
Hypothesis Hidx : 0 ≤ idx < size_of v.

Lemma set_target : ∃ a buf,
  slots !! Z.to_nat idx = Some (Vptr a) ∧ cheap m !! a = Some buf ∧
  load_slot (stor_begin v) idx m = Done (Vptr a) m.
Proof.
  pose proof (valid_size _ _ _ _ Hv) as Hsz.
  destruct (lookup_lt_is_Some_2 ps (Z.to_nat idx)) as [a Ha]; [lia|].
  pose proof (valid_slot _ _ _ _ _ _ Hv Ha) as Hs.
  destruct (valid_live_block _ _ _ _ a Hv) as [buf Hb].
  { by apply list_elem_of_lookup_2 in Ha. }
  exists a, buf. split; [done|split; [done|]].
  apply (load_slot_run _ _ _ slots); [apply (valid_block _ _ _ _ Hv)|lia|done].
Qed.

Lemma in_capacity : (idx <? 0) || (idx >=? stor_end v - stor_begin v) = false.
Proof.
  pose proof (valid_cap _ _ _ _ Hv) as Hc. unfold capacity_of in Hc.
  destruct (Z.ltb_spec idx 0); [lia|].
  rewrite Z.geb_leb. destruct (Z.leb_spec (stor_end v - stor_begin v) idx); [lia|done].
Qed.

(** Every way [igraph_strvector_set2] can go on a live element. *)
Lemma set2_run (value : list byte) (len : Z) :
  0 ≤ len ≤ Z.of_nat (length value) →
  (scheduled m = Fails ∧
   igraph_strvector_set2 v idx value len m = Done IGRAPH_ENOMEM (pop_oracle m)) ∨
  (scheduled m ≠ Fails ∧
   ∃ m' a, igraph_strvector_set2 v idx value len m = Done IGRAPH_SUCCESS m' ∧
           slot_at m' v (Z.to_nat idx) = Some (Vptr a) ∧
           cheap m' !! a = Some (take (Z.to_nat len) value ++ [x00])).
Proof.
  intros Hlen. destruct set_target as (a & buf & Hs & Hb & Hload).
  pose proof (valid_base _ _ _ _ Hv) as Hbase.
  pose proof (valid_block _ _ _ _ Hv) as Hblk.
  unfold igraph_strvector_set2. rewrite in_capacity.
  rewrite (bind_done _ _ _ _ _ (assert_base _ m Hbase)).
  rewrite (bind_done _ _ _ _ _ Hload).
  destruct (decide (scheduled m = Fails)) as [Hf|Hf].
  - left. split; [done|].
    by rewrite (bind_done _ _ _ _ _ (realloc_chars_fails a (len + 1) m ltac:(eauto) Hf)).
  - right. split; [done|].
    destruct (realloc_chars_run a (len + 1) buf m Hb Hf) as (m1 & Hre & Hc1 & Ha1 & _).
    set (a' := realloc_target m a) in *.
    set (buf1 := resize_bytes (Z.to_nat (len + 1)) buf) in *.
    assert (Hl1 : length buf1 = S (Z.to_nat len)).
    { unfold buf1. rewrite length_resize_bytes. lia. }
    rewrite (bind_done _ _ _ _ _ Hre). simpl.
    assert (Hblk1 : aheap m1 !! stor_begin v = Some slots) by (by rewrite Ha1).
    rewrite (bind_done _ _ _ _ _
               (store_slot_run (stor_begin v) idx (Vptr a') m1 slots Hblk1
                  ltac:(apply lookup_lt_Some in Hs; lia))).
    unfold memcpy.
    destruct (Z.leb_spec 0 len); [|lia].
    destruct (Z.leb_spec len (Z.of_nat (length value))); [|lia]. simpl.
    set (data := take (Z.to_nat len) value).
    assert (Hld : length data = Z.to_nat len).
    { unfold data. rewrite length_take. lia. }
    step ltac:(eapply write_chars_run; [apply Hc1|lia]).
    step ltac:(eapply store_char_run;
               [apply lookup_insert_eq|rewrite length_app, length_drop; lia]).
    eexists _, a'. split; [done|]. split.
    + unfold slot_at. simpl. rewrite lookup_insert_eq. simpl.
      apply list_lookup_insert_eq. apply lookup_lt_Some in Hs. lia.
    + simpl. rewrite lookup_insert_eq. f_equal.
      rewrite <- Hld. apply insert_last_byte. rewrite length_drop. lia.
Qed.

(** Every way [igraph_strvector_set] can go on a live element. *)
Lemma set_run (value s : list byte) :
  cstring value = Some s →
  (scheduled m = Fails ∧
   igraph_strvector_set v idx value m = Done IGRAPH_ENOMEM (pop_oracle m)) ∨
  (scheduled m ≠ Fails ∧
   ∃ m' a, igraph_strvector_set v idx value m = Done IGRAPH_SUCCESS m' ∧
           slot_at m' v (Z.to_nat idx) = Some (Vptr a) ∧
           cheap m' !! a = Some (s ++ [x00])).
Proof.
  intros Hcs. destruct set_target as (a & buf & Hs & Hb & Hload).
  pose proof (valid_base _ _ _ _ Hv) as Hbase.
  pose proof (valid_block _ _ _ _ Hv) as Hblk.
  unfold igraph_strvector_set.
  step ltac:(by apply assert_base).
  step ltac:(by apply strlen_run).
  step ltac:(apply Hload).
  destruct (decide (scheduled m = Fails)) as [Hf|Hf].
  - left. split; [done|].
    by rewrite (bind_done _ _ _ _ _
                  (realloc_chars_fails a (Z.of_nat (length s) + 1) m ltac:(eauto) Hf)).
  - right. split; [done|].
    destruct (realloc_chars_run a (Z.of_nat (length s) + 1) buf m Hb Hf)
      as (m1 & Hre & Hc1 & Ha1 & _).
    set (a' := realloc_target m a) in *.
    set (buf1 := resize_bytes (Z.to_nat (Z.of_nat (length s) + 1)) buf) in *.
    assert (Hl1 : length buf1 = S (length s)).
    { unfold buf1. rewrite length_resize_bytes. lia. }
    rewrite (bind_done _ _ _ _ _ Hre). simpl.
    assert (Hblk1 : aheap m1 !! stor_begin v = Some slots) by (by rewrite Ha1).
    rewrite (bind_done _ _ _ _ _
               (store_slot_run (stor_begin v) idx (Vptr a') m1 slots Hblk1
                  ltac:(apply lookup_lt_Some in Hs; lia))).
    unfold strcpy. rewrite Hcs.
    step ltac:(eapply write_chars_run; [apply Hc1|rewrite length_app; simpl; lia]).
    eexists _, a'. split; [done|]. split.
    + unfold slot_at. simpl. rewrite lookup_insert_eq. simpl.
      apply list_lookup_insert_eq. apply lookup_lt_Some in Hs. lia.
    + simpl. rewrite lookup_insert_eq. f_equal.
      rewrite drop_ge; [by rewrite app_nil_r|]. rewrite length_app. simpl. lia.
Qed.

End set_element.

Lemma get_run (m : mem) (v : igraph_strvector_t) (i : nat) (a : Z) :
  stor_begin v ≠ 0 → slot_at m v i = Some (Vptr a) →
  igraph_strvector_get v (Z.of_nat i) m = Done (Vptr a) m.
Proof.
  intros Hb Hs. unfold slot_at in Hs.
  destruct (aheap m !! stor_begin v) as [sl|] eqn:Hblk; [|done]. simpl in Hs.
  unfold igraph_strvector_get.
  rewrite (bind_done _ _ _ _ _ (assert_base _ m Hb)).
  rewrite (bind_done _ _ _ _ _
             (load_slot_run (stor_begin v) (Z.of_nat i) m sl (Vptr a) Hblk ltac:(lia)
                ltac:(by rewrite Nat2Z.id))).
  done.
Qed.

Lemma cstring_app (s : list byte) (rest : list byte) :
  Forall (fun c => c ≠ x00) s → cstring (s ++ x00 :: rest) = Some s.
Proof.
  induction 1 as [|c s Hc _ IH]; simpl; [done|].
  destruct (Byte.eqb c x00) eqn:He.
  - apply Byte.byte_dec_bl in He. done.
  - by rewrite IH.
Qed.


Lemma cstring_nonzero (buf s : list byte) :
  cstring buf = Some s → Forall (fun c => c ≠ x00) s.
Proof.
  revert s. induction buf as [|c buf IH]; intros s; simpl; [done|].
  destruct (Byte.eqb c x00) eqn:He.
  - intros [= <-]. constructor.
  - destruct (cstring buf) as [s'|]; [|done]. intros [= <-]. constructor; [|by apply IH].
    intros ->. done.
Qed.

Lemma cstring_terminated (buf s : list byte) :
  cstring buf = Some s → cstring (s ++ [x00]) = Some s.
Proof. intros H. apply cstring_app. by apply (cstring_nonzero buf). Qed.

Lemma read_chars_run (a : Z) (buf : list byte) (m : mem) :
  cheap m !! a = Some buf → read_chars (Vptr a) m = Done buf m.
Proof. intros H. unfold read_chars. by rewrite H. Qed.

Lemma check_valid_sound m v slots ps :
  check_valid m v slots ps = true → valid m v slots ps.
Proof.
  unfold check_valid. rewrite !andb_true_iff.
  intros [[[[[[[H1 H2] H3] H4] H5] H6] H7] H8].
  apply bool_decide_eq_true in H2, H6, H7.
  split; try done.
  - intros Hb. rewrite Hb in H1. done.
  - lia.
  - lia.
  - intros a Ha. rewrite forallb_forall in H8.
    apply list_elem_of_In in Ha. apply H8 in Ha. by apply bool_decide_eq_true in Ha.
Qed.

Lemma bind_inv {A B} (c : M A) (k : A → M B) m b m' :
  bind c k m = Done b m' → ∃ a m1, c m = Done a m1 ∧ k a m1 = Done b m'.
Proof. unfold bind. destruct (c m) as [a m1|f]; [eauto|done]. Qed.

(** [igraph_strvector_set] has no index check: whatever the index, it never
    answers [IGRAPH_EINVAL]. *)
Lemma set_never_einval v idx value m m' :
  igraph_strvector_set v idx value m ≠ Done IGRAPH_EINVAL m'.
Proof.
  unfold igraph_strvector_set. intros H.
  apply bind_inv in H as (_ & m1 & _ & H).
  apply bind_inv in H as (len & m2 & _ & H).
  apply bind_inv in H as (p & m3 & _ & H).
  destruct p as [| |a]; [done| |].
  - apply bind_inv in H as (q & m4 & _ & H).
    apply bind_inv in H as (_ & m5 & _ & H).
    destruct (is_null q); [done|].
    apply bind_inv in H as (_ & m6 & _ & H). done.
  - apply bind_inv in H as (q & m4 & _ & H).
    destruct (is_null q); [done|].
    apply bind_inv in H as (_ & m5 & _ & H).
    apply bind_inv in H as (_ & m6 & _ & H). done.
Qed.

(** ** Copying an interval *)

Lemma calloc_chars_run (n : Z) (m : mem) :
  scheduled m ≠ Fails →
  calloc_chars n m = Done (Vptr (cnext m)) (alloc_chars m (replicate (Z.to_nat n) x00)).
Proof.
  intros Ho. unfold calloc_chars.
  step ltac:(apply next_outcome_run).
  destruct (scheduled m); done.
Qed.

Lemma calloc_chars_fails (n : Z) (m : mem) :
  scheduled m = Fails → calloc_chars n m = Done Vnull (pop_oracle m).
Proof.
  intros Ho. unfold calloc_chars.
  step ltac:(apply next_outcome_run). by rewrite Ho.
Qed.

Lemma granted_scheduled (n k : nat) (m m2 : mem) :
  granted n m → (k < n)%nat → oracle m2 = drop k (oracle m) → scheduled m2 ≠ Fails.
Proof.
  unfold granted, scheduled. intros Hg Hk ->.
  destruct (drop k (oracle m)) as [|o os] eqn:Hd; [done|].
  assert (Ho : oracle m !! k = Some o).
  { rewrite <- (Nat.add_0_r k), <- lookup_drop, Hd. done. }
  rewrite Forall_lookup in Hg. apply (Hg k). by rewrite lookup_take_lt.
Qed.

Lemma tail_drop {A} (l : list A) (k : nat) : tail (drop k l) = drop (S k) l.
Proof. revert l. induction k as [|k IH]; intros [|x l]; simpl; done. Qed.

Lemma cstring_prefix (buf s : list byte) :
  cstring buf = Some s →
  take (S (length s)) buf = s ++ [x00] ∧ (S (length s) ≤ length buf)%nat.
Proof.
  revert s. induction buf as [|c buf IH]; intros s; simpl; [done|].
  destruct (Byte.eqb c x00) eqn:He.
  - intros [= <-]. apply Byte.byte_dec_bl in He as ->. simpl. rewrite take_0. split; [done|lia].
  - destruct (cstring buf) as [s'|]; [|done]. intros [= <-].
    destruct (IH s' eq_refl) as [Ht Hl]. simpl. rewrite Ht. split; [done|lia].
Qed.

Lemma live_below_cnext (m : mem) (a : Z) :
  mem_ok m → is_Some (cheap m !! a) → a < cnext m.
Proof.
  intros Hok [buf Hb]. destruct (Z.lt_ge_cases a (cnext m)) as [|Hge]; [done|].
  rewrite (ok_cheap _ Hok a Hge) in Hb. done.
Qed.

Section move_interval.
Context (m : mem) (v : igraph_strvector_t) (slots : list cptr) (ps : list Z).
Context (begin end' to : Z).
Hypothesis Hok : mem_ok m.
Hypothesis Hv : valid m v slots ps.
Hypothesis Hsrc : 0 ≤ begin ≤ end' ∧ end' ≤ size_of v.
Hypothesis Hdst : 0 ≤ to ∧ to + (end' - begin) ≤ size_of v.
Hypothesis Hdisj : end' ≤ to ∨ to + (end' - begin) ≤ begin.
Hypothesis Hgr : granted (Z.to_nat (end' - begin)) m.

Lemma copy_loop (m1 : mem) (sl1 : list cptr) :
  released_inv m (stor_begin v) (Z.to_nat to) slots ps (Z.to_nat (end' - begin)) m1 →
  aheap m1 = <[stor_begin v := sl1]> (aheap m) → length sl1 = length slots →
  (∀ i, sl1 !! i = if decide (Z.to_nat to ≤ i < Z.to_nat to + Z.to_nat (end' - begin))%nat
                   then Some Vnull else slots !! i) →
  ∃ m2, for_all 0 (end' - begin) (fun i =>
          let* p := load_slot (stor_begin v) (begin + i) in
          let* z := slot_is_null p in
          if z then ret tt
          else
            let* src := read_chars p in
            let* n := strlen src in
            let len := n + 1 in
            let* q := calloc_chars len in
            do store_slot (stor_begin v) (to + i) q then
            let* dst := load_slot (stor_begin v) (to + i) in
            let* p' := load_slot (stor_begin v) (begin + i) in
            let* src' := read_chars p' in
            memcpy dst src' len) m1 = Done tt m2
        ∧ copied_inv m (stor_begin v) (Z.to_nat begin) (Z.to_nat to) ps m1 sl1
            (Z.to_nat (end' - begin)) m2.
Proof.
  intros (Hc1 & Ha1 & Ho1 & Hgone & Hkept & _) Hsl1 Hl1 Hpt1.
  pose proof (valid_size _ _ _ _ Hv) as Hsz.
  pose proof (valid_length _ _ _ _ Hv) as Hlen.
  set (b := stor_begin v) in *. set (bg := Z.to_nat begin) in *.
  set (t := Z.to_nat to) in *. set (n := Z.to_nat (end' - begin)) in *.
  unfold for_all. rewrite Z.sub_0_r. fold n.
  apply for_each_inv.
  - split; [simpl; lia|]. split; [done|]. split; [done|]. split; [done|].
    split; [intros j a Hj; lia|].
    exists sl1. split; [done|split; [done|]]. intros i. case_decide; [lia|done].
  - intros k m2 Hk (Hc2 & Ha2 & Ho2 & Hold & Hnew & sl & Hsl & Hlsl & Hpt).
    rewrite Z.add_0_l.
    destruct (lookup_lt_is_Some_2 ps (bg + k)) as [a Hak]; [lia|].
    assert (Hain : a ∈ ps) by (by apply list_elem_of_lookup_2 in Hak).
    destruct (valid_strings _ _ _ _ Hv a Hain) as [s Hs].
    destruct (cheap m !! a) as [buf|] eqn:Hbuf; [|done]. simpl in Hs.
    destruct (cstring_prefix buf s Hs) as [Hpre Hsl'].
    assert (Halt : a < cnext m) by (apply live_below_cnext; [done|by rewrite Hbuf]).
    assert (Hanot : a ∉ take n (drop t ps)).
    { intros Hin. apply elem_of_take in Hin as (j & Hj & Hjn).
      rewrite lookup_drop in Hj.
      pose proof (NoDup_lookup _ _ _ _ (valid_nodup _ _ _ _ Hv) Hj Hak). lia. }
    assert (Hbuf2 : cheap m2 !! a = Some buf).
    { rewrite Hold by done. rewrite Hkept by done. done. }
    assert (Hblk : aheap m2 !! b = Some sl) by (rewrite Hsl; apply lookup_insert_eq).
    assert (Hsrcslot : sl !! (bg + k)%nat = Some (Vptr a)).
    { rewrite Hpt. case_decide; [lia|]. rewrite Hpt1. case_decide; [lia|].
      by apply (valid_slot m v slots ps). }
    assert (Hsch : scheduled m2 ≠ Fails) by (by apply (granted_scheduled n k m)).
    set (q := cnext m2).
    set (zeros := replicate (Z.to_nat (Z.of_nat (length s) + 1)) x00).
    set (sl' := <[(t + k)%nat := Vptr q]> sl).
    assert (Hsrcslot' : sl' !! (bg + k)%nat = Some (Vptr a)).
    { unfold sl'. rewrite list_lookup_insert_ne by lia. done. }
    eexists. split.
    { step ltac:(eapply (load_slot_run b _ m2 sl); [done|lia|];
                 replace (Z.to_nat (begin + Z.of_nat k)) with (bg + k)%nat by lia; done).
      simpl. rewrite bind_ret.
      step ltac:(by apply read_chars_run).
      step ltac:(by apply strlen_run).
      step ltac:(by apply calloc_chars_run).
      step ltac:(eapply (store_slot_run b _ _ _ sl); [done|lia]).
      replace (Z.to_nat (to + Z.of_nat k)) with (t + k)%nat by lia. fold q sl' zeros.
      step ltac:(eapply (load_slot_run b _ _ sl'); [apply lookup_insert_eq|lia|];
                 replace (Z.to_nat (to + Z.of_nat k)) with (t + k)%nat by lia;
                 apply list_lookup_insert_eq; lia).
      step ltac:(eapply (load_slot_run b _ _ sl'); [apply lookup_insert_eq|lia|];
                 replace (Z.to_nat (begin + Z.of_nat k)) with (bg + k)%nat by lia; done).
      step ltac:(apply read_chars_run; simpl; rewrite lookup_insert_ne by (unfold q; lia);
                 done).
      unfold memcpy.
      destruct (Z.leb_spec 0 (Z.of_nat (length s) + 1)); [|lia].
      destruct (Z.leb_spec (Z.of_nat (length s) + 1) (Z.of_nat (length buf))); [|lia].
      simpl.
      eapply write_chars_run; [simpl; apply lookup_insert_eq|].
      unfold zeros. rewrite length_take, length_replicate. lia. }
    replace (Z.to_nat (Z.of_nat (length s) + 1)) with (S (length s)) by lia.
    rewrite Hpre.
    replace (drop (length (s ++ [x00])) zeros) with (@nil byte).
    2:{ symmetry. apply drop_ge. unfold zeros. rewrite length_replicate, length_app. simpl. lia. }
    rewrite app_nil_r.
    repeat split; simpl.
    + lia.
    + done.
    + rewrite Ho2. apply tail_drop.
    + intros a' Ha'. rewrite !lookup_insert_ne by (unfold q; lia). by apply Hold.
    + intros j a' Hj Haj. unfold string_at. simpl.
      destruct (decide (j = k)) as [->|Hne].
      * replace (cnext m + Z.of_nat k) with q by (unfold q; lia).
        rewrite lookup_insert_eq. simpl.
        rewrite Hak in Haj. injection Haj as <-.
        rewrite Hbuf. simpl. rewrite Hs. by apply (cstring_terminated buf).
      * rewrite !lookup_insert_ne by (unfold q; lia).
        apply (Hnew j a'); [lia|done].
    + exists sl'. split; [|split].
      * rewrite Hsl. by rewrite !insert_insert_eq.
      * unfold sl'. by rewrite length_insert.
      * intros i. unfold sl'.
        destruct (decide (i = t + k)%nat) as [->|Hne].
        -- rewrite list_lookup_insert_eq by lia. case_decide; [|lia].
           do 2 f_equal. unfold q. lia.
        -- rewrite list_lookup_insert_ne by done. rewrite Hpt.
           repeat case_decide; try done; lia.
Qed.

End move_interval.

(** ** Deleting by a mapping *)

Lemma vector_int_get_run (index : list Z) (i x : Z) (m : mem) :
  0 ≤ i → index !! Z.to_nat i = Some x → vector_int_get index i m = Done x m.
Proof.
  intros Hi Hx. unfold vector_int_get.
  destruct (Z.leb_spec 0 i); [|lia]. by rewrite Hx.
Qed.

Lemma realloc_slots_fails (b n : Z) (m : mem) :
  is_Some (aheap m !! b) → scheduled m = Fails →
  realloc_slots b n m = Done 0 (pop_oracle m).
Proof.
  intros [sl Hb] Ho. unfold realloc_slots.
  step ltac:(apply next_outcome_run). simpl. by rewrite Hb, Ho.
Qed.

Lemma realloc_slots_in_place (b n : Z) (sl : list cptr) (m : mem) :
  aheap m !! b = Some sl → scheduled m = InPlace →
  realloc_slots b n m
  = Done b (put_slots (pop_oracle m) b (resize_slots (Z.to_nat n) sl)).
Proof.
  intros Hb Ho. unfold realloc_slots.
  step ltac:(apply next_outcome_run). simpl. by rewrite Hb, Ho.
Qed.

Lemma realloc_slots_moves (b n : Z) (sl : list cptr) (m : mem) :
  aheap m !! b = Some sl → scheduled m = Moves →
  realloc_slots b n m
  = Done (anext m)
         (mkMem (cheap m) (<[anext m := resize_slots (Z.to_nat n) sl]> (delete b (aheap m)))
                (cnext m) (anext m + Z.max n 1) (tail (oracle m))).
Proof.
  intros Hb Ho. unfold realloc_slots.
  step ltac:(apply next_outcome_run). simpl. by rewrite Hb, Ho.
Qed.

Lemma lookup_resize_slots (n : nat) (sl : list cptr) (i : nat) :
  (i < n)%nat → (i < length sl)%nat → resize_slots n sl !! i = sl !! i.
Proof.
  intros Hn Hl. unfold resize_slots.
  rewrite lookup_app_l by (rewrite length_take; lia). by apply lookup_take_lt.
Qed.

Section permdelete.
Context (m : mem) (v : igraph_strvector_t) (slots : list cptr) (ps : list Z).
Context (index : list Z) (bound : Z).
Hypothesis Hv : valid m v slots ps.
Hypothesis Hix : compacting index (length ps) bound.

Lemma permute_loop :
  ∃ m1, for_all 0 (size_of v) (fun i =>
          let* x := vector_int_get index i in
          if negb (x =? 0) then
            let* p := load_slot (stor_begin v) i in
            store_slot (stor_begin v) (x - 1) p
          else IGRAPH_FREE_slot (stor_begin v) i) m = Done tt m1
        ∧ permuted_inv m (stor_begin v) slots ps index (length ps) m1.
Proof.
  pose proof (valid_size _ _ _ _ Hv) as Hsz.
  pose proof (valid_length _ _ _ _ Hv) as Hlen.
  destruct Hix as [Hil Hback Hinj].
  set (b := stor_begin v) in *.
  unfold for_all. rewrite Z.sub_0_r, Hsz, Nat2Z.id.
  apply for_each_inv.
  - split; [done|]. split; [done|]. split; [done|].
    split; [intros a (i & Hi & _); lia|]. split; [done|].
    exists slots. split; [|split; [done|split; [done|]]].
    + symmetry. apply insert_id. apply (valid_block _ _ _ _ Hv).
    + intros i p a Hi. lia.
  - intros k m1 Hk (Hc & Ha & Ho & Hgone & Hkept & sl & Hsl & Hlsl & Hrest & Hmoved).
    rewrite Z.add_0_l.
    destruct (lookup_lt_is_Some_2 ps k) as [a Hak]; [lia|].
    destruct (lookup_lt_is_Some_2 index k) as [x Hx]; [lia|].
    assert (Hblk : aheap m1 !! b = Some sl) by (rewrite Hsl; apply lookup_insert_eq).
    assert (Hslot : sl !! k = Some (Vptr a)).
    { rewrite Hrest by lia. by apply (valid_slot m v slots ps). }
    destruct (decide (x = 0)) as [->|Hx0].
    + (* the element is deleted *)
      assert (Hnot : ¬ released_by index ps k a).
      { intros (i & Hi & _ & Hia).
        pose proof (NoDup_lookup _ _ _ _ (valid_nodup _ _ _ _ Hv) Hia Hak). lia. }
      assert (Hlive : is_Some (cheap m1 !! a)).
      { rewrite (Hkept a Hnot). apply (valid_live_block m v slots ps); [done|].
        by apply list_elem_of_lookup_2 in Hak. }
      eexists. split.
      { step ltac:(apply vector_int_get_run; [lia|by rewrite Nat2Z.id]). simpl.
        apply (free_slot_run b _ a m1 sl); [done|lia|by rewrite Nat2Z.id|done]. }
      rewrite Nat2Z.id.
      split; [done|]. split; [done|]. split; [done|]. split; [|split].
      * intros a' (i & Hi & Hi0 & Hia). simpl.
        destruct (decide (a' = a)) as [->|Hne]; [apply lookup_delete_eq|].
        rewrite lookup_delete_ne by done. apply Hgone. exists i.
        split; [|done]. destruct (decide (i = k)) as [->|]; [|lia]. congruence.
      * intros a' Hnot'. simpl. rewrite lookup_delete_ne.
        -- apply Hkept. intros (i & Hi & Hi0 & Hia). apply Hnot'. exists i. split; [lia|done].
        -- intros ->. apply Hnot'. exists k. split; [lia|done].
      * exists (<[k := Vnull]> sl). simpl. split; [|split; [|split]].
        -- rewrite Hsl. apply insert_insert_eq.
        -- by rewrite length_insert.
        -- intros i Hi. rewrite list_lookup_insert_ne by lia. apply Hrest. lia.
        -- intros i p a' Hi Hip Hp Hia.
           destruct (Hback i p Hip Hp) as [Hp1 _].
           destruct (decide (i = k)) as [->|Hne]; [congruence|].
           rewrite list_lookup_insert_ne by lia.
           apply (Hmoved i p a'); [lia|done|done|done].
    + (* the element moves to slot [x - 1] *)
      destruct (Hback k x Hx Hx0) as [Hx1 _].
      eexists. split.
      { step ltac:(apply vector_int_get_run; [lia|by rewrite Nat2Z.id]).
        destruct (Z.eqb_spec x 0) as [|_]; [done|]. simpl.
        step ltac:(apply (load_slot_run b _ m1 sl); [done|lia|by rewrite Nat2Z.id]).
        apply (store_slot_run b (x - 1) (Vptr a) m1 sl); [done|lia]. }
      split; [done|]. split; [done|]. split; [done|]. split; [|split].
      * intros a' (i & Hi & Hi0 & Hia). simpl. apply Hgone. exists i.
        split; [|done]. destruct (decide (i = k)) as [->|]; [|lia]. congruence.
      * intros a' Hnot'. simpl. apply Hkept.
        intros (i & Hi & Hi0 & Hia). apply Hnot'. exists i. split; [lia|done].
      * exists (<[Z.to_nat (x - 1) := Vptr a]> sl). simpl. split; [|split; [|split]].
        -- rewrite Hsl. apply insert_insert_eq.
        -- by rewrite length_insert.
        -- intros i Hi. rewrite list_lookup_insert_ne by lia. apply Hrest. lia.
        -- intros i p a' Hi Hip Hp Hia.
           destruct (Hback i p Hip Hp) as [Hp1 _].
           destruct (decide (i = k)) as [->|Hne].
           ++ assert (p = x) by congruence. assert (a' = a) by congruence. subst.
              apply list_lookup_insert_eq. lia.
           ++ rewrite list_lookup_insert_ne.
              ** apply (Hmoved i p a'); [lia|done|done|done].
              ** intros Heq. assert (x = p) by lia. subst.
                 apply Hne. by apply (Hinj i k p).
Qed.

End permdelete.

(** ** Resizing *)

Lemma for_each_idle (n : nat) (lo : Z) (body : Z → M unit) (m : mem) :
  (∀ i, body i m = Done tt m) → for_each n lo body m = Done tt m.
Proof.
  intros H. revert lo. induction n as [|n IH]; intros lo; simpl; [done|].
  step ltac:(apply H). apply IH.
Qed.

Lemma live_below_anext (m : mem) (b : Z) :
  mem_ok m → is_Some (aheap m !! b) → b < anext m.
Proof.
  intros Hok [sl Hb]. destruct (Z.lt_ge_cases b (anext m)) as [|Hge]; [done|].
  rewrite (ok_aheap _ Hok b Hge) in Hb. done.
Qed.

Lemma realloc_slots_granted (b n : Z) (sl : list cptr) (m : mem) :
  mem_ok m → b ≠ 0 → aheap m !! b = Some sl → scheduled m ≠ Fails →
  ∃ tmp m0, realloc_slots b n m = Done tmp m0 ∧ tmp ≠ 0 ∧
    (tmp = b ∨ anext m ≤ tmp) ∧
    aheap m0 !! tmp = Some (resize_slots (Z.to_nat n) sl) ∧
    cheap m0 = cheap m ∧ cnext m0 = cnext m ∧ oracle m0 = tail (oracle m) ∧
    0 < anext m0 ∧ anext m ≤ anext m0 ∧
    (∀ b', b' ≠ b → b' < anext m → aheap m0 !! b' = aheap m !! b') ∧
    (∀ b', anext m0 ≤ b' → aheap m0 !! b' = None).
Proof.
  intros Hok Hb0 Hb Hs.
  pose proof (ok_anext _ Hok) as Hpos.
  pose proof (live_below_anext m b Hok ltac:(eauto)) as Hlt.
  destruct (scheduled m) eqn:Ho; [done| |].
  - exists b. eexists. split; [by apply realloc_slots_in_place|]. simpl.
    split; [done|]. split; [by left|]. split; [apply lookup_insert_eq|].
    repeat split; try done; try lia.
    + intros b' Hne _. by rewrite lookup_insert_ne.
    + intros b' Hge. rewrite lookup_insert_ne by lia. by apply (ok_aheap _ Hok).
  - exists (anext m). eexists. split; [by apply realloc_slots_moves|]. simpl.
    split; [lia|]. split; [right; lia|]. split; [apply lookup_insert_eq|].
    repeat split; try done; try lia.
    + intros b' Hne Hlt'. rewrite lookup_insert_ne by lia. by rewrite lookup_delete_ne.
    + intros b' Hge. rewrite lookup_insert_ne by lia.
      destruct (decide (b = b')) as [->|Hne]; [apply lookup_delete_eq|].
      rewrite lookup_delete_ne by done. apply (ok_aheap _ Hok). lia.
Qed.

Lemma grow_loop (m0 : mem) (tmp : Z) (old toadd : nat) (slots0 : list cptr) :
  aheap m0 !! tmp = Some slots0 → (old + toadd ≤ length slots0)%nat →
  (∀ a, cnext m0 ≤ a → cheap m0 !! a = None) →
  (∃ m2, for_range 0 (Z.of_nat toadd) (fun i =>
           let* p := calloc_chars 1 in
           do store_slot tmp (Z.of_nat old + i) p then
           if is_null p then
             do for_all 0 i (fun j =>
                  let* q := load_slot tmp (Z.of_nat old + i) in
                  let* z := slot_is_null q in
                  if z then ret tt else IGRAPH_FREE_slot tmp (Z.of_nat old + i)) then
             ret (Some IGRAPH_ENOMEM)
           else
             do store_char p 0 x00 then
             ret None) m0 = Done None m2
         ∧ grown_inv m0 tmp old slots0 toadd m2) ∨
  (∃ e m2, for_range 0 (Z.of_nat toadd) (fun i =>
           let* p := calloc_chars 1 in
           do store_slot tmp (Z.of_nat old + i) p then
           if is_null p then
             do for_all 0 i (fun j =>
                  let* q := load_slot tmp (Z.of_nat old + i) in
                  let* z := slot_is_null q in
                  if z then ret tt else IGRAPH_FREE_slot tmp (Z.of_nat old + i)) then
             ret (Some IGRAPH_ENOMEM)
           else
             do store_char p 0 x00 then
             ret None) m0 = Done (Some e) m2
         ∧ grow_failed m0 tmp toadd e m2).
Proof.
  intros Hblk0 Hlen Hfresh0.
  unfold for_range. rewrite Z.sub_0_r, Nat2Z.id.
  apply for_loop_inv.
  - split; [simpl; lia|]. split; [done|]. split; [done|]. split; [done|].
    split; [intros j Hj; lia|]. split; [simpl; intros a Ha; apply Hfresh0; lia|].
    exists slots0. split; [|split; [done|]].
    + symmetry. by apply insert_id.
    + intros i. case_decide; [lia|done].
  - intros k m2 Hk (Hc & Ha & Ho & Hold & Hnew & Hfresh & sl & Hsl & Hlsl & Hpt).
    rewrite Z.add_0_l.
    assert (Hblk : aheap m2 !! tmp = Some sl) by (rewrite Hsl; apply lookup_insert_eq).
    destruct (decide (scheduled m2 = Fails)) as [Hf|Hf].
    + (* the allocation of slot [old + k] is refused *)
      right. exists IGRAPH_ENOMEM.
      set (sl' := <[(old + k)%nat := Vnull]> sl).
      exists (put_slots (pop_oracle m2) tmp sl'). split.
      { step ltac:(by apply calloc_chars_fails).
        step ltac:(eapply (store_slot_run tmp _ _ _ sl); [done|lia]).
        replace (Z.to_nat (Z.of_nat old + Z.of_nat k)) with (old + k)%nat by lia.
        fold sl'. simpl.
        step ltac:(apply for_each_idle; intros i;
                   step ltac:(eapply (load_slot_run tmp _ _ sl');
                              [apply lookup_insert_eq|lia|];
                              replace (Z.to_nat (Z.of_nat old + Z.of_nat k))
                                with (old + k)%nat by lia;
                              apply list_lookup_insert_eq; lia);
                   done).
        done. }
      unfold grow_failed. simpl. split; [done|]. split.
      { intros Hg. by apply (granted_scheduled toadd k m0 m2 Hg Hk Ho). }
      split; [lia|]. split; [done|]. split; [done|].
      intros b' Hne. rewrite lookup_insert_ne by done.
      rewrite Hsl. by rewrite lookup_insert_ne.
    + (* it is granted *)
      left. set (q := cnext m2). set (sl' := <[(old + k)%nat := Vptr q]> sl).
      eexists. split.
      { step ltac:(by apply calloc_chars_run).
        step ltac:(eapply (store_slot_run tmp _ _ _ sl); [done|lia]).
        replace (Z.to_nat (Z.of_nat old + Z.of_nat k)) with (old + k)%nat by lia.
        fold q sl'. simpl.
        step ltac:(eapply store_char_run; [simpl; apply lookup_insert_eq|simpl; lia]).
        done. }
      unfold grown_inv. simpl.
      split; [lia|]. split; [done|]. split; [rewrite Ho; apply tail_drop|].
      split; [|split; [|split]].
      * intros a Ha'. rewrite !lookup_insert_ne by (unfold q; lia). by apply Hold.
      * intros j Hj. destruct (decide (j = k)) as [->|Hne].
        -- replace (cnext m0 + Z.of_nat k) with q by (unfold q; lia).
           by rewrite lookup_insert_eq.
        -- rewrite !lookup_insert_ne by (unfold q; lia). apply Hnew. lia.
      * intros a Ha'. rewrite !lookup_insert_ne by (unfold q; lia). apply Hfresh. lia.
      * exists sl'. split; [|split].
        -- rewrite Hsl. by rewrite insert_insert_eq.
        -- unfold sl'. by rewrite length_insert.
        -- intros i. unfold sl'. destruct (decide (i = old + k)%nat) as [->|Hne].
           ++ rewrite list_lookup_insert_eq by lia. case_decide; [|lia].
              do 2 f_equal. unfold q. lia.
           ++ rewrite list_lookup_insert_ne by done. rewrite Hpt.
              repeat case_decide; try done; lia.
Qed.

Lemma drop_tail {A} (l : list A) (k : nat) : drop k (tail l) = drop (S k) l.
Proof. destruct l; simpl; [by destruct k|done]. Qed.

Lemma granted_tail (n : nat) (m m0 : mem) :
  granted (S n) m → oracle m0 = tail (oracle m) → granted n m0.
Proof.
  unfold granted. intros Hg ->. destruct (oracle m) as [|o os]; simpl in *.
  - by rewrite take_nil.
  - by apply Forall_cons in Hg as [_ Hg].
Qed.

Lemma granted_first (n : nat) (m : mem) : granted (S n) m → scheduled m ≠ Fails.
Proof. intros Hg. apply (granted_scheduled (S n) 0 m m Hg); [lia|done]. Qed.

Lemma fresh_addresses_lookup (c : Z) (n i : nat) :
  ((fun j : nat => c + Z.of_nat j) <$> seq 0 n) !! i
  = if decide (i < n)%nat then Some (c + Z.of_nat i) else None.
Proof.
  rewrite list_lookup_fmap. case_decide.
  - by rewrite lookup_seq_lt.
  - by rewrite lookup_seq_ge by lia.
Qed.

Lemma fresh_addresses_elem (c : Z) (n : nat) (q : Z) :
  q ∈ (fun j : nat => c + Z.of_nat j) <$> seq 0 n ↔
  ∃ j, (j < n)%nat ∧ q = c + Z.of_nat j.
Proof.
  rewrite list_elem_of_fmap. split.
  - intros (j & -> & Hj). apply elem_of_seq in Hj. exists j. split; [lia|done].
  - intros (j & Hj & ->). exists j. split; [done|]. apply elem_of_seq. lia.
Qed.

Lemma fresh_addresses_nodup (c : Z) (n : nat) :
  NoDup ((fun j : nat => c + Z.of_nat j) <$> seq 0 n).
Proof.
  apply NoDup_fmap_2; [|apply NoDup_seq]. intros i j Hij. lia.
Qed.

Section resize_grow.
Context (m : mem) (v : igraph_strvector_t) (slots : list cptr) (ps : list Z).
Context (newsize : Z).
Hypothesis Hok : mem_ok m.
Hypothesis Hv : valid m v slots ps.
Hypothesis Hnew : size_of v < newsize.

Lemma resize_grow :
  ∃ e v1 m1, igraph_strvector_resize v newsize m = Done (e, v1) m1 ∧
    frame m m1 (stor_begin v) ∧
    (stor_begin v1 = stor_begin v ∨ anext m ≤ stor_begin v1) ∧
    (granted (S (Z.to_nat (newsize - size_of v))) m → e = IGRAPH_SUCCESS) ∧
    (e = IGRAPH_SUCCESS → ∃ qs,
       valid m1 v1 (Vptr <$> (ps ++ qs)) (ps ++ qs) ∧ size_of v1 = newsize ∧
       mem_ok m1 ∧
       (∀ q, q ∈ qs → cnext m ≤ q ∧ cheap m1 !! q = Some [x00]) ∧
       oracle m1 = drop (S (Z.to_nat (newsize - size_of v))) (oracle m)).
Proof.
  pose proof (valid_size _ _ _ _ Hv) as Hsz.
  pose proof (valid_length _ _ _ _ Hv) as Hlen.
  pose proof (valid_base _ _ _ _ Hv) as Hbase.
  pose proof (valid_block _ _ _ _ Hv) as Hblk.
  set (old := length ps) in *.
  set (toadd := Z.to_nat (newsize - size_of v)).
  assert (Hunfold : igraph_strvector_resize v newsize m =
    (let* tmp := realloc_slots (stor_begin v) newsize in
     if tmp =? 0 then ret (IGRAPH_ENOMEM, v)
     else
       let* r := for_range 0 (Z.of_nat toadd) (fun i =>
         let* p := calloc_chars 1 in
         do store_slot tmp (Z.of_nat old + i) p then
         if is_null p then
           do for_all 0 i (fun j =>
                let* q := load_slot tmp (Z.of_nat old + i) in
                let* z := slot_is_null q in
                if z then ret tt else IGRAPH_FREE_slot tmp (Z.of_nat old + i)) then
           ret (Some IGRAPH_ENOMEM)
         else
           do store_char p 0 x00 then
           ret None) in
       match r with
       | Some e => ret (e, mkStrvector tmp (tmp + newsize) (tmp + newsize))
       | None => ret (IGRAPH_SUCCESS, mkStrvector tmp (tmp + newsize) (tmp + newsize))
       end) m).
  { unfold igraph_strvector_resize.
    step ltac:(by apply size_run). simpl.
    step ltac:(by apply size_run). step ltac:(by apply assert_base).
    destruct (Z.ltb_spec newsize (size_of v)); [lia|].
    rewrite Z.gtb_ltb. destruct (Z.ltb_spec (size_of v) newsize); [|lia].
    unfold toadd. rewrite Z2Nat.id by lia. rewrite <- Hsz. done. }
  rewrite Hunfold. clear Hunfold.
  destruct (decide (scheduled m = Fails)) as [Hf|Hf].
  { (* the realloc is refused *)
    exists IGRAPH_ENOMEM, v, (pop_oracle m). split; [|split; [|split; [|split]]].
    - step ltac:(apply realloc_slots_fails; [by eauto|done]). done.
    - unfold frame. simpl. repeat split; (done || lia).
    - by left.
    - intros Hg. by apply granted_first in Hg.
    - done. }
  destruct (realloc_slots_granted (stor_begin v) newsize slots m Hok Hbase Hblk Hf)
    as (tmp & m0 & Hre & Htmp & Hwhere & Hblk0 & Hch0 & Hcn0 & Hor0 & Hpos0 & Han0
        & Hfr0 & Hfresh0).
  set (slots0 := resize_slots (Z.to_nat newsize) slots) in *.
  assert (Hl0 : length slots0 = (old + toadd)%nat).
  { unfold slots0, resize_slots, toadd.
    rewrite length_app, length_take, length_replicate. lia. }
  assert (Htmp_lt : tmp < anext m0).
  { destruct (Z.lt_ge_cases tmp (anext m0)) as [|Hge]; [done|].
    rewrite (Hfresh0 tmp Hge) in Hblk0. done. }
  destruct (grow_loop m0 tmp old toadd slots0 Hblk0 ltac:(lia))
    as [(m2 & Hloop & Hinv)|(e & m2 & Hloop & Hfail)].
  { intros a Ha. rewrite Hch0. apply (ok_cheap _ Hok). lia. }
  - (* every new slot is filled *)
    destruct Hinv as (Hc & Ha & Ho & Hold & Hnewb & Hfresh & sl & Hsl & Hlsl & Hpt).
    set (qs := (fun j : nat => cnext m + Z.of_nat j) <$> seq 0 toadd).
    assert (Hsleq : sl = Vptr <$> (ps ++ qs)).
    { apply list_eq. intros i. rewrite Hpt, list_lookup_fmap.
      destruct (decide (i < old)%nat) as [Hi|Hi].
      - case_decide; [lia|]. rewrite lookup_app_l by done.
        unfold slots0. rewrite lookup_resize_slots by lia.
        destruct (lookup_lt_is_Some_2 ps i Hi) as [a Hia]. rewrite Hia. simpl.
        by apply (valid_slot m v slots ps).
      - rewrite lookup_app_r by (fold old; lia). fold old.
        unfold qs. rewrite fresh_addresses_lookup.
        repeat case_decide; try lia.
        + simpl. by rewrite Hcn0.
        + simpl. apply lookup_ge_None_2. lia. }
    exists IGRAPH_SUCCESS, (mkStrvector tmp (tmp + newsize) (tmp + newsize)), m2.
    split; [|split; [|split; [|split]]].
    + step ltac:(apply Hre). destruct (Z.eqb_spec tmp 0); [done|].
      step ltac:(apply Hloop). done.
    + unfold frame. split; [lia|]. split; [lia|]. split.
      * intros a Ha'. rewrite Hold by lia. by rewrite Hch0.
      * intros b' Hne Hlt. rewrite Hsl, lookup_insert_ne by (destruct Hwhere; lia).
        by apply Hfr0.
    + done.
    + done.
    + intros _. exists qs.
      assert (Hqs : ∀ q, q ∈ qs → cnext m ≤ q ∧ cheap m2 !! q = Some [x00]).
      { intros q Hq. apply fresh_addresses_elem in Hq as (j & Hj & ->).
        split; [lia|]. rewrite <- Hcn0. by apply Hnewb. }
      split; [|split; [|split; [|split]]].
      * split; simpl.
        -- done.
        -- rewrite Hsl, Hsleq. apply lookup_insert_eq.
        -- unfold size_of. simpl. rewrite length_app. unfold qs.
           rewrite length_fmap, length_seq. fold old. unfold toadd. lia.
        -- unfold size_of, capacity_of. simpl. rewrite length_fmap, length_app.
           unfold qs. rewrite length_fmap, length_seq. fold old. unfold toadd. lia.
        -- apply take_ge. by rewrite length_fmap.
        -- apply NoDup_app. split; [apply (valid_nodup _ _ _ _ Hv)|].
           split; [|apply fresh_addresses_nodup].
           intros a Hain Haq. apply Hqs in Haq as [Hge _].
           pose proof (live_below_cnext m a Hok (valid_live_block _ _ _ _ a Hv Hain)). lia.
        -- intros a Hain. apply elem_of_app in Hain as [Hain|Hain].
           ++ rewrite Hold, Hch0; [by apply (valid_strings _ _ _ _ Hv)|].
              rewrite Hcn0. apply live_below_cnext; [done|].
              by apply (valid_live_block m v slots ps).
           ++ apply Hqs in Hain as [_ ->]. simpl. eauto.
      * unfold size_of. simpl. lia.
      * split; [lia| |].
        -- done.
        -- intros b' Hge. rewrite Hsl, lookup_insert_ne by lia. apply Hfresh0. lia.
      * done.
      * rewrite Ho, Hor0. apply drop_tail.
  - (* an allocation of a new slot is refused *)
    destruct Hfail as (-> & Hng & Hc & Ha & Hold & Hother).
    exists IGRAPH_ENOMEM, (mkStrvector tmp (tmp + newsize) (tmp + newsize)), m2.
    split; [|split; [|split; [|split]]].
    + step ltac:(apply Hre). destruct (Z.eqb_spec tmp 0); [done|].
      step ltac:(apply Hloop). done.
    + unfold frame. split; [lia|]. split; [lia|]. split.
      * intros a Ha'. rewrite Hold by lia. by rewrite Hch0.
      * intros b' Hne Hlt. rewrite Hother by (destruct Hwhere; lia). by apply Hfr0.
    + done.
    + intros Hg. destruct Hng. by apply (granted_tail toadd m m0).
    + done.
Qed.

End resize_grow.

Lemma resize_same (v : igraph_strvector_t) (m : mem) :
  stor_begin v ≠ 0 →
  igraph_strvector_resize v (size_of v) m = Done (IGRAPH_SUCCESS, v) m.
Proof.
  intros Hb. unfold igraph_strvector_resize.
  step ltac:(by apply size_run). simpl.
  step ltac:(by apply size_run). step ltac:(by apply assert_base).
  rewrite Z.ltb_irrefl, Z.gtb_ltb, Z.ltb_irrefl. done.
Qed.

Section resize_shrink.
Context (m : mem) (v : igraph_strvector_t) (sl : list cptr) (newsize : Z).
Hypothesis Hbase : stor_begin v ≠ 0.
Hypothesis Hblk : aheap m !! stor_begin v = Some sl.
Hypothesis Hnew : 0 ≤ newsize < size_of v.
Hypothesis Hlen : size_of v ≤ Z.of_nat (length sl).
Hypothesis Hrel :
  releasable m (take (Z.to_nat (size_of v - newsize)) (drop (Z.to_nat newsize) sl)).

Lemma shrink_loop :
  ∃ m2, for_all newsize (size_of v) (fun i => IGRAPH_FREE_slot (stor_begin v) i) m
        = Done tt m2
      ∧ shrunk_inv m (stor_begin v) (Z.to_nat newsize) sl
          (take (Z.to_nat (size_of v - newsize)) (drop (Z.to_nat newsize) sl))
          (Z.to_nat (size_of v - newsize)) m2.
Proof.
  set (b := stor_begin v) in *. set (ns := Z.to_nat newsize) in *.
  set (n := Z.to_nat (size_of v - newsize)) in *.
  set (xs := take n (drop ns sl)) in *.
  unfold for_all. fold n.
  apply for_each_inv.
  - split; [done|]. split; [done|]. split; [done|]. split; [done|].
    exists sl. split; [|split; [done|]].
    + symmetry. by apply insert_id.
    + intros i. case_decide; [lia|done].
  - intros k m2 Hk (Hc & Ha & Ho & Hkept & sl2 & Hsl2 & Hl2 & Hpt).
    assert (Hblk2 : aheap m2 !! b = Some sl2) by (rewrite Hsl2; apply lookup_insert_eq).
    destruct (lookup_lt_is_Some_2 sl (ns + k)) as [p Hp]; [lia|].
    assert (Hxs : xs !! k = Some p).
    { unfold xs. rewrite lookup_take_lt by done. by rewrite lookup_drop. }
    assert (Hslot : sl2 !! (ns + k)%nat = Some p).
    { rewrite Hpt. case_decide; [lia|done]. }
    assert (Htk : take (S k) xs = take k xs ++ [p]) by (by apply take_S_r).
    assert (Hinv : ∀ m3, cnext m3 = cnext m2 → anext m3 = anext m2 →
              oracle m3 = oracle m2 →
              (∀ a, Vptr a ∉ take (S k) xs → cheap m3 !! a = cheap m !! a) →
              aheap m3 = <[b := <[(ns + k)%nat := Vnull]> sl2]> (aheap m2) →
              shrunk_inv m b ns sl xs (S k) m3).
    { intros m3 H1 H2 H3 H4 H5. unfold shrunk_inv.
      split; [congruence|]. split; [congruence|]. split; [congruence|]. split; [done|].
      exists (<[(ns + k)%nat := Vnull]> sl2). split; [|split].
      - rewrite H5, Hsl2. apply insert_insert_eq.
      - by rewrite length_insert.
      - intros i. destruct (decide (i = ns + k)%nat) as [->|Hne].
        + rewrite list_lookup_insert_eq by lia. case_decide; [done|lia].
        + rewrite list_lookup_insert_ne by done. rewrite Hpt.
          repeat case_decide; try done; lia. }
    destruct (Hrel k p Hxs) as [->|(q & -> & Hlive & Honce)].
    + eexists. split.
      { eapply (free_slot_null_run b _ m2 sl2); [done|lia|].
        by replace (Z.to_nat (newsize + Z.of_nat k)) with (ns + k)%nat by lia. }
      replace (Z.to_nat (newsize + Z.of_nat k)) with (ns + k)%nat by lia.
      apply Hinv; simpl; try done.
      intros a Hnot. apply Hkept. intros Hin. apply Hnot. rewrite Htk.
      apply elem_of_app. by left.
    + assert (Hq : Vptr q ∉ take k xs).
      { intros Hin. apply elem_of_take in Hin as (j & Hj & Hjk).
        apply Honce in Hj. lia. }
      eexists. split.
      { eapply (free_slot_run b _ q m2 sl2); [done|lia| |].
        - by replace (Z.to_nat (newsize + Z.of_nat k)) with (ns + k)%nat by lia.
        - by rewrite (Hkept q Hq). }
      replace (Z.to_nat (newsize + Z.of_nat k)) with (ns + k)%nat by lia.
      apply Hinv; simpl; try done.
      intros a Hnot. rewrite Htk in Hnot. rewrite lookup_delete_ne.
      * apply Hkept. intros Hin. apply Hnot, elem_of_app. by left.
      * intros ->. apply Hnot, elem_of_app. right. by apply list_elem_of_singleton.
Qed.

Lemma resize_shrink :
  ∃ m' sl', igraph_strvector_resize v newsize m
            = Done (IGRAPH_SUCCESS, set_end v (stor_begin v + newsize)) m' ∧
    aheap m' = <[stor_begin v := sl']> (aheap m) ∧
    take (Z.to_nat newsize) sl' = take (Z.to_nat newsize) sl ∧
    (∀ a, Vptr a ∉ take (Z.to_nat (size_of v - newsize)) (drop (Z.to_nat newsize) sl) →
          cheap m' !! a = cheap m !! a).
Proof.
  destruct shrink_loop as (m2 & Hrun & Hc & Ha & Ho & Hkept & sl2 & Hsl2 & Hl2 & Hpt).
  exists m2, sl2. split; [|split; [|split]].
  - unfold igraph_strvector_resize.
    step ltac:(by apply size_run). simpl.
    step ltac:(by apply size_run). step ltac:(by apply assert_base).
    destruct (Z.ltb_spec newsize (size_of v)); [|lia].
    step ltac:(apply Hrun). done.
  - done.
  - apply list_eq. intros i. destruct (decide (i < Z.to_nat newsize)%nat).
    + rewrite !lookup_take_lt by done. rewrite Hpt. case_decide; [lia|done].
    + by rewrite !lookup_take_ge by lia.
  - intros a Hnot. apply Hkept. by rewrite take_take, Nat.min_id.
Qed.

End resize_shrink.

(** ** Appending *)

Lemma load_char_run (a i : Z) (c : byte) (buf : list byte) (m : mem) :
  cheap m !! a = Some buf → 0 ≤ i → buf !! Z.to_nat i = Some c →
  load_char (Vptr a) i m = Done c m.
Proof.
  intros Hb Hi Hc. unfold load_char. step ltac:(by apply read_chars_run).
  destruct (Z.leb_spec 0 i); [|lia]. by rewrite Hc.
Qed.

Lemma alloc_then_write (m : mem) (zeros buf : list byte) :
  put_chars (alloc_chars m zeros) (cnext m) buf = alloc_chars m buf.
Proof. unfold put_chars, alloc_chars. simpl. by rewrite insert_insert_eq. Qed.

Lemma strdup_run (a : Z) (buf s : list byte) (m : mem) :
  cheap m !! a = Some buf → cstring buf = Some s → scheduled m ≠ Fails →
  strdup (Vptr a) m = Done (Vptr (cnext m)) (alloc_chars m (s ++ [x00])).
Proof.
  intros Hb Hs Ho. unfold strdup.
  step ltac:(by apply read_chars_run). rewrite Hs.
  step ltac:(by apply calloc_chars_run). simpl.
  step ltac:(eapply write_chars_run;
             [simpl; apply lookup_insert_eq
             |rewrite length_app, length_replicate; simpl; lia]).
  rewrite drop_ge by (rewrite length_app, length_replicate; simpl; lia).
  by rewrite app_nil_r, alloc_then_write.
Qed.

Lemma strdup_fails (a : Z) (buf s : list byte) (m : mem) :
  cheap m !! a = Some buf → cstring buf = Some s → scheduled m = Fails →
  strdup (Vptr a) m = Done Vnull (pop_oracle m).
Proof.
  intros Hb Hs Ho. unfold strdup.
  step ltac:(by apply read_chars_run). rewrite Hs.
  step ltac:(by apply calloc_chars_fails). done.
Qed.

Lemma cstring_head (buf s : list byte) :
  cstring buf = Some s →
  ∃ c, buf !! 0%nat = Some c ∧ (Byte.eqb c x00 = true → s = []).
Proof.
  destruct buf as [|c buf]; simpl; [done|]. intros H. exists c. split; [done|].
  intros Hc. rewrite Hc in H. by injection H as <-.
Qed.

Lemma slot_of_elements (psA rs : list Z) (k : nat) (r : Z) :
  rs !! k = Some r → (Vptr <$> (psA ++ rs)) !! (length psA + k)%nat = Some (Vptr r).
Proof.
  intros Hr. rewrite list_lookup_fmap, lookup_app_r by lia.
  replace (length psA + k - length psA)%nat with k by lia. by rewrite Hr.
Qed.

Lemma insert_element (psA rs : list Z) (k : nat) (q : Z) :
  <[(length psA + k)%nat := Vptr q]> (Vptr <$> (psA ++ rs))
  = Vptr <$> (psA ++ <[k := q]> rs).
Proof.
  rewrite <- list_fmap_insert. f_equal.
  rewrite insert_app_r_alt by lia. do 2 f_equal. lia.
Qed.

Lemma insert_null_element (psA rs : list Z) (k : nat) :
  <[(length psA + k)%nat := Vnull]> (Vptr <$> (psA ++ rs))
  = (Vptr <$> psA) ++ <[k := Vnull]> (Vptr <$> rs).
Proof.
  rewrite fmap_app. rewrite insert_app_r_alt by (rewrite length_fmap; lia).
  do 2 f_equal. rewrite length_fmap. lia.
Qed.

Section append_loop.
Context (m m1 : mem) (bA bB : Z) (slotsB : list cptr) (psA psB : list Z).
Context (from : igraph_strvector_t).
Hypothesis Hok : mem_ok m.
Hypothesis HvB : valid m from slotsB psB.
Hypothesis HbB : stor_begin from = bB.
Hypothesis Hne : bA ≠ bB.

Lemma append_loop :
  appended_inv m m1 bA bB slotsB psA psB 0 m1 →
  (∃ m2, for_range 0 (Z.of_nat (length psB)) (fun i =>
           let* s := load_slot bB i in
           let* c := load_char s 0 in
           if Byte.eqb c x00 then ret None
           else
             do IGRAPH_FREE_slot bA (Z.of_nat (length psA) + i) then
             let* q := strdup s in
             do store_slot bA (Z.of_nat (length psA) + i) q then
             if is_null q then ret (Some tt) else ret None) m1 = Done None m2
         ∧ appended_inv m m1 bA bB slotsB psA psB (length psB) m2) ∨
  (∃ (u : unit) m2, for_range 0 (Z.of_nat (length psB)) (fun i =>
           let* s := load_slot bB i in
           let* c := load_char s 0 in
           if Byte.eqb c x00 then ret None
           else
             do IGRAPH_FREE_slot bA (Z.of_nat (length psA) + i) then
             let* q := strdup s in
             do store_slot bA (Z.of_nat (length psA) + i) q then
             if is_null q then ret (Some tt) else ret None) m1 = Done (Some u) m2
         ∧ append_failed m m1 bA bB slotsB psA psB m2).
Proof.
  intros H0. unfold for_range. rewrite Z.sub_0_r, Nat2Z.id.
  apply (for_loop_inv (appended_inv m m1 bA bB slotsB psA psB)
           (fun _ => append_failed m m1 bA bB slotsB psA psB)); [done|].
  intros k m2 Hk (Ha & (c & Hck & Ho) & Hold & Hfresh & HblkB & rs & HblkA & Hlrs
                  & Hnd & Hrs & Hdone & Htodo).
  rewrite Z.add_0_l.
  destruct (lookup_lt_is_Some_2 psB k Hk) as [b Hb].
  destruct (lookup_lt_is_Some_2 rs k ltac:(lia)) as [r Hr].
  assert (Hbin : b ∈ psB) by (by apply list_elem_of_lookup_2 in Hb).
  assert (Hrin : r ∈ rs) by (by apply list_elem_of_lookup_2 in Hr).
  destruct (valid_strings _ _ _ _ HvB b Hbin) as [s Hs].
  destruct (cheap m !! b) as [buf|] eqn:Hbuf; [|done]. simpl in Hs.
  assert (Hblt : b < cnext m) by (apply live_below_cnext; [done|by rewrite Hbuf]).
  assert (Hbuf2 : cheap m2 !! b = Some buf) by (by rewrite Hold).
  destruct (cstring_head buf s Hs) as (ch & Hch & Hempty).
  pose proof (valid_slot _ _ _ _ _ _ HvB Hb) as HslotB.
  destruct (Hrs r Hrin) as [Hrge Hrlive].
  assert (Hload : load_slot bB (Z.of_nat k) m2 = Done (Vptr b) m2).
  { eapply (load_slot_run bB _ m2 slotsB); [done|lia|by rewrite Nat2Z.id]. }
  assert (Hloadc : load_char (Vptr b) 0 m2 = Done ch m2).
  { by eapply (load_char_run b 0 ch buf). }
  destruct (Byte.eqb ch x00) eqn:Hz.
  { (* an empty string: the slot keeps its empty block *)
    left. exists m2. split.
    { step ltac:(apply Hload). step ltac:(apply Hloadc). by rewrite Hz. }
    pose proof (Hempty eq_refl) as ->.
    split; [done|]. split; [exists c; split; [lia|done]|].
    split; [done|]. split; [done|]. split; [done|].
    exists rs. split; [done|]. split; [done|]. split; [done|]. split; [done|]. split.
    - intros j r' b' Hj Hr' Hb'. destruct (decide (j = k)) as [->|Hjk].
      + assert (r' = r) by congruence. assert (b' = b) by congruence. subst.
        unfold string_at. rewrite Hbuf. simpl. rewrite Hs.
        by rewrite (Htodo k r ltac:(lia) Hr).
      + apply (Hdone j r' b'); [lia|done|done].
    - intros j r' Hj Hr'. apply (Htodo j r'); [lia|done]. }
  set (S0 := Vptr <$> (psA ++ rs)) in *.
  set (ix := (length psA + k)%nat).
  assert (Hix : Z.to_nat (Z.of_nat (length psA) + Z.of_nat k) = ix) by (unfold ix; lia).
  assert (HS0 : S0 !! ix = Some (Vptr r)) by (by apply slot_of_elements).
  assert (HlS0 : (ix < length S0)%nat) by (by apply lookup_lt_Some in HS0).
  set (mA := put_slots (drop_chars m2 r) bA (<[ix := Vnull]> S0)).
  assert (Hfree : IGRAPH_FREE_slot bA (Z.of_nat (length psA) + Z.of_nat k) m2 = Done tt mA).
  { unfold mA. rewrite <- Hix.
    apply (free_slot_run bA _ r m2 S0); [done|lia|by rewrite Hix|done]. }
  assert (HbufA : cheap mA !! b = Some buf).
  { simpl. rewrite lookup_delete_ne by lia. done. }
  assert (HblkAA : aheap mA !! bA = Some (<[ix := Vnull]> S0)).
  { simpl. apply lookup_insert_eq. }
  assert (HoA : oracle mA = oracle m2) by done.
  destruct (decide (scheduled mA = Fails)) as [Hf|Hf].
  - (* the copy cannot be allocated *)
    right. exists tt. eexists. split.
    { step ltac:(apply Hload). step ltac:(apply Hloadc). rewrite Hz.
      step ltac:(apply Hfree).
      step ltac:(by eapply strdup_fails).
      step ltac:(eapply (store_slot_run bA _ _ _ (<[ix := Vnull]> S0));
                 [done|rewrite length_insert; lia]).
      done. }
    rewrite Hix, list_insert_insert_eq. unfold S0, ix. rewrite insert_null_element.
    split; [|split; [|split]].
    + intros Hg.
      assert (Hsch : scheduled mA = scheduled m2) by (unfold scheduled; by rewrite HoA).
      apply (granted_scheduled (length psB) c m1 m2 Hg); [lia|done|].
      by rewrite <- Hsch.
    + intros a Ha'. simpl. rewrite lookup_delete_ne by lia. by apply Hold.
    + simpl. rewrite lookup_insert_ne by done. rewrite lookup_insert_ne by done. done.
    + exists (<[k := Vnull]> (Vptr <$> rs)). split; [|split; [|split]].
      * simpl. apply lookup_insert_eq.
      * by rewrite length_insert, length_fmap.
      * intros i p Hp. destruct (decide (i = k)) as [->|Hik].
        -- rewrite list_lookup_insert_eq in Hp by (rewrite length_fmap; lia).
           left. congruence.
        -- rewrite list_lookup_insert_ne in Hp by done.
           rewrite list_lookup_fmap in Hp.
           destruct (rs !! i) as [ri|] eqn:Hri; [|done]. injection Hp as <-.
           right. exists ri. split; [done|]. split.
           ++ simpl. rewrite lookup_delete_ne.
              ** apply Hrs. by apply list_elem_of_lookup_2 in Hri.
              ** intros ->. apply Hik. by apply (NoDup_lookup rs i k ri).
           ++ intros j Hj. destruct (decide (j = k)) as [->|Hjk].
              ** rewrite list_lookup_insert_eq in Hj by (rewrite length_fmap; lia). done.
              ** rewrite list_lookup_insert_ne in Hj by done.
                 rewrite list_lookup_fmap in Hj.
                 destruct (rs !! j) as [rj|] eqn:Hrj; [|done]. injection Hj as ->.
                 by apply (NoDup_lookup rs j i ri).
      * intros r' Hin. apply list_elem_of_lookup in Hin as (i & Hi).
        destruct (decide (i = k)) as [->|Hik].
        -- rewrite list_lookup_insert_eq in Hi by (rewrite length_fmap; lia). done.
        -- rewrite list_lookup_insert_ne in Hi by done.
           rewrite list_lookup_fmap in Hi.
           destruct (rs !! i) as [ri|] eqn:Hri; [|done]. injection Hi as ->.
           apply Hrs. by apply list_elem_of_lookup_2 in Hri.
  - (* the copy is made *)
    left. set (q := cnext m2).
    assert (Hrlt : ∀ r', r' ∈ rs → r' < q).
    { intros r' Hr'. destruct (Hrs r' Hr') as [_ [bf Hbf]].
      destruct (Z.lt_ge_cases r' q) as [|Hge]; [done|].
      rewrite (Hfresh r' Hge) in Hbf. done. }
    assert (Hqgt : cnext m < cnext m2) by (pose proof (Hrlt r Hrin); unfold q in *; lia).
    eexists. split.
    { step ltac:(apply Hload). step ltac:(apply Hloadc). rewrite Hz.
      step ltac:(apply Hfree).
      step ltac:(by eapply strdup_run).
      step ltac:(eapply (store_slot_run bA _ _ _ (<[ix := Vnull]> S0));
                 [done|rewrite length_insert; lia]).
      done. }
    rewrite Hix, list_insert_insert_eq. unfold S0, ix. rewrite insert_element.
    change (cnext mA) with q.
    unfold appended_inv. simpl.
    split; [done|]. split.
    { exists (S c). split; [lia|]. rewrite Ho. apply tail_drop. }
    split; [|split; [|split]].
    + intros a Ha'. rewrite lookup_insert_ne by lia. rewrite lookup_delete_ne by lia.
      by apply Hold.
    + intros a Ha'. rewrite lookup_insert_ne by lia.
      destruct (decide (r = a)) as [->|Hra]; [apply lookup_delete_eq|].
      rewrite lookup_delete_ne by done. apply Hfresh. lia.
    + rewrite lookup_insert_ne by done. rewrite lookup_insert_ne by done. done.
    + exists (<[k := q]> rs). split; [apply lookup_insert_eq|].
      split; [by rewrite length_insert|].
      assert (Hlook : ∀ j r', <[k := q]> rs !! j = Some r' →
                (j = k ∧ r' = q) ∨ (j ≠ k ∧ rs !! j = Some r' ∧ r' ≠ r ∧ r' ≠ q)).
      { intros j r' Hj. destruct (decide (j = k)) as [->|Hjk].
        - rewrite list_lookup_insert_eq in Hj by lia. left. split; congruence.
        - rewrite list_lookup_insert_ne in Hj by done. right.
          split; [done|]. split; [done|]. split.
          + intros ->. apply Hjk. by apply (NoDup_lookup rs j k r).
          + apply list_elem_of_lookup_2 in Hj. apply Hrlt in Hj. lia. }
      split; [|split; [|split]].
      * apply NoDup_alt. intros i j r' Hi Hj.
        apply Hlook in Hi as [[-> ->]|(Hi1 & Hi2 & Hi3 & Hi4)];
          apply Hlook in Hj as [[-> Hq]|(Hj1 & Hj2 & Hj3 & Hj4)]; try done.
        by apply (NoDup_lookup rs i j r').
      * intros r' Hin. apply list_elem_of_lookup in Hin as (j & Hj).
        apply Hlook in Hj as [[-> ->]|(Hj1 & Hj2 & Hj3 & Hj4)].
        -- split; [lia|]. rewrite lookup_insert_eq. eauto.
        -- rewrite lookup_insert_ne by done. rewrite lookup_delete_ne by done.
           apply Hrs. by apply list_elem_of_lookup_2 in Hj2.
      * intros j r' b' Hj Hr' Hb'. unfold string_at.
        apply Hlook in Hr' as [[-> ->]|(Hj1 & Hj2 & Hj3 & Hj4)].
        -- rewrite lookup_insert_eq. simpl.
           assert (b' = b) by congruence. subst b'. rewrite Hbuf. simpl. rewrite Hs.
           by apply (cstring_terminated buf).
        -- rewrite lookup_insert_ne by done. rewrite lookup_delete_ne by done.
           apply (Hdone j r' b'); [lia|done|done].
      * intros j r' Hj Hr'.
        apply Hlook in Hr' as [[-> ->]|(Hj1 & Hj2 & Hj3 & Hj4)]; [lia|].
        rewrite lookup_insert_ne by done. rewrite lookup_delete_ne by done.
        apply (Htodo j r'); [lia|done].
Qed.

End append_loop.

Lemma granted_le (n n' : nat) (m : mem) : (n ≤ n')%nat → granted n' m → granted n m.
Proof.
  unfold granted. intros Hle Hg. rewrite Forall_lookup in *. intros i o Hi.
  apply lookup_take_Some in Hi as [Hi Hlt]. apply (Hg i). rewrite lookup_take_lt by lia. done.
Qed.

Lemma granted_drop (a b : nat) (m m1 : mem) :
  granted (a + b) m → oracle m1 = drop a (oracle m) → granted b m1.
Proof.
  unfold granted. intros Hg ->. rewrite Forall_lookup in *. intros i o Hi.
  apply lookup_take_Some in Hi as [Hi Hlt]. rewrite lookup_drop in Hi.
  apply (Hg (a + i)%nat). rewrite lookup_take_lt by lia. done.
Qed.

Lemma contents_of_slots m v sl ps :
  aheap m !! stor_begin v = Some sl → size_of v = Z.of_nat (length ps) →
  take (length ps) sl = Vptr <$> ps →
  contents m v = (fun a => string_at m (Vptr a)) <$> ps.
Proof.
  intros Hblk Hsz Htake. unfold contents. rewrite Hsz, Nat2Z.id.
  apply list_eq. intros i. rewrite !list_lookup_fmap.
  destruct (decide (i < length ps)%nat) as [Hlt|Hge].
  - rewrite lookup_seq_lt by done. simpl.
    destruct (lookup_lt_is_Some_2 ps i Hlt) as [a Ha]. rewrite Ha. simpl.
    unfold element, slot_at. rewrite Hblk. simpl.
    rewrite <- (lookup_take_lt sl (length ps) i Hlt), Htake, list_lookup_fmap, Ha. done.
  - rewrite lookup_seq_ge by lia. by rewrite lookup_ge_None_2 by lia.
Qed.

Lemma valid_frame m m' v slots ps :
  valid m v slots ps → aheap m' !! stor_begin v = Some slots →
  (∀ a, a ∈ ps → cheap m' !! a = cheap m !! a) →
  valid m' v slots ps ∧ contents m' v = contents m v.
Proof.
  intros Hv Hblk Hsame. assert (Hv' : valid m' v slots ps).
  { destruct Hv as [H1 H2 H3 H4 H5 H6 H7]. split; try done.
    intros a Ha. rewrite (Hsame a Ha). by apply H7. }
  split; [done|].
  rewrite (valid_contents _ _ _ _ Hv), (valid_contents _ _ _ _ Hv').
  apply list_fmap_ext. intros i a Hi. unfold string_at.
  rewrite Hsame; [done|]. by apply list_elem_of_lookup_2 in Hi.
Qed.

(** ** The decidable checks are sound *)

Lemma check_mem_ok_sound (m : mem) : check_mem_ok m = true → mem_ok m.
Proof.
  unfold check_mem_ok. rewrite !andb_true_iff. intros [[H1 H2] H3].
  apply bool_decide_eq_true in H2, H3. split.
  - lia.
  - intros a Ha. destruct (cheap m !! a) as [buf|] eqn:Hb; [|done].
    apply H2 in Hb. simpl in Hb. lia.
  - intros b Hb. destruct (aheap m !! b) as [sl|] eqn:Hs; [|done].
    apply H3 in Hs. simpl in Hs. lia.
Qed.

Lemma filter_lookup_nodup (index : list Z) (i j : nat) (p : Z) :
  NoDup (filter (fun p => p ≠ 0) index) →
  index !! i = Some p → index !! j = Some p → p ≠ 0 → i = j.
Proof.
  revert i j. induction index as [|x index IH]; intros i j Hnd Hi Hj Hp; [done|].
  rewrite filter_cons in Hnd. destruct (decide (x ≠ 0)) as [Hx|Hx].
  - apply NoDup_cons in Hnd as [Hnin Hnd].
    destruct i as [|i], j as [|j]; simpl in *; try done.
    + injection Hi as ->. destruct Hnin. apply list_elem_of_filter. split; [done|].
      by apply list_elem_of_lookup_2 in Hj.
    + injection Hj as ->. destruct Hnin. apply list_elem_of_filter. split; [done|].
      by apply list_elem_of_lookup_2 in Hi.
    + f_equal. by apply IH.
  - destruct i as [|i], j as [|j]; simpl in *; try done.
    + injection Hi as ->. done.
    + injection Hj as ->. done.
    + f_equal. by apply IH.
Qed.

Lemma check_compacting_sound (index : list Z) (n : nat) (bound : Z) :
  check_compacting index n bound = true → compacting index n bound.
Proof.
  unfold check_compacting. rewrite !andb_true_iff. intros [[H1 H2] H3].
  apply bool_decide_eq_true in H1, H3. split; [done| |].
  - intros i p Hi Hp. rewrite forallb_forall in H2.
    assert (Hin : In (i, p) (imap pair index)).
    { apply list_elem_of_In, list_elem_of_lookup. exists i.
      rewrite list_lookup_imap, Hi. done. }
    apply H2 in Hin. simpl in Hin.
    destruct (Z.eqb_spec p 0); [done|]. simpl in Hin.
    rewrite !andb_true_iff in Hin. lia.
  - intros i j p. by apply filter_lookup_nodup.
Qed.

Lemma granted_nil (n : nat) (m : mem) : oracle m = [] → granted n m.
Proof. unfold granted. intros ->. rewrite take_nil. constructor. Qed.

(** ** Adding with a spare slot *)

(** With a slot to spare, [igraph_strvector_add] does not resize: when the
    copy of the value is refused it answers [IGRAPH_ENOMEM] and the vector is
    as it was, in struct, size and contents. *)
Lemma add_spare_refused (m : mem) (v : igraph_strvector_t) (slots : list cptr)
    (ps : list Z) (value s : list byte) :
  valid m v slots ps → size_of v < capacity_of v → size_of v < IGRAPH_INTEGER_MAX →
  cstring value = Some s → scheduled m = Fails →
  ∃ m', igraph_strvector_add v value m = Done (IGRAPH_ENOMEM, v) m' ∧
        valid m' v (<[length ps := Vnull]> slots) ps ∧
        contents m' v = contents m v.
Proof.
  intros Hv Hspare Hmax Hcs Hf.
  pose proof (valid_size _ _ _ _ Hv) as Hsz.
  pose proof (valid_cap _ _ _ _ Hv) as Hcap.
  pose proof (valid_base _ _ _ _ Hv) as Hbase.
  pose proof (valid_block _ _ _ _ Hv) as Hblk.
  set (m' := put_slots (pop_oracle m) (stor_begin v) (<[length ps := Vnull]> slots)).
  assert (Hv' : valid m' v (<[length ps := Vnull]> slots) ps).
  { destruct Hv as [H1 H2 H3 H4 H5 H6 H7]. split; try done.
    - simpl. apply lookup_insert_eq.
    - by rewrite length_insert.
    - rewrite take_insert_ge by lia. done. }
  exists m'. split; [|split; [done|]].
  - unfold igraph_strvector_add.
    step ltac:(by apply size_run). step ltac:(by apply strlen_run).
    destruct (Z.eqb_spec (size_of v) IGRAPH_INTEGER_MAX); [lia|].
    step ltac:(by apply assert_base).
    unfold capacity_of, size_of in *.
    destruct (Z.eqb_spec (end_ v) (stor_end v)); [lia|].
    rewrite bind_ret.
    step ltac:(by apply calloc_chars_fails).
    step ltac:(eapply (store_slot_run (stor_begin v) _ _ _ slots); [done|lia]).
    simpl. unfold m'. by rewrite Hsz, Nat2Z.id.
  - rewrite (valid_contents _ _ _ _ Hv'), (valid_contents _ _ _ _ Hv). done.
Qed.

(** C2 (as amended): on a valid vector, with a mapping that has one entry
    per element, sends no two elements to one slot and every moved element
    to its own or an earlier slot below [size - nremove],
    [igraph_strvector_permdelete] returns; the block of every element with a
    zero entry is released; an element with entry [p <> 0] has its own
    pointer, block untouched, in slot [p - 1] of the resulting array; and
    the size is [nremove] less when the final [realloc] fails or keeps the
    array in place. *)
Theorem permdelete_compacting (m : mem) (v : igraph_strvector_t)
    (slots : list cptr) (ps : list Z) (index : list Z) (nremove : Z) :
  mem_ok m → valid m v slots ps →
  compacting index (length ps) (size_of v - nremove) →
  ∃ v' m', igraph_strvector_permdelete v index nremove m = Done v' m' ∧
    (scheduled m ≠ Moves → size_of v' = size_of v - nremove) ∧
    (∀ i a, ps !! i = Some a → index !! i = Some 0 → cheap m' !! a = None) ∧
    (∀ i a p, ps !! i = Some a → index !! i = Some p → p ≠ 0 →
       slot_at m' v' (Z.to_nat (p - 1)) = Some (Vptr a) ∧
       cheap m' !! a = cheap m !! a).
Proof.
  intros Hok Hv Hix.
  pose proof (valid_size _ _ _ _ Hv) as Hsz.
  pose proof (valid_length _ _ _ _ Hv) as Hlen.
  pose proof (valid_base _ _ _ _ Hv) as Hbase.
  destruct (permute_loop m v slots ps index _ Hv Hix)
    as (m1 & Hrun & Hc & Ha & Ho & Hgone & Hkept & sl & Hsl & Hlsl & _ & Hmoved).
  assert (Hblk : aheap m1 !! stor_begin v = Some sl) by (rewrite Hsl; apply lookup_insert_eq).
  assert (Hsch : scheduled m1 = scheduled m) by (unfold scheduled; by rewrite Ho).
  set (count := if negb (size_of v - nremove =? 0) then size_of v - nremove else 1).
  assert (Hrel : ∀ i a, ps !! i = Some a → index !! i = Some 0 → cheap m1 !! a = None).
  { intros i a Hia Hi0. apply Hgone. exists i. split; [|done].
    by apply lookup_lt_Some in Hia. }
  assert (Hmov : ∀ i a p, ps !! i = Some a → index !! i = Some p → p ≠ 0 →
            sl !! Z.to_nat (p - 1) = Some (Vptr a) ∧ (Z.to_nat (p - 1) < Z.to_nat count)%nat
            ∧ cheap m1 !! a = cheap m !! a).
  { intros i a p Hia Hip Hp.
    destruct (compacting_back _ _ _ Hix i p Hip Hp) as [Hp1 Hp2].
    split; [|split].
    - apply (Hmoved i p a); [by apply lookup_lt_Some in Hia|done|done|done].
    - unfold count. destruct (Z.eqb_spec (size_of v - nremove) 0); simpl; lia.
    - apply Hkept. intros (j & Hj & Hj0 & Hja).
      pose proof (NoDup_lookup _ _ _ _ (valid_nodup _ _ _ _ Hv) Hia Hja). subst j.
      congruence. }
  destruct (scheduled m) eqn:Hs.
  - (* the shrinking realloc fails *)
    exists (mkStrvector (stor_begin v) (stor_end v - nremove) (end_ v - nremove)),
           (pop_oracle m1).
    split; [|split; [|split]].
    + unfold igraph_strvector_permdelete.
      step ltac:(by apply assert_base). step ltac:(by apply size_run).
      step ltac:(apply Hrun). step ltac:(by apply size_run).
      fold count.
      step ltac:(apply realloc_slots_fails; [by eauto|congruence]). done.
    + intros _. unfold size_of. simpl. lia.
    + intros i a Hia Hi0. simpl. by apply (Hrel i).
    + intros i a p Hia Hip Hp. destruct (Hmov i a p Hia Hip Hp) as (Hs1 & _ & Hc1).
      split; [|done]. unfold slot_at. simpl. rewrite Hblk. done.
  - (* it keeps the array in place *)
    exists (mkStrvector (stor_begin v) (stor_end v - nremove) (end_ v - nremove)),
           (put_slots (pop_oracle m1) (stor_begin v) (resize_slots (Z.to_nat count) sl)).
    split; [|split; [|split]].
    + unfold igraph_strvector_permdelete.
      step ltac:(by apply assert_base). step ltac:(by apply size_run).
      step ltac:(apply Hrun). step ltac:(by apply size_run).
      fold count.
      step ltac:(apply (realloc_slots_in_place _ _ sl); [done|congruence]).
      destruct (Z.eqb_spec (stor_begin v) 0); [done|]. done.
    + intros _. unfold size_of. simpl. lia.
    + intros i a Hia Hi0. simpl. by apply (Hrel i).
    + intros i a p Hia Hip Hp. destruct (Hmov i a p Hia Hip Hp) as (Hs1 & Hlt & Hc1).
      split; [|done]. unfold slot_at. simpl. rewrite lookup_insert_eq. simpl.
      rewrite lookup_resize_slots; [done|done|by apply lookup_lt_Some in Hs1].
  - (* it moves the array *)
    pose proof (ok_anext _ Hok) as Hpos.
    exists (mkStrvector (anext m1) (stor_end v - nremove) (end_ v - nremove)).
    eexists. split; [|split; [|split]].
    + unfold igraph_strvector_permdelete.
      step ltac:(by apply assert_base). step ltac:(by apply size_run).
      step ltac:(apply Hrun). step ltac:(by apply size_run).
      fold count.
      step ltac:(apply (realloc_slots_moves _ _ sl); [done|congruence]).
      destruct (Z.eqb_spec (anext m1) 0); [lia|]. done.
    + done.
    + intros i a Hia Hi0. simpl. by apply (Hrel i).
    + intros i a p Hia Hip Hp. destruct (Hmov i a p Hia Hip Hp) as (Hs1 & Hlt & Hc1).
      split; [|done]. unfold slot_at. simpl. rewrite lookup_insert_eq. simpl.
      rewrite lookup_resize_slots; [done|done|by apply lookup_lt_Some in Hs1].
Qed.

(** C4 (as amended): the form of set with a length answers an index below 0
    or at or beyond the reserved slots, [stor_end - stor_begin], with
    [IGRAPH_EINVAL] and leaves the memory as it is; the zero terminated form
    checks no index and never answers [IGRAPH_EINVAL]; for an index in
    [0, size) of a valid vector both forms return, and not with
    [IGRAPH_EINVAL]. *)
Theorem set_index_check (m : mem) (v : igraph_strvector_t) (slots : list cptr)
    (ps : list Z) (idx : Z) :
  valid m v slots ps →
  (idx < 0 ∨ capacity_of v ≤ idx →
   ∀ value len, igraph_strvector_set2 v idx value len m = Done IGRAPH_EINVAL m) ∧
  (∀ value m', igraph_strvector_set v idx value m ≠ Done IGRAPH_EINVAL m') ∧
  (0 ≤ idx < size_of v →
   (∀ value len, 0 ≤ len ≤ Z.of_nat (length value) →
      ∃ e m', igraph_strvector_set2 v idx value len m = Done e m' ∧ e ≠ IGRAPH_EINVAL) ∧
   (∀ value s, cstring value = Some s →
      ∃ e m', igraph_strvector_set v idx value m = Done e m' ∧ e ≠ IGRAPH_EINVAL)).
Proof.
  intros Hv. split; [|split].
  - intros Hout value len. unfold igraph_strvector_set2, capacity_of in *.
    destruct (Z.ltb_spec idx 0) as [|Hge]; [done|]. simpl.
    rewrite Z.geb_leb. destruct (Z.leb_spec (stor_end v - stor_begin v) idx); [done|lia].
  - intros value m'. apply set_never_einval.
  - intros Hidx. split.
    + intros value len Hlen.
      destruct (set2_run m v slots ps idx Hv Hidx value len Hlen)
        as [[_ Hrun]|(_ & m' & a & Hrun & _)]; eauto.
    + intros value s Hcs.
      destruct (set_run m v slots ps idx Hv Hidx value s Hcs)
        as [[_ Hrun]|(_ & m' & a & Hrun & _)]; eauto.
Qed.

Lemma valid_element m v slots ps (i : nat) a :
  valid m v slots ps → ps !! i = Some a →
  slot_at m v i = Some (Vptr a) ∧ element m v i = string_at m (Vptr a).
Proof.
  intros Hv Ha. unfold element, slot_at. rewrite (valid_block _ _ _ _ Hv). simpl.
  by rewrite (valid_slot _ _ _ _ _ _ Hv Ha).
Qed.

(** C5 (as amended): when the source range [begin, end) and the destination
    range [to, to + (end - begin)) lie within a valid vector, do not overlap,
    and the allocator grants the copies, [igraph_strvector_move_interval]
    returns, every source slot keeps its pointer and its string, and element
    [to + i] reads as element [begin + i] did. *)
Theorem move_interval_disjoint (m : mem) (v : igraph_strvector_t)
    (slots : list cptr) (ps : list Z) (begin end' to : Z) :
  mem_ok m → valid m v slots ps →
  0 ≤ begin ≤ end' → end' ≤ size_of v →
  0 ≤ to → to + (end' - begin) ≤ size_of v →
  end' ≤ to ∨ to + (end' - begin) ≤ begin →
  granted (Z.to_nat (end' - begin)) m →
  ∃ m', igraph_strvector_move_interval v begin end' to m = Done tt m' ∧
    (∀ i, begin ≤ i < end' →
       slot_at m' v (Z.to_nat i) = slot_at m v (Z.to_nat i) ∧
       element m' v (Z.to_nat i) = element m v (Z.to_nat i) ∧
       is_Some (element m v (Z.to_nat i))) ∧
    (∀ i, 0 ≤ i < end' - begin →
       element m' v (Z.to_nat (to + i)) = element m v (Z.to_nat (begin + i))).
Proof.
  intros Hok Hv Hbe Hes Hto Htn Hdisj Hgr.
  pose proof (valid_size _ _ _ _ Hv) as Hsz.
  pose proof (valid_length _ _ _ _ Hv) as Hlen.
  assert (Hrange : 0 ≤ to ≤ to + end' - begin ∧ to + end' - begin ≤ size_of v) by lia.
  destruct (release_loop m v slots ps to (to + end' - begin) Hv Hrange) as (m1 & Hrun1 & Hinv1).
  replace (Z.to_nat (to + end' - begin) - Z.to_nat to)%nat
    with (Z.to_nat (end' - begin)) in Hinv1 by lia.
  pose proof Hinv1 as (Hc1 & Ha1 & Ho1 & Hgone & Hkept & sl1 & Hsl1 & Hl1 & Hpt1).
  destruct (copy_loop m v slots ps begin end' to Hok Hv ltac:(lia) ltac:(lia) Hdisj Hgr
              m1 sl1 Hinv1 Hsl1 Hl1 Hpt1)
    as (m2 & Hrun2 & Hc2 & Ha2 & Ho2 & Hold & Hnew & sl2 & Hsl2 & Hl2 & Hpt2).
  set (bg := Z.to_nat begin) in *. set (t := Z.to_nat to) in *.
  set (n := Z.to_nat (end' - begin)) in *.
  assert (Hblk2 : aheap m2 !! stor_begin v = Some sl2) by (rewrite Hsl2; apply lookup_insert_eq).
  exists m2. split; [|split].
  - unfold igraph_strvector_move_interval.
    step ltac:(apply assert_base; apply (valid_base _ _ _ _ Hv)).
    step ltac:(apply Hrun1). apply Hrun2.
  - intros i Hi.
    destruct (lookup_lt_is_Some_2 ps (Z.to_nat i)) as [a Ha]; [lia|].
    assert (Hain : a ∈ ps) by (by apply list_elem_of_lookup_2 in Ha).
    destruct (valid_element _ _ _ _ _ _ Hv Ha) as [Hs He].
    assert (Hs2 : slot_at m2 v (Z.to_nat i) = Some (Vptr a)).
    { unfold slot_at. rewrite Hblk2. simpl. rewrite Hpt2. case_decide; [lia|].
      rewrite Hpt1. case_decide; [lia|]. by apply (valid_slot m v slots ps). }
    split; [by rewrite Hs, Hs2|]. split.
    + unfold element at 1. rewrite Hs2, He. simpl. unfold string_at.
      rewrite Hold.
      * rewrite Hkept; [done|]. intros Hin. apply elem_of_take in Hin as (j & Hj & Hjn).
        rewrite lookup_drop in Hj.
        pose proof (NoDup_lookup _ _ _ _ (valid_nodup _ _ _ _ Hv) Hj Ha). lia.
      * apply live_below_cnext; [done|]. by apply (valid_live_block m v slots ps).
    + rewrite He. apply (valid_strings _ _ _ _ Hv a Hain).
  - intros i Hi.
    destruct (lookup_lt_is_Some_2 ps (Z.to_nat (begin + i))) as [a Ha]; [lia|].
    destruct (valid_element _ _ _ _ _ _ Hv Ha) as [Hs He]. rewrite He.
    unfold element, slot_at. rewrite Hblk2. simpl. rewrite Hpt2.
    case_decide; [|lia]. simpl.
    replace (Z.to_nat (to + i) - t)%nat with (Z.to_nat i) by lia.
    apply (Hnew (Z.to_nat i) a); [lia|].
    rewrite <- Ha. f_equal. lia.
Qed.

(** C6: for two valid vectors with separate slot arrays,
    [igraph_strvector_append] returns and never changes the second vector.
    It succeeds when the allocator grants what it asks for; on success the
    receiver has the two sizes added up, reads as before in its old part
    and, at [old size + i], as the second vector at [i].  When the resize
    went through and a copy of an element could not be allocated, the error
    is [IGRAPH_ENOMEM] and the receiver is back at its old size and reads as
    it did before the call. *)
Theorem append_spec (m : mem) (to from : igraph_strvector_t)
    (slotsA : list cptr) (psA : list Z) (slotsB : list cptr) (psB : list Z) :
  mem_ok m → valid m to slotsA psA → valid m from slotsB psB →
  stor_begin to ≠ stor_begin from →
  ∃ e to' m', igraph_strvector_append to from m = Done (e, to') m' ∧
    valid m' from slotsB psB ∧ contents m' from = contents m from ∧
    (granted (S (2 * length psB)) m → e = IGRAPH_SUCCESS) ∧
    (e = IGRAPH_SUCCESS →
       size_of to' = size_of to + size_of from ∧
       contents m' to' = contents m to ++ contents m from ∧
       ∀ i, 0 ≤ i < size_of from →
         element m' to' (Z.to_nat (size_of to + i)) = element m from (Z.to_nat i)) ∧
    (∀ to1 m1,
       igraph_strvector_resize to (size_of to + size_of from) m
         = Done (IGRAPH_SUCCESS, to1) m1 →
       e ≠ IGRAPH_SUCCESS →
       e = IGRAPH_ENOMEM ∧ size_of to' = size_of to ∧ contents m' to' = contents m to).
Proof.
  intros Hok HvA HvB Hsep.
  pose proof (valid_size _ _ _ _ HvA) as HszA.
  pose proof (valid_size _ _ _ _ HvB) as HszB.
  pose proof (valid_base _ _ _ _ HvA) as HbaseA.
  pose proof (valid_base _ _ _ _ HvB) as HbaseB.
  pose proof (valid_block _ _ _ _ HvB) as HblkB.
  pose proof (valid_contents _ _ _ _ HvA) as HcA.
  pose proof (valid_contents _ _ _ _ HvB) as HcB.
  assert (HltA : ∀ a, a ∈ psA → a < cnext m).
  { intros a Ha. apply live_below_cnext; [done|]. by apply (valid_live_block m to slotsA psA). }
  assert (HltB : ∀ a, a ∈ psB → a < cnext m).
  { intros a Ha. apply live_below_cnext; [done|]. by apply (valid_live_block m from slotsB psB). }
  assert (HbBlt : stor_begin from < anext m).
  { apply live_below_anext; [done|]. rewrite HblkB. eauto. }
  assert (Hpoint : ∀ m' to', contents m' to' = contents m to ++ contents m from →
            ∀ i, 0 ≤ i < size_of from →
              element m' to' (Z.to_nat (size_of to + i)) = element m from (Z.to_nat i)).
  { intros m' to' Hc i Hi.
    assert (Hl : contents m' to' !! Z.to_nat (size_of to + i)
                 = contents m from !! Z.to_nat i).
    { rewrite Hc, lookup_app_r; rewrite HcA, length_fmap; [|lia]. f_equal. lia. }
    unfold contents in Hl. rewrite !list_lookup_fmap in Hl.
    rewrite (lookup_seq_lt _ (Z.to_nat (size_of from))) in Hl by lia.
    assert (Hlen : length (contents m' to') = length (contents m to ++ contents m from))
      by (by rewrite Hc).
    unfold contents in Hlen. rewrite length_app, !length_fmap, !length_seq in Hlen.
    rewrite lookup_seq_lt in Hl by lia. simpl in Hl. by injection Hl. }
  destruct (decide (length psB = 0)%nat) as [Hn2|Hn2].
  { (* nothing to append *)
    exists IGRAPH_SUCCESS, to, m.
    assert (Hrun : igraph_strvector_append to from m = Done (IGRAPH_SUCCESS, to) m).
    { unfold igraph_strvector_append.
      step ltac:(by apply size_run). step ltac:(by apply size_run).
      replace (size_of to + size_of from) with (size_of to) by lia.
      step ltac:(by apply resize_same). simpl.
      unfold for_range. replace (Z.to_nat (size_of from - 0)) with 0%nat by lia. done. }
    destruct psB; [|done]. rewrite HcB in *. simpl in *.
    split; [done|]. split; [done|]. split; [done|]. split; [done|]. split; [|done].
    intros _. split; [lia|]. split; [by rewrite app_nil_r|]. intros i Hi. lia. }
  destruct (resize_grow m to slotsA psA (size_of to + size_of from) Hok HvA ltac:(lia))
    as (e1 & v1 & m1 & Hres & (Hfc & Hfa & Hfch & Hfah) & Hwhere & Hgr1 & Hsucc).
  replace (Z.to_nat (size_of to + size_of from - size_of to)) with (length psB) in * by lia.
  assert (HblkB1 : aheap m1 !! stor_begin from = Some slotsB).
  { rewrite Hfah; [done|congruence|done]. }
  destruct (valid_frame m m1 from slotsB psB HvB HblkB1) as [HvB1 HcB1].
  { intros a Ha. apply Hfch. by apply HltB. }
  destruct (decide (e1 = IGRAPH_SUCCESS)) as [->|He1].
  2:{ (* the resize fails *)
    exists e1, v1, m1. split; [|split; [done|split; [done|split; [|split]]]].
    - unfold igraph_strvector_append.
      step ltac:(by apply size_run). step ltac:(by apply size_run).
      step ltac:(apply Hres). simpl. by destruct e1.
    - intros Hg. apply Hgr1. apply (granted_le _ (S (2 * length psB))); [lia|done].
    - done.
    - intros to1 m1' Hres' _. rewrite Hres in Hres'. by injection Hres' as -> _ _. }
  destruct (Hsucc eq_refl) as (qs & Hv1 & Hsz1 & Hok1 & Hqs & Ho1).
  pose proof (valid_size _ _ _ _ Hv1) as Hsz1'. rewrite Hsz1, length_app in Hsz1'.
  assert (Hlqs : length qs = length psB) by lia.
  set (bA := stor_begin v1) in *. set (bB := stor_begin from) in *.
  assert (HneAB : bA ≠ bB) by (destruct Hwhere; lia).
  assert (Hinv0 : appended_inv m m1 bA bB slotsB psA psB 0 m1).
  { split; [done|]. split; [exists 0%nat; split; [lia|done]|].
    split; [done|]. split; [apply (ok_cheap _ Hok1)|]. split; [done|].
    exists qs. split; [apply (valid_block _ _ _ _ Hv1)|]. split; [done|].
    split; [|split; [|split]].
    - pose proof (valid_nodup _ _ _ _ Hv1) as Hnd. by apply NoDup_app in Hnd as (_ & _ & Hnd).
    - intros r Hr. destruct (Hqs r Hr) as [Hge Hb]. split; [done|]. rewrite Hb. eauto.
    - intros j r b Hj. lia.
    - intros j r _ Hr. apply Hqs. by apply list_elem_of_lookup_2 in Hr. }
  destruct (append_loop m m1 bA bB slotsB psA psB from Hok HvB eq_refl HneAB Hinv0)
    as [(m2 & Hloop & Hinv)|(u & m2 & Hloop & Hfail)].
  - (* every copy is made *)
    destruct Hinv as (Ha2 & _ & Hold & _ & HblkB2 & rs & HblkA2 & Hlrs & _ & Hrs & Hdone & _).
    exists IGRAPH_SUCCESS, v1, m2.
    destruct (valid_frame m m2 from slotsB psB HvB HblkB2) as [HvB2 HcB2].
    { intros a Ha. apply Hold. by apply HltB. }
    assert (Hc2 : contents m2 v1 = contents m to ++ contents m from).
    { rewrite (contents_of_slots m2 v1 (Vptr <$> (psA ++ rs)) (psA ++ rs)); try done.
      - rewrite fmap_app, HcA, HcB. f_equal.
        + apply list_fmap_ext. intros i a Hi. unfold string_at.
          rewrite Hold; [done|]. apply HltA. by apply list_elem_of_lookup_2 in Hi.
        + apply list_eq. intros j. rewrite !list_lookup_fmap.
          destruct (rs !! j) as [r|] eqn:Hr.
          * destruct (lookup_lt_is_Some_2 psB j) as [b Hb].
            { apply lookup_lt_Some in Hr. lia. }
            rewrite Hb. simpl. f_equal. apply (Hdone j r b); [|done|done].
            by apply lookup_lt_Some in Hb.
          * rewrite lookup_ge_None_2; [done|]. apply lookup_ge_None_1 in Hr. lia.
      - rewrite Hsz1, length_app. lia.
      - apply take_ge. by rewrite length_fmap. }
    split; [|split; [done|split; [done|split; [done|split]]]].
    + unfold igraph_strvector_append.
      step ltac:(by apply size_run). step ltac:(by apply size_run).
      step ltac:(apply Hres). simpl. rewrite HszA, HszB.
      step ltac:(apply Hloop). done.
    + intros _. split; [done|]. split; [done|]. by apply Hpoint.
    + done.
  - (* a copy is refused: the receiver is cut back *)
    destruct Hfail as (Hng & Hold & HblkB2 & xs & HblkA2 & Hlxs & Hrel & Hxs).
    assert (Hdropxs : take (Z.to_nat (size_of v1 - size_of to))
                        (drop (Z.to_nat (size_of to)) ((Vptr <$> psA) ++ xs)) = xs).
    { rewrite drop_app_length' by (rewrite length_fmap; lia).
      apply take_ge. lia. }
    destruct (resize_shrink m2 v1 ((Vptr <$> psA) ++ xs) (size_of to))
      as (m3 & sl3 & Hres3 & Hsl3 & Htake3 & Hkept3).
    { apply (valid_base _ _ _ _ Hv1). }
    { done. }
    { lia. }
    { rewrite length_app, length_fmap. lia. }
    { by rewrite Hdropxs. }
    rewrite Hdropxs in Hkept3.
    assert (Hkeep : ∀ a, a < cnext m → cheap m3 !! a = cheap m !! a).
    { intros a Ha. rewrite Hkept3; [by apply Hold|].
      intros Hin. apply Hxs in Hin. lia. }
    assert (HblkB3 : aheap m3 !! bB = Some slotsB).
    { rewrite Hsl3. fold bA. by rewrite lookup_insert_ne. }
    destruct (valid_frame m m3 from slotsB psB HvB HblkB3) as [HvB3 HcB3].
    { intros a Ha. apply Hkeep. by apply HltB. }
    exists IGRAPH_ENOMEM, (set_end v1 (stor_begin v1 + size_of to)), m3.
    split; [|split; [done|split; [done|split; [|split]]]].
    + unfold igraph_strvector_append.
      step ltac:(by apply size_run). step ltac:(by apply size_run).
      step ltac:(apply Hres). simpl. rewrite HszA, HszB.
      step ltac:(apply Hloop). rewrite <- HszA.
      step ltac:(apply Hres3). done.
    + intros Hg. destruct Hng.
      apply (granted_drop (S (length psB)) (length psB) m m1); [|done].
      apply (granted_le _ (S (2 * length psB))); [lia|done].
    + done.
    + intros _ _ _ _. split; [done|]. split; [unfold size_of; simpl; lia|].
      rewrite (contents_of_slots m3 _ sl3 psA).
      * rewrite HcA. apply list_fmap_ext. intros i a Hi. unfold string_at.
        rewrite Hkeep; [done|]. apply HltA. by apply list_elem_of_lookup_2 in Hi.
      * simpl. rewrite Hsl3. apply lookup_insert_eq.
      * unfold size_of. simpl. unfold size_of in HszA. lia.
      * replace (length psA) with (Z.to_nat (size_of to)) by lia.
        rewrite Htake3. rewrite take_app_length'; [done|]. rewrite length_fmap. lia.
Qed.

(** C8: for an index in [0, size) of a valid vector, both forms of set
    return; they succeed unless the allocator refuses the reallocation; and
    after a success [igraph_strvector_get] at that index gives a block that
    holds exactly the bytes handed in, followed by the terminator.  For the
    form with a length these are the first [len] bytes of [value], zero bytes
    among them included (the block read as a C string is all of them when none
    is zero); for the zero terminated form, the string [value] starts
    with. *)
Theorem set_then_get (m : mem) (v : igraph_strvector_t) (slots : list cptr)
    (ps : list Z) (idx : Z) :
  valid m v slots ps → 0 ≤ idx < size_of v →
  (∀ value len, 0 ≤ len ≤ Z.of_nat (length value) →
     ∃ e m', igraph_strvector_set2 v idx value len m = Done e m' ∧
       (scheduled m ≠ Fails → e = IGRAPH_SUCCESS) ∧
       (e = IGRAPH_SUCCESS →
        ∃ p, igraph_strvector_get v idx m' = Done p m' ∧
             read_chars p m' = Done (take (Z.to_nat len) value ++ [x00]) m' ∧
             (Forall (fun c => c ≠ x00) (take (Z.to_nat len) value) →
              string_at m' p = Some (take (Z.to_nat len) value)))) ∧
  (∀ value s, cstring value = Some s →
     ∃ e m', igraph_strvector_set v idx value m = Done e m' ∧
       (scheduled m ≠ Fails → e = IGRAPH_SUCCESS) ∧
       (e = IGRAPH_SUCCESS →
        ∃ p, igraph_strvector_get v idx m' = Done p m' ∧
             read_chars p m' = Done (s ++ [x00]) m' ∧
             string_at m' p = Some s)).
Proof.
  intros Hv Hidx. pose proof (valid_base _ _ _ _ Hv) as Hbase. split.
  - intros value len Hlen.
    destruct (set2_run m v slots ps idx Hv Hidx value len Hlen)
      as [[Hf Hrun]|(Hf & m' & a & Hrun & Hslot & Hblk)].
    + exists IGRAPH_ENOMEM, (pop_oracle m). split; [done|]. split; [done|done].
    + exists IGRAPH_SUCCESS, m'. split; [done|]. split; [done|]. intros _.
      exists (Vptr a). split; [|split].
      * rewrite <- (Z2Nat.id idx) by lia. by apply get_run.
      * by apply read_chars_run.
      * intros Hnz. unfold string_at. rewrite Hblk. simpl. by apply cstring_app.
  - intros value s Hcs.
    destruct (set_run m v slots ps idx Hv Hidx value s Hcs)
      as [[Hf Hrun]|(Hf & m' & a & Hrun & Hslot & Hblk)].
    + exists IGRAPH_ENOMEM, (pop_oracle m). split; [done|]. split; [done|done].
    + exists IGRAPH_SUCCESS, m'. split; [done|]. split; [done|]. intros _.
      exists (Vptr a). split; [|split].
      * rewrite <- (Z2Nat.id idx) by lia. by apply get_run.
      * by apply read_chars_run.
      * unfold string_at. rewrite Hblk. simpl. by apply (cstring_terminated value).
Qed.

(** ** The specification on concrete vectors *)

(** [RemoveRange(v, 1, 3)] on ["a"; "b"; "c"; "d"] gives ["a"; "d"]. *)
Lemma remove_section_witness :
  ∃ m', after vec_abcd [] (fun v => igraph_strvector_remove_section v 1 3)
          = Done (mkStrvector 1 5 3) m' ∧
        contents m' (mkStrvector 1 5 3) = [Some (bytes "a"); Some (bytes "d")].
Proof.
  destruct (remove_section_spec (snd (state_of vec_abcd [])) (fst (state_of vec_abcd []))
              [Vptr 1; Vptr 2; Vptr 3; Vptr 4] [1; 2; 3; 4] 1 3)
    as (m' & sl & Hrun & _ & _ & _ & _ & _ & Hc).
  - apply check_valid_sound. by vm_compute.
  - lia.
  - by vm_compute.
  - exists m'. split; [exact Hrun|]. refine (eq_trans Hc _). by vm_compute.
Defined.

(** Both forms of set on element 1 of ["a"; "b"], the form with a length
    with a zero byte inside the value. *)
Lemma set_then_get_witness :
  (∃ m' p, after vec_ab [] (fun v => igraph_strvector_set2 v 1 [x61; x00; x62] 3)
             = Done IGRAPH_SUCCESS m' ∧
           igraph_strvector_get (fst (state_of vec_ab [])) 1 m' = Done p m' ∧
           read_chars p m' = Done [x61; x00; x62; x00] m') ∧
  (∃ m' p, after vec_ab [] (fun v => igraph_strvector_set v 1 (lit "xyz"))
             = Done IGRAPH_SUCCESS m' ∧
           igraph_strvector_get (fst (state_of vec_ab [])) 1 m' = Done p m' ∧
           string_at m' p = Some (bytes "xyz")).
Proof.
  destruct (set_then_get (snd (state_of vec_ab [])) (fst (state_of vec_ab []))
              [Vptr 1; Vptr 2] [1; 2] 1) as [H2 H1].
  - apply check_valid_sound. by vm_compute.
  - by vm_compute.
  - split.
    + destruct (H2 [x61; x00; x62] 3) as (e & m' & Hrun & Hok & Hget); [simpl; lia|].
      assert (He : e = IGRAPH_SUCCESS) by (apply Hok; by vm_compute).
      subst e. destruct (Hget eq_refl) as (p & Hg & Hr & _).
      exists m', p. split; [exact Hrun|]. split; [exact Hg|exact Hr].
    + destruct (H1 (lit "xyz") (bytes "xyz")) as (e & m' & Hrun & Hok & Hget);
        [by vm_compute|].
      assert (He : e = IGRAPH_SUCCESS) by (apply Hok; by vm_compute).
      subst e. destruct (Hget eq_refl) as (p & Hg & _ & Hs).
      exists m', p. split; [exact Hrun|]. split; [exact Hg|exact Hs].
Defined.

(** C4 as stated fails: on the valid vector ["a"] with two
    slots reserved, index 1 is outside [0, size), and both forms of set
    succeed and write slot 1. *)
Lemma set_past_size_counterexample :
  valid (snd (state_of vec_a_spare [])) (fst (state_of vec_a_spare []))
    [Vptr 1; Vnull] [1] ∧
  size_of (fst (state_of vec_a_spare [])) = 1 ∧
  slot_at (snd (state_of vec_a_spare [])) (fst (state_of vec_a_spare [])) 1 = Some Vnull ∧
  (∃ m', after vec_a_spare [] (fun v => igraph_strvector_set2 v 1 (bytes "z") 1)
           = Done IGRAPH_SUCCESS m' ∧
         slot_at m' (fst (state_of vec_a_spare [])) 1 = Some (Vptr 3)) ∧
  (∃ m', after vec_a_spare [] (fun v => igraph_strvector_set v 1 (lit "z"))
           = Done IGRAPH_SUCCESS m' ∧
         slot_at m' (fst (state_of vec_a_spare [])) 1 = Some (Vptr 3)) ∧
  ¬ (∀ m v slots ps idx value len,
       valid m v slots ps → ¬ (0 ≤ idx < size_of v) →
       igraph_strvector_set2 v idx value len m = Done IGRAPH_EINVAL m) ∧
  ¬ (∀ m v slots ps idx value,
       valid m v slots ps → ¬ (0 ≤ idx < size_of v) →
       igraph_strvector_set v idx value m = Done IGRAPH_EINVAL m).
Proof.
  assert (Hv : valid (snd (state_of vec_a_spare [])) (fst (state_of vec_a_spare []))
                 [Vptr 1; Vnull] [1]).
  { apply check_valid_sound. by vm_compute. }
  assert (Hout : ¬ (0 ≤ 1 < size_of (fst (state_of vec_a_spare [])))).
  { intros [_ H]. by vm_compute in H. }
  split; [done|]. split; [by vm_compute|]. split; [by vm_compute|].
  split; [eexists; split; [vm_compute; reflexivity|by vm_compute]|].
  split; [eexists; split; [vm_compute; reflexivity|by vm_compute]|].
  split.
  - intros H.
    pose proof (H (snd (state_of vec_a_spare [])) (fst (state_of vec_a_spare []))
                  [Vptr 1; Vnull] [1] 1 (bytes "z") 1 Hv Hout) as H1.
    vm_compute in H1. discriminate H1.
  - intros H.
    pose proof (H (snd (state_of vec_a_spare [])) (fst (state_of vec_a_spare []))
                  [Vptr 1; Vnull] [1] 1 (lit "z") Hv Hout) as H1.
    vm_compute in H1. discriminate H1.
Qed.

(** The index check on ["a"; "b"]: the form with a length refuses index 5
    and not index 0; the zero terminated form does not refuse index 5. *)
Lemma set_index_check_witness :
  after vec_ab [] (fun v => igraph_strvector_set2 v 5 (bytes "z") 1)
    = Done IGRAPH_EINVAL (snd (state_of vec_ab [])) ∧
  (∀ m', after vec_ab [] (fun v => igraph_strvector_set v 5 (lit "z"))
         ≠ Done IGRAPH_EINVAL m') ∧
  (∃ e m', after vec_ab [] (fun v => igraph_strvector_set2 v 0 (bytes "z") 1) = Done e m'
           ∧ e ≠ IGRAPH_EINVAL) ∧
  (∃ e m', after vec_ab [] (fun v => igraph_strvector_set v 0 (lit "z")) = Done e m'
           ∧ e ≠ IGRAPH_EINVAL).
Proof.
  assert (Hv : valid (snd (state_of vec_ab [])) (fst (state_of vec_ab []))
                 [Vptr 1; Vptr 2] [1; 2]).
  { apply check_valid_sound. by vm_compute. }
  split; [|split; [|split]].
  - destruct (set_index_check _ _ _ _ 5 Hv) as (Hout & _ & _).
    apply Hout. right. by vm_compute.
  - destruct (set_index_check _ _ _ _ 5 Hv) as (_ & Hnever & _).
    intros m'. apply Hnever.
  - destruct (set_index_check _ _ _ _ 0 Hv) as (_ & _ & Hin).
    destruct (Hin ltac:(by vm_compute)) as [H2 _]. apply H2. simpl. lia.
  - destruct (set_index_check _ _ _ _ 0 Hv) as (_ & _ & Hin).
    destruct (Hin ltac:(by vm_compute)) as [_ H1]. apply (H1 _ (bytes "z")). by vm_compute.
Defined.

(** C5 as stated fails: copying elements 0 and 1 of the valid
    vector ["a"; "b"; "c"] to position 1 leaves "a", not "b", in source
    slot 1. *)
Lemma move_interval_overlap_counterexample :
  valid (snd (state_of vec_abc [])) (fst (state_of vec_abc []))
    [Vptr 1; Vptr 2; Vptr 3] [1; 2; 3] ∧
  element (snd (state_of vec_abc [])) (fst (state_of vec_abc [])) 1 = Some (bytes "b") ∧
  (∃ m', after vec_abc [] (fun v => igraph_strvector_move_interval v 0 2 1) = Done tt m' ∧
         element m' (fst (state_of vec_abc [])) 1 = Some (bytes "a") ∧
         contents m' (fst (state_of vec_abc []))
           = [Some (bytes "a"); Some (bytes "a"); Some (bytes "a")]) ∧
  ¬ (∀ m v slots ps begin end' to m',
       mem_ok m → valid m v slots ps →
       0 ≤ begin ≤ end' → end' ≤ size_of v →
       0 ≤ to → to + (end' - begin) ≤ size_of v →
       igraph_strvector_move_interval v begin end' to m = Done tt m' →
       ∀ i, begin ≤ i < end' → element m' v (Z.to_nat i) = element m v (Z.to_nat i)).
Proof.
  assert (Hv : valid (snd (state_of vec_abc [])) (fst (state_of vec_abc []))
                 [Vptr 1; Vptr 2; Vptr 3] [1; 2; 3]).
  { apply check_valid_sound. by vm_compute. }
  assert (Hrun : ∃ m', after vec_abc [] (fun v => igraph_strvector_move_interval v 0 2 1)
                         = Done tt m' ∧
                       element m' (fst (state_of vec_abc [])) 1 = Some (bytes "a") ∧
                       contents m' (fst (state_of vec_abc []))
                         = [Some (bytes "a"); Some (bytes "a"); Some (bytes "a")]).
  { eexists. split; [vm_compute; reflexivity|]. split; by vm_compute. }
  split; [done|]. split; [by vm_compute|]. split; [done|].
  intros H. destruct Hrun as (m' & Hrun & He & _).
  assert (Hok : mem_ok (snd (state_of vec_abc []))).
  { apply check_mem_ok_sound. by vm_compute. }
  assert (Hsz : size_of (fst (state_of vec_abc [])) = 3) by (by vm_compute).
  pose proof (H (snd (state_of vec_abc [])) (fst (state_of vec_abc []))
                [Vptr 1; Vptr 2; Vptr 3] [1; 2; 3] 0 2 1 m' Hok Hv
                ltac:(lia) ltac:(lia) ltac:(lia) ltac:(lia) Hrun 1 ltac:(lia)) as H1.
  change (Z.to_nat 1) with 1%nat in H1. rewrite He in H1.
  assert (Hb : element (snd (state_of vec_abc [])) (fst (state_of vec_abc [])) 1
               = Some (bytes "b")) by (by vm_compute).
  rewrite Hb in H1. vm_compute in H1. discriminate H1.
Qed.

(** Copying elements 0 and 1 of ["a"; "b"; "c"; "d"] to positions 2 and 3. *)
Lemma move_interval_witness :
  ∃ m', after vec_abcd [] (fun v => igraph_strvector_move_interval v 0 2 2) = Done tt m' ∧
        element m' (fst (state_of vec_abcd [])) 0 = Some (bytes "a") ∧
        element m' (fst (state_of vec_abcd [])) 1 = Some (bytes "b") ∧
        element m' (fst (state_of vec_abcd [])) 2 = Some (bytes "a") ∧
        element m' (fst (state_of vec_abcd [])) 3 = Some (bytes "b").
Proof.
  destruct (move_interval_disjoint (snd (state_of vec_abcd [])) (fst (state_of vec_abcd []))
              [Vptr 1; Vptr 2; Vptr 3; Vptr 4] [1; 2; 3; 4] 0 2 2)
    as (m' & Hrun & Hsrc & Hdst).
  - apply check_mem_ok_sound. by vm_compute.
  - apply check_valid_sound. by vm_compute.
  - lia.
  - by vm_compute.
  - lia.
  - by vm_compute.
  - left. lia.
  - apply granted_nil. by vm_compute.
  - exists m'. split; [exact Hrun|].
    destruct (Hsrc 0 ltac:(lia)) as (_ & H0 & _).
    destruct (Hsrc 1 ltac:(lia)) as (_ & H1 & _).
    pose proof (Hdst 0 ltac:(lia)) as H2. pose proof (Hdst 1 ltac:(lia)) as H3.
    split; [refine (eq_trans H0 _); by vm_compute|].
    split; [refine (eq_trans H1 _); by vm_compute|].
    split; [refine (eq_trans H2 _); by vm_compute|refine (eq_trans H3 _); by vm_compute].
Defined.

(** C2 as stated fails: with the mapping [2; 1] on the valid
    vector ["a"; "b"], element 1 is to go to slot 0, but slot 0 ends with the
    pointer of element 0, and so does slot 1. *)
Lemma permdelete_swap_counterexample :
  valid (snd (state_of vec_ab [])) (fst (state_of vec_ab [])) [Vptr 1; Vptr 2] [1; 2] ∧
  (∃ v' m', after vec_ab [] (fun v => igraph_strvector_permdelete v [2; 1] 0) = Done v' m' ∧
            slot_at m' v' 0 = Some (Vptr 1) ∧
            contents m' v' = [Some (bytes "a"); Some (bytes "a")]) ∧
  ¬ (∀ m v slots ps index nremove v' m',
       mem_ok m → valid m v slots ps → length index = length ps →
       igraph_strvector_permdelete v index nremove m = Done v' m' →
       ∀ i a p, ps !! i = Some a → index !! i = Some p → p ≠ 0 →
         slot_at m' v' (Z.to_nat (p - 1)) = Some (Vptr a)).
Proof.
  assert (Hv : valid (snd (state_of vec_ab [])) (fst (state_of vec_ab []))
                 [Vptr 1; Vptr 2] [1; 2]).
  { apply check_valid_sound. by vm_compute. }
  assert (Hrun : ∃ v' m', after vec_ab [] (fun v => igraph_strvector_permdelete v [2; 1] 0)
                            = Done v' m' ∧
                          slot_at m' v' 0 = Some (Vptr 1) ∧
                          contents m' v' = [Some (bytes "a"); Some (bytes "a")]).
  { eexists _, _. split; [vm_compute; reflexivity|]. split; by vm_compute. }
  split; [done|]. split; [done|].
  intros H. destruct Hrun as (v' & m' & Hrun & Hs & _).
  assert (Hok : mem_ok (snd (state_of vec_ab []))).
  { apply check_mem_ok_sound. by vm_compute. }
  pose proof (H (snd (state_of vec_ab [])) (fst (state_of vec_ab []))
                [Vptr 1; Vptr 2] [1; 2] [2; 1] 0 v' m' Hok Hv eq_refl Hrun
                1%nat 2 1 eq_refl eq_refl ltac:(lia)) as H1.
  change (Z.to_nat (1 - 1)) with 0%nat in H1. rewrite Hs in H1. discriminate H1.
Qed.

(** [PermutationCompact] on ["a"; "b"; "c"; "d"] with [1; 0; 2; 0] and two
    removals gives the two element vector ["a"; "c"]. *)
Lemma permdelete_witness :
  ∃ v' m', after vec_abcd [] (fun v => igraph_strvector_permdelete v [1; 0; 2; 0] 2)
             = Done v' m' ∧
           size_of v' = 2 ∧
           slot_at m' v' 0 = Some (Vptr 1) ∧ slot_at m' v' 1 = Some (Vptr 3) ∧
           cheap m' !! 2 = None ∧ cheap m' !! 4 = None ∧
           contents m' v' = [Some (bytes "a"); Some (bytes "c")].
Proof.
  destruct (permdelete_compacting (snd (state_of vec_abcd [])) (fst (state_of vec_abcd []))
              [Vptr 1; Vptr 2; Vptr 3; Vptr 4] [1; 2; 3; 4] [1; 0; 2; 0] 2)
    as (v' & m' & Hrun & Hsize & Hrel & Hmov).
  - apply check_mem_ok_sound. by vm_compute.
  - apply check_valid_sound. by vm_compute.
  - apply check_compacting_sound. by vm_compute.
  - exists v', m'. split; [exact Hrun|].
    split; [refine (eq_trans (Hsize ltac:(by vm_compute)) _); by vm_compute|].
    destruct (Hmov 0%nat 1 1 eq_refl eq_refl ltac:(lia)) as [H0 _].
    destruct (Hmov 2%nat 3 2 eq_refl eq_refl ltac:(lia)) as [H2 _].
    split; [exact H0|]. split; [exact H2|].
    split; [exact (Hrel 1%nat 2 eq_refl eq_refl)|].
    split; [exact (Hrel 3%nat 4 eq_refl eq_refl)|].
    assert (Heq : after vec_abcd [] (fun v => igraph_strvector_permdelete v [1; 0; 2; 0] 2)
                  = Done v' m') by exact Hrun.
    vm_compute in Heq. injection Heq as <- <-. by vm_compute.
Defined.

(** Appending [""; "d"] to ["a"; "b"]: with every allocation granted, and
    with the copy of "d" refused. *)
Lemma append_witness :
  (∃ to' m', igraph_strvector_append (fst (fst (two_vectors []))) (snd (fst (two_vectors [])))
               (snd (two_vectors [])) = Done (IGRAPH_SUCCESS, to') m' ∧
             size_of to' = 4 ∧
             contents m' to'
               = [Some (bytes "a"); Some (bytes "b"); Some (bytes ""); Some (bytes "d")] ∧
             contents m' (snd (fst (two_vectors []))) = [Some (bytes ""); Some (bytes "d")]) ∧
  (∃ to' m', igraph_strvector_append
               (fst (fst (two_vectors [InPlace; InPlace; InPlace; Fails])))
               (snd (fst (two_vectors [InPlace; InPlace; InPlace; Fails])))
               (snd (two_vectors [InPlace; InPlace; InPlace; Fails]))
             = Done (IGRAPH_ENOMEM, to') m' ∧
             size_of to' = 2 ∧
             contents m' to' = [Some (bytes "a"); Some (bytes "b")] ∧
             contents m' (snd (fst (two_vectors [InPlace; InPlace; InPlace; Fails])))
               = [Some (bytes ""); Some (bytes "d")]).
Proof.
  split.
  - destruct (append_spec (snd (two_vectors [])) (fst (fst (two_vectors [])))
                (snd (fst (two_vectors []))) [Vptr 1; Vptr 2] [1; 2] [Vptr 3; Vptr 4] [3; 4])
      as (e & to' & m' & Hrun & _ & HcB & Hgr & Hok & _).
    + apply check_mem_ok_sound. by vm_compute.
    + apply check_valid_sound. by vm_compute.
    + apply check_valid_sound. by vm_compute.
    + by vm_compute.
    + assert (He : e = IGRAPH_SUCCESS).
      { apply Hgr. apply granted_nil. by vm_compute. }
      subst e. destruct (Hok eq_refl) as (Hsz & Hc & _).
      exists to', m'. split; [exact Hrun|]. split; [refine (eq_trans Hsz _); by vm_compute|].
      split; [refine (eq_trans Hc _); by vm_compute|refine (eq_trans HcB _); by vm_compute].
  - destruct (append_spec (snd (two_vectors [InPlace; InPlace; InPlace; Fails]))
                (fst (fst (two_vectors [InPlace; InPlace; InPlace; Fails])))
                (snd (fst (two_vectors [InPlace; InPlace; InPlace; Fails])))
                [Vptr 1; Vptr 2] [1; 2] [Vptr 3; Vptr 4] [3; 4])
      as (e & to' & m' & Hrun & _ & HcB & _ & _ & Hfail).
    + apply check_mem_ok_sound. by vm_compute.
    + apply check_valid_sound. by vm_compute.
    + apply check_valid_sound. by vm_compute.
    + by vm_compute.
    + assert (He : e ≠ IGRAPH_SUCCESS).
      { intros ->. vm_compute in Hrun. discriminate Hrun. }
      assert (Hres : ∃ to1 m1,
                igraph_strvector_resize
                  (fst (fst (two_vectors [InPlace; InPlace; InPlace; Fails])))
                  (size_of (fst (fst (two_vectors [InPlace; InPlace; InPlace; Fails])))
                   + size_of (snd (fst (two_vectors [InPlace; InPlace; InPlace; Fails]))))
                  (snd (two_vectors [InPlace; InPlace; InPlace; Fails]))
                = Done (IGRAPH_SUCCESS, to1) m1).
      { eexists _, _. vm_compute. reflexivity. }
      destruct Hres as (to1 & m1 & Hres).
      destruct (Hfail to1 m1 Hres He) as (-> & Hsz & Hc).
      exists to', m'. split; [exact Hrun|]. split; [refine (eq_trans Hsz _); by vm_compute|].
      split; [refine (eq_trans Hc _); by vm_compute|refine (eq_trans HcB _); by vm_compute].
Defined.

(** ** Where the code departs from the specification *)

(** C1: on the valid vector ["x"], which has no spare slot, an [Add] whose
    grow is granted and whose copy of the value is refused answers
    [IGRAPH_ENOMEM] with the size gone from 1 to 2 and a null pointer in live
    slot 1, on which the assertion of [igraph_strvector_get] fails.  When the
    grow itself is refused its error is dropped, and the function goes on to
    write past the slot array. *)
Theorem add_failure_changes_size :
  valid (snd (state_of vec_x [InPlace; InPlace; Fails]))
    (fst (state_of vec_x [InPlace; InPlace; Fails])) [Vptr 1] [1] ∧
  size_of (fst (state_of vec_x [InPlace; InPlace; Fails])) = 1 ∧
  (∃ v' m', after vec_x [InPlace; InPlace; Fails]
              (fun v => igraph_strvector_add v (lit "a")) = Done (IGRAPH_ENOMEM, v') m' ∧
            size_of v' = 2 ∧
            slot_at m' v' 1 = Some Vnull ∧
            contents m' v' = [Some (bytes "x"); None] ∧
            igraph_strvector_get v' 1 m' = Fault AssertionFailed) ∧
  after vec_x [Fails] (fun v => igraph_strvector_add v (lit "a")) = Fault InvalidAccess.
Proof.
  split; [apply check_valid_sound; by vm_compute|].
  split; [by vm_compute|]. split; [|by vm_compute].
  eexists _, _. split; [vm_compute; reflexivity|].
  split; [|split; [|split]]; by vm_compute.
Qed.

(** C3: growing the valid vector ["x"] to size 3 with the block for slot 2
    refused answers [IGRAPH_ENOMEM]; the block made for slot 1 in this call
    is still live, the size is 3, and live slot 2 is null, so that the
    assertion of [igraph_strvector_get] fails on it. *)
Theorem resize_failure_keeps_slots :
  valid (snd (state_of vec_x [InPlace; InPlace; Fails]))
    (fst (state_of vec_x [InPlace; InPlace; Fails])) [Vptr 1] [1] ∧
  ∃ v' m', after vec_x [InPlace; InPlace; Fails] (fun v => igraph_strvector_resize v 3)
             = Done (IGRAPH_ENOMEM, v') m' ∧
           size_of v' = 3 ∧
           slot_at m' v' 1 = Some (Vptr 2) ∧ cheap m' !! 2 = Some [x00] ∧
           slot_at m' v' 2 = Some Vnull ∧
           contents m' v' = [Some (bytes "x"); Some []; None] ∧
           igraph_strvector_get v' 2 m' = Fault AssertionFailed.
Proof.
  split; [apply check_valid_sound; by vm_compute|].
  eexists _, _. split; [vm_compute; reflexivity|].
  split; [|split; [|split; [|split; [|split]]]]; by vm_compute.
Qed.

(** C9: [Initialize] with size 2 on a zeroed struct, in the empty memory,
    the block for slot 1 refused, answers [IGRAPH_ENOMEM]; the slot array is
    released, and the block allocated for slot 0 is still live, with nothing
    left that leads to it. *)
Theorem init_failure_leaks :
  ∃ v' m', igraph_strvector_init (mkStrvector 0 0 0) 2 (empty_mem [InPlace; InPlace; Fails])
             = Done (IGRAPH_ENOMEM, v') m' ∧
           map_to_list (cheap m') = [(1, [x00])] ∧
           map_to_list (aheap m') = [].
Proof.
  eexists _, _. split; [vm_compute; reflexivity|]. split; by vm_compute.
Qed.

(** C10: on the valid vector ["a"; "b"; "c"; "d"], whose pointers are in
    order, [PermutationCompact] with a final [realloc] that moves the array
    returns with [stor_begin] in the new array and [end] and [stor_end] still
    in the old one: [stor_begin <= end] no longer holds. *)
Theorem permdelete_breaks_order :
  valid (snd (state_of vec_abcd [Moves])) (fst (state_of vec_abcd [Moves]))
    [Vptr 1; Vptr 2; Vptr 3; Vptr 4] [1; 2; 3; 4] ∧
  ordered (fst (state_of vec_abcd [Moves])) ∧
  ∃ v' m', after vec_abcd [Moves] (fun v => igraph_strvector_permdelete v [1; 0; 2; 0] 2)
             = Done v' m' ∧
           v' = mkStrvector 5 3 3 ∧ ¬ ordered v'.
Proof.
  split; [apply check_valid_sound; by vm_compute|].
  split; [by vm_compute|].
  eexists _, _. split; [vm_compute; reflexivity|]. split; [done|].
  unfold ordered. simpl. lia.
Qed.
(** ** Releasing, clearing and destroying *)

Lemma for_loop_no_exit {R} (I : nat → mem → Prop) (n : nat) (lo : Z)
    (body : Z → M (option R)) (m : mem) :
  I 0%nat m →
  (∀ k m1, (k < n)%nat → I k m1 →
     ∃ m2, body (lo + Z.of_nat k) m1 = Done None m2 ∧ I (S k) m2) →
  ∃ m', for_loop n lo body m = Done None m' ∧ I n m'.
Proof.
  intros H0 Hstep.
  destruct (for_loop_inv I (fun _ _ => False) n lo body m H0) as [H|(r & m' & _ & [])].
  - intros k m1 Hk HI. left. by apply Hstep.
  - done.
Qed.

Lemma for_each_shift (n : nat) (lo lo' : Z) (body body' : Z → M unit) (m : mem) :
  (∀ k m1, (k < n)%nat → body (lo + Z.of_nat k) m1 = body' (lo' + Z.of_nat k) m1) →
  for_each n lo body m = for_each n lo' body' m.
Proof.
  revert lo lo' m. induction n as [|n IH]; intros lo lo' m H; simpl; [done|].
  unfold bind. pose proof (H 0%nat m ltac:(lia)) as H0. rewrite !Z.add_0_r in H0.
  rewrite H0. destruct (body' lo' m) as [[] m1|f]; [|done].
  apply IH. intros k m2 Hk. specialize (H (S k) m2 ltac:(lia)).
  replace (lo + 1 + Z.of_nat k) with (lo + Z.of_nat (S k)) by lia.
  replace (lo' + 1 + Z.of_nat k) with (lo' + Z.of_nat (S k)) by lia. done.
Qed.

Lemma free_loop (m : mem) (b : Z) (sl : list cptr) (ns n : nat) :
  aheap m !! b = Some sl → (ns + n ≤ length sl)%nat →
  releasable m (take n (drop ns sl)) →
  ∃ m2, for_each n (Z.of_nat ns) (fun i => IGRAPH_FREE_slot b i) m = Done tt m2 ∧
        freed_inv m b ns sl (take n (drop ns sl)) n m2.
Proof.
  intros Hblk Hlen Hrel. set (xs := take n (drop ns sl)) in *.
  apply for_each_inv.
  - split.
    + split; [done|]. split; [done|]. split; [done|]. split; [done|].
      exists sl. split; [|split; [done|]].
      * symmetry. by apply insert_id.
      * intros i. case_decide; [lia|done].
    + intros a Ha. rewrite take_0 in Ha. by apply elem_of_nil in Ha.
  - intros k m2 Hk [(Hc & Ha & Ho & Hkept & sl2 & Hsl2 & Hl2 & Hpt) Hgone].
    assert (Hblk2 : aheap m2 !! b = Some sl2) by (rewrite Hsl2; apply lookup_insert_eq).
    destruct (lookup_lt_is_Some_2 sl (ns + k)) as [p Hp]; [lia|].
    assert (Hxs : xs !! k = Some p).
    { unfold xs. rewrite lookup_take_lt by done. by rewrite lookup_drop. }
    assert (Hslot : sl2 !! (ns + k)%nat = Some p).
    { rewrite Hpt. case_decide; [lia|done]. }
    assert (Htk : take (S k) xs = take k xs ++ [p]) by (by apply take_S_r).
    assert (Hix : Z.to_nat (Z.of_nat ns + Z.of_nat k) = (ns + k)%nat) by lia.
    assert (Hsl : ∀ m3, aheap m3 = <[b := <[(ns + k)%nat := Vnull]> sl2]> (aheap m2) →
              ∃ sl3, aheap m3 = <[b := sl3]> (aheap m) ∧ length sl3 = length sl ∧
                ∀ i, sl3 !! i = if decide (ns ≤ i < ns + S k)%nat
                                then Some Vnull else sl !! i).
    { intros m3 H5. exists (<[(ns + k)%nat := Vnull]> sl2). split; [|split].
      - rewrite H5, Hsl2. apply insert_insert_eq.
      - by rewrite length_insert.
      - intros i. destruct (decide (i = ns + k)%nat) as [->|Hne].
        + rewrite list_lookup_insert_eq by lia. case_decide; [done|lia].
        + rewrite list_lookup_insert_ne by done. rewrite Hpt.
          repeat case_decide; try done; lia. }
    destruct (Hrel k p Hxs) as [->|(q & -> & Hlive & Honce)].
    + eexists. split.
      { eapply (free_slot_null_run b _ m2 sl2); [done|lia|by rewrite Hix]. }
      rewrite Hix. split.
      * split; [done|]. split; [done|]. split; [done|]. split; [|by apply Hsl].
        intros a Hnot. simpl. apply Hkept. intros Hin. apply Hnot. rewrite Htk.
        apply elem_of_app. by left.
      * intros a Hin. simpl. rewrite Htk in Hin. apply elem_of_app in Hin as [Hin|Hin].
        -- by apply Hgone.
        -- by apply list_elem_of_singleton in Hin.
    + assert (Hq : Vptr q ∉ take k xs).
      { intros Hin. apply elem_of_take in Hin as (j & Hj & Hjk).
        apply Honce in Hj. lia. }
      eexists. split.
      { eapply (free_slot_run b _ q m2 sl2); [done|lia|by rewrite Hix|].
        by rewrite (Hkept q Hq). }
      rewrite Hix. split.
      * split; [done|]. split; [done|]. split; [done|]. split; [|by apply Hsl].
        intros a Hnot. simpl. rewrite Htk in Hnot. rewrite lookup_delete_ne.
        -- apply Hkept. intros Hin. apply Hnot, elem_of_app. by left.
        -- intros ->. apply Hnot, elem_of_app. right. by apply list_elem_of_singleton.
      * intros a Hin. simpl. rewrite Htk in Hin. apply elem_of_app in Hin as [Hin|Hin].
        -- destruct (decide (q = a)) as [->|Hne]; [apply lookup_delete_eq|].
           rewrite lookup_delete_ne by done. by apply Hgone.
        -- apply list_elem_of_singleton in Hin. injection Hin as ->.
           apply lookup_delete_eq.
Qed.

(** The live slots of a valid vector can be released. *)
Lemma valid_releasable m v slots ps (ns n : nat) :
  valid m v slots ps → (ns + n ≤ length ps)%nat →
  releasable m (take n (drop ns slots)) ∧
  take n (drop ns slots) = Vptr <$> take n (drop ns ps).
Proof.
  intros Hv Hle.
  assert (Heq : take n (drop ns slots) = Vptr <$> take n (drop ns ps)).
  { apply list_eq. intros i. rewrite list_lookup_fmap.
    destruct (decide (i < n)%nat) as [Hi|Hi].
    - rewrite !lookup_take_lt by done. rewrite !lookup_drop.
      destruct (lookup_lt_is_Some_2 ps (ns + i)) as [a Ha]; [lia|].
      rewrite Ha. simpl. by apply (valid_slot m v slots ps).
    - by rewrite !lookup_take_ge by lia. }
  split; [|done]. rewrite Heq. intros i p Hp. rewrite list_lookup_fmap in Hp.
  destruct (take n (drop ns ps) !! i) as [a|] eqn:Ha; [|done]. injection Hp as <-.
  right. exists a. split; [done|].
  assert (Hin : a ∈ ps).
  { apply list_elem_of_lookup_2 in Ha. apply elem_of_take in Ha as (j & Hj & _).
    rewrite lookup_drop in Hj. by apply list_elem_of_lookup_2 in Hj. }
  split; [by apply (valid_live_block m v slots ps)|].
  intros j Hj. rewrite list_lookup_fmap in Hj.
  destruct (take n (drop ns ps) !! j) as [a'|] eqn:Ha'; [|done]. injection Hj as ->.
  assert (Hnd : NoDup (take n (drop ns ps))).
  { apply (sublist_NoDup _ ps); [apply (valid_nodup _ _ _ _ Hv)|].
    etrans; [apply sublist_take|apply sublist_drop]. }
  by apply (NoDup_lookup _ j i a Hnd).
Qed.

(** ** Releasing elements of a valid vector *)

Section release_tail.
Context (m : mem) (v : igraph_strvector_t) (slots : list cptr) (ps : list Z).
Context (ns : nat).
Hypothesis Hv : valid m v slots ps.
Hypothesis Hns : (ns ≤ length ps)%nat.

(** Releasing the elements from [ns] on, as [igraph_strvector_resize],
    [igraph_strvector_clear] and [igraph_strvector_destroy] do. *)
Lemma release_tail :
  ∃ m2 sl2,
    for_each (length ps - ns) (Z.of_nat ns)
      (fun i => IGRAPH_FREE_slot (stor_begin v) i) m = Done tt m2 ∧
    cnext m2 = cnext m ∧ anext m2 = anext m ∧ oracle m2 = oracle m ∧
    aheap m2 = <[stor_begin v := sl2]> (aheap m) ∧ length sl2 = length slots ∧
    take ns sl2 = take ns slots ∧
    (∀ i, (ns ≤ i < length ps)%nat → sl2 !! i = Some Vnull) ∧
    (∀ a, a ∈ drop ns ps → cheap m2 !! a = None) ∧
    (∀ a, a ∉ drop ns ps → cheap m2 !! a = cheap m !! a) ∧
    valid m2 (set_end v (stor_begin v + Z.of_nat ns)) sl2 (take ns ps) ∧
    contents m2 (set_end v (stor_begin v + Z.of_nat ns)) = take ns (contents m v).
Proof.
  pose proof (valid_length _ _ _ _ Hv) as Hlen.
  pose proof (valid_size _ _ _ _ Hv) as Hsz.
  pose proof (valid_cap _ _ _ _ Hv) as Hcap.
  destruct (valid_releasable m v slots ps ns (length ps - ns) Hv ltac:(lia)) as [Hrel Hxs].
  destruct (free_loop m (stor_begin v) slots ns (length ps - ns)
              (valid_block _ _ _ _ Hv) ltac:(lia) Hrel)
    as (m2 & Hrun & (Hc & Ha & Ho & Hkept & sl2 & Hsl2 & Hl2 & Hpt) & Hgone).
  rewrite take_take, Nat.min_id, Hxs in Hkept, Hgone.
  rewrite take_ge in Hkept, Hgone by (rewrite length_drop; lia).
  assert (Hgone' : ∀ a, a ∈ drop ns ps → cheap m2 !! a = None).
  { intros a Hin. apply Hgone. by apply list_elem_of_fmap_2. }
  assert (Hkept' : ∀ a, a ∉ drop ns ps → cheap m2 !! a = cheap m !! a).
  { intros a Hnin. apply Hkept. intros Hin. apply Hnin.
    apply list_elem_of_fmap in Hin as (a' & [= ->] & Hin). done. }
  assert (Htake : take ns sl2 = take ns slots).
  { apply list_eq. intros i. destruct (decide (i < ns)%nat).
    - rewrite !lookup_take_lt by done. rewrite Hpt. case_decide; [lia|done].
    - by rewrite !lookup_take_ge by lia. }
  assert (Hnull : ∀ i, (ns ≤ i < length ps)%nat → sl2 !! i = Some Vnull).
  { intros i Hi. rewrite Hpt. case_decide; [done|lia]. }
  assert (Hnd : NoDup (take ns ps ++ drop ns ps)).
  { rewrite take_drop. apply (valid_nodup _ _ _ _ Hv). }
  apply NoDup_app in Hnd as (Hnd1 & Hdisj & _).
  assert (Hv2 : valid m2 (set_end v (stor_begin v + Z.of_nat ns)) sl2 (take ns ps)).
  { split; simpl.
    - apply (valid_base _ _ _ _ Hv).
    - rewrite Hsl2. apply lookup_insert_eq.
    - unfold size_of. simpl. rewrite length_take. lia.
    - unfold size_of, capacity_of in *. simpl. lia.
    - rewrite length_take, Nat.min_l by lia. rewrite Htake.
      replace (take ns slots) with (take ns (take (length ps) slots))
        by (rewrite take_take; f_equal; lia).
      rewrite (valid_live _ _ _ _ Hv). by rewrite fmap_take.
    - done.
    - intros a Hin. rewrite Hkept' by (by apply Hdisj).
      apply (valid_strings _ _ _ _ Hv). apply elem_of_take in Hin as (i & Hi & _).
      by apply list_elem_of_lookup_2 in Hi. }
  exists m2, sl2. repeat (split; [done|]).
  rewrite (valid_contents _ _ _ _ Hv2), (valid_contents _ _ _ _ Hv), <- fmap_take.
  apply list_fmap_ext. intros i a Hi. unfold string_at. rewrite Hkept'; [done|].
  apply Hdisj. by apply list_elem_of_lookup_2 in Hi.
Qed.

End release_tail.


(** Shrinking with [igraph_strvector_resize] on a valid vector. *)
Lemma resize_shrink_valid (m : mem) (v : igraph_strvector_t) (slots : list cptr)
    (ps : list Z) (newsize : Z) :
  valid m v slots ps → 0 ≤ newsize < size_of v →
  ∃ m' slots',
    igraph_strvector_resize v newsize m
      = Done (IGRAPH_SUCCESS, set_end v (stor_begin v + newsize)) m' ∧
    valid m' (set_end v (stor_begin v + newsize)) slots' (take (Z.to_nat newsize) ps) ∧
    size_of (set_end v (stor_begin v + newsize)) = newsize ∧
    capacity_of (set_end v (stor_begin v + newsize)) = capacity_of v ∧
    contents m' (set_end v (stor_begin v + newsize))
      = take (Z.to_nat newsize) (contents m v) ∧
    (∀ a, a ∈ drop (Z.to_nat newsize) ps → cheap m' !! a = None) ∧
    (∀ a, a ∉ drop (Z.to_nat newsize) ps → cheap m' !! a = cheap m !! a) ∧
    cnext m' = cnext m ∧ anext m' = anext m ∧ oracle m' = oracle m ∧
    (∀ b, b ≠ stor_begin v → aheap m' !! b = aheap m !! b) ∧
    (∀ i, newsize ≤ i < size_of v →
       slot_at m' (set_end v (stor_begin v + newsize)) (Z.to_nat i) = Some Vnull).
Proof.
  intros Hv Hnew. pose proof (valid_size _ _ _ _ Hv) as Hsz.
  pose proof (valid_base _ _ _ _ Hv) as Hbase.
  destruct (release_tail m v slots ps (Z.to_nat newsize) Hv ltac:(lia))
    as (m2 & sl2 & Hrun & Hc & Ha & Ho & Hsl2 & Hl2 & _ & Hnull & Hgone & Hkept & Hv2 & Hc2).
  rewrite Z2Nat.id in Hrun, Hv2, Hc2 by lia.
  exists m2, sl2. split; [|split; [done|split; [|split; [done|split; [done|]]]]].
  - unfold igraph_strvector_resize.
    step ltac:(by apply size_run). simpl.
    step ltac:(by apply size_run). step ltac:(by apply assert_base).
    destruct (Z.ltb_spec newsize (size_of v)); [|lia].
    unfold for_all.
    replace (Z.to_nat (size_of v - newsize)) with (length ps - Z.to_nat newsize)%nat by lia.
    step ltac:(apply Hrun). done.
  - unfold size_of. simpl. lia.
  - repeat (split; [done|]). split.
    + intros b Hb. rewrite Hsl2. by rewrite lookup_insert_ne.
    + intros i Hi. unfold slot_at. simpl. rewrite Hsl2, lookup_insert_eq. simpl.
      apply Hnull. lia.
Qed.

Lemma free_slots_run (b : Z) (m : mem) :
  is_Some (aheap m !! b) →
  free_slots b m
  = Done tt (mkMem (cheap m) (delete b (aheap m)) (cnext m) (anext m) (oracle m)).
Proof. intros [sl Hb]. unfold free_slots. by rewrite Hb. Qed.

(** [igraph_strvector_destroy] on a valid vector. *)
Lemma destroy_valid (m : mem) (v : igraph_strvector_t) (slots : list cptr) (ps : list Z) :
  valid m v slots ps → 0 < stor_begin v →
  ∃ m', igraph_strvector_destroy v m = Done (set_stor_begin v 0) m' ∧
    aheap m' = delete (stor_begin v) (aheap m) ∧
    (∀ a, a ∈ ps → cheap m' !! a = None) ∧
    (∀ a, a ∉ ps → cheap m' !! a = cheap m !! a) ∧
    cnext m' = cnext m ∧ anext m' = anext m ∧ oracle m' = oracle m ∧
    igraph_strvector_destroy (set_stor_begin v 0) m' = Fault AssertionFailed.
Proof.
  intros Hv Hpos. pose proof (valid_size _ _ _ _ Hv) as Hsz.
  pose proof (valid_base _ _ _ _ Hv) as Hbase. unfold size_of in Hsz.
  destruct (release_tail m v slots ps 0 Hv ltac:(lia))
    as (m2 & sl2 & Hrun & Hc & Ha & Ho & Hsl2 & Hl2 & _ & _ & Hgone & Hkept & _ & _).
  rewrite Nat.sub_0_r in Hrun. simpl in Hrun.
  eexists. split; [|split; [|split; [|split; [|split; [|split; [|split]]]]]].
  - unfold igraph_strvector_destroy.
    step ltac:(by apply assert_base).
    unfold for_all.
    replace (Z.to_nat (end_ v - stor_begin v)) with (length ps) by lia.
    assert (for_each (length ps) (stor_begin v)
              (fun ptr => if ptr =? 0 then ret tt
                          else IGRAPH_FREE_slot (stor_begin v) (slot_index v ptr)) m
            = Done tt m2) as Hloop.
    { rewrite (for_each_shift (length ps) (stor_begin v) 0 _
                 (fun i => IGRAPH_FREE_slot (stor_begin v) i)); [apply Hrun|].
      intros k m1 Hk. destruct (Z.eqb_spec (stor_begin v + Z.of_nat k) 0); [lia|].
      unfold slot_index. f_equal. lia. }
    step ltac:(apply Hloop).
    step ltac:(apply free_slots_run; rewrite Hsl2, lookup_insert_eq; eauto).
    done.
  - simpl. rewrite Hsl2. apply delete_insert_eq.
  - done.
  - done.
  - done.
  - done.
  - done.
  - done.
Qed.

(** ** Initialising *)

Lemma calloc_slots_run (n : Z) (m : mem) :
  scheduled m ≠ Fails →
  calloc_slots n m
  = Done (anext m)
         (mkMem (cheap m) (<[anext m := replicate (Z.to_nat n) Vnull]> (aheap m))
                (cnext m) (anext m + Z.max n 1) (tail (oracle m))).
Proof.
  intros Ho. unfold calloc_slots.
  step ltac:(apply next_outcome_run).
  destruct (scheduled m); done.
Qed.

Lemma calloc_slots_fails (n : Z) (m : mem) :
  scheduled m = Fails → calloc_slots n m = Done 0 (pop_oracle m).
Proof.
  intros Ho. unfold calloc_slots.
  step ltac:(apply next_outcome_run). by rewrite Ho.
Qed.

(** The loop of [igraph_strvector_init] when none of its allocations is
    refused. *)
Lemma init_loop (m0 : mem) (b : Z) (sv : igraph_strvector_t) (n : nat)
    (slots0 : list cptr) :
  aheap m0 !! b = Some slots0 → (n ≤ length slots0)%nat →
  (∀ a, cnext m0 ≤ a → cheap m0 !! a = None) → granted n m0 →
  ∃ m2, for_range 0 (Z.of_nat n) (fun i =>
          let* p := calloc_chars 1 in
          do store_slot b i p then
          if is_null p then
            let* sv' := igraph_strvector_destroy sv in
            ret (Some (IGRAPH_ENOMEM, sv'))
          else
            do store_char p 0 x00 then
            ret None) m0 = Done None m2
        ∧ grown_inv m0 b 0 slots0 n m2.
Proof.
  intros Hblk0 Hlen Hfresh0 Hg.
  unfold for_range. rewrite Z.sub_0_r, Nat2Z.id.
  apply for_loop_no_exit.
  - split; [simpl; lia|]. split; [done|]. split; [done|]. split; [done|].
    split; [intros j Hj; lia|]. split; [simpl; intros a Ha; apply Hfresh0; lia|].
    exists slots0. split; [|split; [done|]].
    + symmetry. by apply insert_id.
    + intros i. case_decide; [lia|done].
  - intros k m2 Hk (Hc & Ha & Ho & Hold & Hnew & Hfresh & sl & Hsl & Hlsl & Hpt).
    rewrite Z.add_0_l.
    assert (Hblk : aheap m2 !! b = Some sl) by (rewrite Hsl; apply lookup_insert_eq).
    pose proof (granted_scheduled n k m0 m2 Hg Hk Ho) as Hf.
    set (q := cnext m2). set (sl' := <[k := Vptr q]> sl).
    eexists. split.
    { step ltac:(by apply calloc_chars_run).
      step ltac:(eapply (store_slot_run b _ _ _ sl); [done|lia]).
      rewrite Nat2Z.id. fold q sl'. simpl.
      step ltac:(eapply store_char_run; [simpl; apply lookup_insert_eq|simpl; lia]).
      done. }
    unfold grown_inv. simpl.
    split; [lia|]. split; [done|]. split; [rewrite Ho; apply tail_drop|].
    split; [|split; [|split]].
    * intros a Ha'. rewrite !lookup_insert_ne by (unfold q; lia). by apply Hold.
    * intros j Hj. destruct (decide (j = k)) as [->|Hne].
      -- replace (cnext m0 + Z.of_nat k) with q by (unfold q; lia).
         by rewrite lookup_insert_eq.
      -- rewrite !lookup_insert_ne by (unfold q; lia). apply Hnew. lia.
    * intros a Ha'. rewrite !lookup_insert_ne by (unfold q; lia). apply Hfresh. lia.
    * exists sl'. split; [|split].
      -- rewrite Hsl. by rewrite insert_insert_eq.
      -- unfold sl'. by rewrite length_insert.
      -- intros i. unfold sl'. destruct (decide (i = k)) as [->|Hne].
         ++ rewrite list_lookup_insert_eq by lia. case_decide; [|lia].
            do 2 f_equal. unfold q. lia.
         ++ rewrite list_lookup_insert_ne by done. rewrite Hpt.
            repeat case_decide; try done; lia.
Qed.

(** [igraph_strvector_init] with every allocation granted. *)
Lemma init_granted (m : mem) (sv : igraph_strvector_t) (size : Z) :
  mem_ok m → 0 ≤ size → granted (S (Z.to_nat size)) m →
  ∃ v m' slots ps,
    igraph_strvector_init sv size m = Done (IGRAPH_SUCCESS, v) m' ∧
    valid m' v slots ps ∧ mem_ok m' ∧
    stor_begin v = anext m ∧ size_of v = size ∧ capacity_of v = size ∧
    contents m' v = replicate (Z.to_nat size) (Some []) ∧
    (∀ a, a ∈ ps ↔ cnext m ≤ a < cnext m') ∧
    (∀ a, a < cnext m → cheap m' !! a = cheap m !! a) ∧
    aheap m' = <[anext m := slots]> (aheap m) ∧
    oracle m' = drop (S (Z.to_nat size)) (oracle m).
Proof.
  intros Hok Hsize Hg. set (n := Z.to_nat size) in *.
  pose proof (ok_anext _ Hok) as Hpos.
  set (b := anext m).
  set (m0 := mkMem (cheap m) (<[b := replicate n Vnull]> (aheap m))
                   (cnext m) (b + Z.max size 1) (tail (oracle m))).
  destruct (init_loop m0 b (set_stor_begin sv b) n (replicate n Vnull))
    as (m2 & Hrun & Hc & Ha & Ho & Hold & Hnew & Hfresh & sl & Hsl & Hlsl & Hpt).
  { apply lookup_insert_eq. }
  { by rewrite length_replicate. }
  { apply (ok_cheap _ Hok). }
  { by apply (granted_tail n m m0). }
  simpl in Hc, Ha, Ho, Hold, Hnew, Hsl. rewrite length_replicate in Hlsl.
  rewrite insert_insert_eq in Hsl. rewrite drop_tail in Ho.
  set (ps := (fun j : nat => cnext m + Z.of_nat j) <$> seq 0 n).
  assert (Hps : sl = Vptr <$> ps).
  { apply list_eq. intros i. rewrite Hpt, list_lookup_fmap.
    unfold ps. rewrite fresh_addresses_lookup.
    case_decide; case_decide; try lia.
    - simpl. do 2 f_equal. lia.
    - simpl. apply lookup_replicate_None. lia. }
  assert (Hlps : length ps = n) by (unfold ps; by rewrite length_fmap, length_seq).
  set (v := mkStrvector b (b + size) (b + size)).
  assert (Hv : valid m2 v sl ps).
  { split.
    - simpl. lia.
    - simpl. rewrite Hsl. apply lookup_insert_eq.
    - unfold size_of. simpl. lia.
    - unfold size_of, capacity_of. simpl. lia.
    - rewrite Hps. apply take_ge. rewrite length_fmap. lia.
    - apply fresh_addresses_nodup.
    - intros a Hin. apply fresh_addresses_elem in Hin as (j & Hj & ->).
      rewrite (Hnew j Hj). simpl. eauto. }
  exists v, m2, sl, ps. split; [|split; [done|split; [|split; [done|split; [|split; [|split; [|split; [|split; [done|split; [done|done]]]]]]]]]].
  - unfold igraph_strvector_init.
    step ltac:(apply calloc_slots_run; by apply (granted_first n)).
    fold b. destruct (Z.eqb_spec b 0) as [Hb|_]; [unfold b in Hb; lia|].
    fold n. replace size with (Z.of_nat n) at 1 by lia.
    step ltac:(apply Hrun). done.
  - split.
    + lia.
    + done.
    + intros b' Hb'. rewrite Hsl. rewrite Ha in Hb'.
      rewrite lookup_insert_ne by lia. apply (ok_aheap _ Hok). lia.
  - unfold size_of. simpl. lia.
  - unfold capacity_of. simpl. lia.
  - rewrite (valid_contents _ _ _ _ Hv). apply list_eq. intros i.
    rewrite list_lookup_fmap. destruct (decide (i < n)%nat) as [Hi|Hi].
    + rewrite lookup_replicate_2 by done. unfold ps. rewrite fresh_addresses_lookup.
      case_decide; [|lia]. simpl. by rewrite (Hnew i Hi).
    + rewrite lookup_ge_None_2 by lia. simpl.
      symmetry. apply lookup_replicate_None. lia.
  - intros a. unfold ps. rewrite fresh_addresses_elem. split.
    + intros (j & Hj & ->). lia.
    + intros Hr. exists (Z.to_nat (a - cnext m)). split; lia.
Qed.

(** ** Setting an element of a valid vector *)

(** Element [i] of a valid vector gets the block [a'], the old block
    resized in place or a new one, with the string [s]; nothing else
    changes. *)
Lemma valid_replace (m m' : mem) (v : igraph_strvector_t) (slots : list cptr)
    (ps : list Z) (i : nat) (a a' : Z) (s : list byte) :
  mem_ok m → valid m v slots ps → ps !! i = Some a →
  (a' = a ∨ cnext m ≤ a') →
  aheap m' !! stor_begin v = Some (<[i := Vptr a']> slots) →
  cheap m' !! a' ≫= cstring = Some s →
  (∀ c, c ≠ a → c ≠ a' → cheap m' !! c = cheap m !! c) →
  valid m' v (<[i := Vptr a']> slots) (<[i := a']> ps) ∧
  contents m' v = <[i := Some s]> (contents m v).
Proof.
  intros Hok Hv Hi Ha' Hblk Hnew Hsame.
  pose proof (lookup_lt_Some _ _ _ Hi) as Hlt.
  assert (Hother : ∀ j c, j ≠ i → ps !! j = Some c → c ≠ a ∧ c ≠ a').
  { intros j c Hj Hc.
    assert (c ≠ a).
    { intros ->. apply Hj. apply (NoDup_lookup ps j i a (valid_nodup _ _ _ _ Hv) Hc Hi). }
    split; [done|]. destruct Ha' as [->|Hge]; [done|].
    assert (c < cnext m); [|lia].
    apply (live_below_cnext m c Hok). apply (valid_live_block _ _ _ _ c Hv).
    by apply list_elem_of_lookup_2 in Hc. }
  assert (Hv' : valid m' v (<[i := Vptr a']> slots) (<[i := a']> ps)).
  { destruct Hv as [H1 H2 H3 H4 H5 H6 H7]. split.
    - done.
    - done.
    - by rewrite length_insert.
    - by rewrite length_insert.
    - rewrite length_insert, take_insert_lt by done. rewrite H5.
      symmetry. apply list_fmap_insert.
    - apply NoDup_alt. intros j k x Hj Hk.
      apply list_lookup_insert_Some in Hj as [(Hji & Hjx & _)|[Hj Hj']];
      apply list_lookup_insert_Some in Hk as [(Hki & Hkx & _)|[Hk Hk']].
      + congruence.
      + destruct (Hother k x ltac:(done) Hk') as [_ Hne]. congruence.
      + destruct (Hother j x ltac:(done) Hj') as [_ Hne]. congruence.
      + apply (NoDup_lookup ps j k x H6 Hj' Hk').
    - intros c Hc. apply list_elem_of_lookup_1 in Hc as [j Hj].
      apply list_lookup_insert_Some in Hj as [(<- & <- & _)|[Hj Hj']].
      + rewrite Hnew. eauto.
      + destruct (Hother j c ltac:(done) Hj') as [Hn1 Hn2].
        rewrite (Hsame c Hn1 Hn2). apply H7. by apply list_elem_of_lookup_2 in Hj'. }
  split; [done|].
  rewrite (valid_contents _ _ _ _ Hv'), (valid_contents _ _ _ _ Hv).
  apply list_eq. intros j. destruct (decide (j = i)) as [->|Hne].
  - rewrite list_lookup_fmap, !list_lookup_insert_eq by (by rewrite ?length_fmap).
    simpl. by rewrite Hnew.
  - rewrite list_lookup_fmap, !list_lookup_insert_ne by done.
    rewrite list_lookup_fmap. destruct (ps !! j) as [c|] eqn:Hc; [|done]. simpl.
    destruct (Hother j c Hne Hc) as [Hn1 Hn2]. by rewrite (Hsame c Hn1 Hn2).
Qed.

Section set_frame.
Context (m : mem) (v : igraph_strvector_t) (slots : list cptr) (ps : list Z) (idx : Z).
Hypothesis Hok : mem_ok m.
Hypothesis Hv : valid m v slots ps.
Hypothesis Hidx : 0 ≤ idx < size_of v.

(** [igraph_strvector_set] on a live element, granted. *)
Lemma set_granted (value s : list byte) :
  cstring value = Some s → scheduled m ≠ Fails →
  ∃ m' a a', igraph_strvector_set v idx value m = Done IGRAPH_SUCCESS m' ∧
    ps !! Z.to_nat idx = Some a ∧ a' = realloc_target m a ∧
    valid m' v (<[Z.to_nat idx := Vptr a']> slots) (<[Z.to_nat idx := a']> ps) ∧
    contents m' v = <[Z.to_nat idx := Some s]> (contents m v) ∧
    mem_ok m' ∧ oracle m' = tail (oracle m) ∧
    (∀ c, c ≠ a → c ≠ a' → cheap m' !! c = cheap m !! c) ∧
    (∀ b', b' ≠ stor_begin v → aheap m' !! b' = aheap m !! b').
Proof.
  intros Hcs Hf.
  pose proof (valid_size _ _ _ _ Hv) as Hsz.
  pose proof (valid_base _ _ _ _ Hv) as Hbase.
  pose proof (valid_block _ _ _ _ Hv) as Hblk.
  pose proof (valid_length _ _ _ _ Hv) as Hlen.
  destruct (lookup_lt_is_Some_2 ps (Z.to_nat idx)) as [a Ha]; [lia|].
  pose proof (valid_slot _ _ _ _ _ _ Hv Ha) as Hs.
  destruct (valid_live_block _ _ _ _ a Hv) as [buf Hb].
  { by apply list_elem_of_lookup_2 in Ha. }
  pose proof (live_below_cnext m a Hok ltac:(eauto)) as Halt.
  set (n := Z.of_nat (length s) + 1).
  set (a' := realloc_target m a).
  set (sl' := <[Z.to_nat idx := Vptr a']> slots).
  set (ch1 := match scheduled m with
              | Moves => <[cnext m := resize_bytes (Z.to_nat n) buf]> (delete a (cheap m))
              | _ => <[a := resize_bytes (Z.to_nat n) buf]> (cheap m)
              end).
  set (cn1 := match scheduled m with Moves => cnext m + 1 | _ => cnext m end).
  set (m1 := mkMem ch1 (aheap m) cn1 (anext m) (tail (oracle m))).
  assert (Hre : realloc_chars a n m = Done (Vptr a') m1).
  { unfold realloc_chars.
    rewrite (bind_done _ _ _ _ _ (next_outcome_run m)). simpl. rewrite Hb.
    unfold m1, ch1, cn1, a', realloc_target. destruct (scheduled m); done. }
  assert (Hc1 : ch1 !! a' = Some (resize_bytes (Z.to_nat n) buf)).
  { unfold ch1, a', realloc_target. destruct (scheduled m); apply lookup_insert_eq. }
  set (m' := mkMem (<[a' := s ++ [x00]]> ch1) (<[stor_begin v := sl']> (aheap m))
                   cn1 (anext m) (tail (oracle m))).
  assert (Hrun : igraph_strvector_set v idx value m = Done IGRAPH_SUCCESS m').
  { unfold igraph_strvector_set.
    step ltac:(by apply assert_base).
    step ltac:(by apply strlen_run).
    step ltac:(apply (load_slot_run _ _ _ slots); [done|lia|done]).
    simpl. fold n. step ltac:(apply Hre). simpl.
    step ltac:(apply (store_slot_run (stor_begin v) idx (Vptr a') m1 slots); [done|lia]).
    unfold strcpy. rewrite Hcs.
    step ltac:(eapply write_chars_run;
               [simpl; apply Hc1
               |rewrite length_app, length_resize_bytes; simpl; lia]).
    unfold put_chars, m'. simpl. do 3 f_equal.
    rewrite drop_ge; [by rewrite app_nil_r|].
    rewrite length_app, length_resize_bytes. simpl. lia. }
  assert (Hta : a' = a ∨ cnext m ≤ a').
  { unfold a', realloc_target. destruct (scheduled m); [by left|by left|right; lia]. }
  assert (Hsame : ∀ c, c ≠ a → c ≠ a' → cheap m' !! c = cheap m !! c).
  { intros c Hn1 Hn2. simpl. rewrite lookup_insert_ne by done.
    unfold ch1. unfold a', realloc_target in Hn2.
    destruct (scheduled m).
    - by rewrite lookup_insert_ne.
    - by rewrite lookup_insert_ne.
    - rewrite lookup_insert_ne by done. by rewrite lookup_delete_ne. }
  destruct (valid_replace m m' v slots ps (Z.to_nat idx) a a' s Hok Hv Ha Hta)
    as [Hv' Hc'].
  { simpl. apply lookup_insert_eq. }
  { simpl. rewrite lookup_insert_eq. simpl. by apply (cstring_terminated value). }
  { done. }
  exists m', a, a'. split; [done|]. split; [done|]. split; [done|].
  split; [done|]. split; [done|]. split; [|split; [done|split; [done|]]].
  - split.
    + apply (ok_anext _ Hok).
    + intros c Hc. simpl in Hc.
      assert (cnext m ≤ cn1) by (unfold cn1; destruct (scheduled m); lia).
      assert (a' < cn1).
      { unfold a', cn1, realloc_target. destruct (scheduled m); lia. }
      rewrite Hsame by lia. apply (ok_cheap _ Hok). lia.
    + intros b' Hb'. simpl in *.
      pose proof (live_below_anext m (stor_begin v) Hok ltac:(eauto)).
      rewrite lookup_insert_ne by lia. by apply (ok_aheap _ Hok).
  - intros b' Hne. simpl. by rewrite lookup_insert_ne.
Qed.

(** [igraph_strvector_set] on a live element, refused. *)
Lemma set_refused (value s : list byte) :
  cstring value = Some s → scheduled m = Fails →
  igraph_strvector_set v idx value m = Done IGRAPH_ENOMEM (pop_oracle m) ∧
  valid (pop_oracle m) v slots ps ∧ contents (pop_oracle m) v = contents m v.
Proof.
  intros Hcs Hf. split.
  - destruct (set_run m v slots ps idx Hv Hidx value s Hcs) as [[_ H]|[Hn _]]; done.
  - apply (valid_frame m); [done| |done]. apply (valid_block _ _ _ _ Hv).
Qed.

End set_frame.

(** ** Resizing a valid vector *)

Lemma valid_prefix (m : mem) (v : igraph_strvector_t) (slots : list cptr)
    (ps : list Z) (k : nat) :
  valid m v slots ps → (k ≤ length ps)%nat →
  valid m (set_end v (stor_begin v + Z.of_nat k)) slots (take k ps).
Proof.
  intros [H1 H2 H3 H4 H5 H6 H7] Hk. unfold size_of, capacity_of in *.
  split; simpl.
  - done.
  - done.
  - unfold size_of. simpl. rewrite length_take. lia.
  - unfold size_of, capacity_of. simpl. lia.
  - rewrite length_take, Nat.min_l by done.
    replace (take k slots) with (take k (take (length ps) slots))
      by (rewrite take_take; f_equal; lia).
    rewrite H5. by rewrite fmap_take.
  - apply (sublist_NoDup _ ps); [done|apply sublist_take].
  - intros a Ha. apply H7. by apply (subseteq_take k ps).
Qed.

Section resize_grows.
Context (m : mem) (v : igraph_strvector_t) (slots : list cptr) (ps : list Z).
Context (newsize : Z).
Hypothesis Hok : mem_ok m.
Hypothesis Hv : valid m v slots ps.
Hypothesis Hnew : size_of v < newsize.
Hypothesis Hg : granted (S (Z.to_nat (newsize - size_of v))) m.

(** Growing, with every allocation granted. *)
Lemma resize_granted :
  ∃ v1 m1 qs,
    igraph_strvector_resize v newsize m = Done (IGRAPH_SUCCESS, v1) m1 ∧
    valid m1 v1 (Vptr <$> (ps ++ qs)) (ps ++ qs) ∧ mem_ok m1 ∧
    length qs = Z.to_nat (newsize - size_of v) ∧
    size_of v1 = newsize ∧ capacity_of v1 = newsize ∧
    contents m1 v1 = contents m v ++ replicate (Z.to_nat (newsize - size_of v)) (Some []) ∧
    frame m m1 (stor_begin v) ∧
    (stor_begin v1 = stor_begin v ∨ anext m ≤ stor_begin v1) ∧
    (∀ q, q ∈ qs → cnext m ≤ q) ∧
    oracle m1 = drop (S (Z.to_nat (newsize - size_of v))) (oracle m).
Proof.
  destruct (resize_grow m v slots ps newsize Hok Hv Hnew)
    as (e & v1 & m1 & Hrun & Hfr & Hwhere & Hsucc & Hres).
  specialize (Hsucc Hg). subst e.
  destruct (Hres eq_refl) as (qs & Hv1 & Hsz1 & Hok1 & Hqs & Ho1).
  pose proof (valid_size _ _ _ _ Hv) as Hsz.
  pose proof (valid_size _ _ _ _ Hv1) as Hsz1'.
  pose proof (valid_cap _ _ _ _ Hv1) as Hcap1.
  rewrite length_fmap in Hcap1. rewrite length_app in Hsz1', Hcap1.
  exists v1, m1, qs. split; [done|]. split; [done|]. split; [done|].
  split; [lia|]. split; [done|]. split; [lia|].
  split; [|split; [done|split; [done|split; [|done]]]].
  - rewrite (valid_contents _ _ _ _ Hv1), (valid_contents _ _ _ _ Hv), fmap_app.
    f_equal.
    + apply list_fmap_ext. intros i a Hi. simpl.
      destruct Hfr as (_ & _ & Hch & _). rewrite Hch; [done|].
      apply (live_below_cnext m a Hok). apply (valid_live_block m v slots ps a Hv).
      by apply list_elem_of_lookup_2 in Hi.
    + replace (Z.to_nat (newsize - size_of v)) with (length qs) by lia.
      apply list_eq. intros i. rewrite list_lookup_fmap.
      destruct (qs !! i) as [q|] eqn:Hq; simpl.
      * rewrite lookup_replicate_2 by (by apply lookup_lt_Some in Hq).
        apply list_elem_of_lookup_2 in Hq. destruct (Hqs q Hq) as [_ ->]. done.
      * symmetry. apply lookup_replicate_None. by apply lookup_ge_None in Hq.
  - intros q Hq. by apply Hqs.
Qed.

End resize_grows.

(** ** Adding an element *)

(** The last steps of [igraph_strvector_add], from the allocation of the
    copy on: [v1] has the elements [ps] and a slot to spare. *)
Lemma add_tail (m1 : mem) (v1 : igraph_strvector_t) (slots1 : list cptr)
    (ps : list Z) (value s : list byte) :
  mem_ok m1 →
  valid m1 (set_end v1 (stor_begin v1 + Z.of_nat (length ps))) slots1 ps →
  Z.of_nat (length ps) < capacity_of v1 → capacity_of v1 ≤ Z.of_nat (length slots1) →
  cstring value = Some s → scheduled m1 ≠ Fails →
  ∃ m',
    (let* p := calloc_chars (Z.of_nat (length s) + 1) in
     do store_slot (stor_begin v1) (Z.of_nat (length ps)) p then
     if is_null p then ret (IGRAPH_ENOMEM, v1)
     else
       do strcpy p value then
       ret (IGRAPH_SUCCESS, set_end v1 (stor_begin v1 + Z.of_nat (length ps) + 1))) m1
    = Done (IGRAPH_SUCCESS, set_end v1 (stor_begin v1 + Z.of_nat (length ps) + 1)) m' ∧
    valid m' (set_end v1 (stor_begin v1 + Z.of_nat (length ps) + 1))
          (<[length ps := Vptr (cnext m1)]> slots1) (ps ++ [cnext m1]) ∧
    mem_ok m' ∧
    contents m' (set_end v1 (stor_begin v1 + Z.of_nat (length ps) + 1))
      = contents m1 (set_end v1 (stor_begin v1 + Z.of_nat (length ps))) ++ [Some s] ∧
    cnext m' = cnext m1 + 1 ∧ anext m' = anext m1 ∧
    (∀ a, a < cnext m1 → cheap m' !! a = cheap m1 !! a) ∧
    (∀ b', b' ≠ stor_begin v1 → aheap m' !! b' = aheap m1 !! b') ∧
    oracle m' = tail (oracle m1).
Proof.
  intros Hok Hv Hspare Hcap Hcs Hf.
  pose proof (valid_base _ _ _ _ Hv) as Hbase. simpl in Hbase.
  pose proof (valid_block _ _ _ _ Hv) as Hblk. simpl in Hblk.
  set (old := length ps) in *. set (p := cnext m1).
  set (b := stor_begin v1) in *.
  set (sl' := <[old := Vptr p]> slots1).
  set (m' := mkMem (<[p := s ++ [x00]]> (cheap m1)) (<[b := sl']> (aheap m1))
                   (cnext m1 + 1) (anext m1) (tail (oracle m1))).
  assert (Hfresh : ∀ a, a ∈ ps → a < p).
  { intros a Ha. apply (live_below_cnext m1 a Hok).
    by apply (valid_live_block _ _ _ _ a Hv). }
  assert (Hv' : valid m' (set_end v1 (b + Z.of_nat old + 1)) sl' (ps ++ [p])).
  { destruct Hv as [H1 H2 H3 H4 H5 H6 H7].
    unfold size_of, capacity_of in *. simpl in *. split; simpl.
    - done.
    - apply lookup_insert_eq.
    - unfold size_of. simpl. rewrite length_app. simpl. lia.
    - unfold size_of, capacity_of, sl'. simpl. rewrite length_insert. lia.
    - rewrite length_app. simpl. fold old. unfold sl'.
      replace (old + 1)%nat with (S old) by lia.
      rewrite (take_S_r _ _ (Vptr p)) by (apply list_lookup_insert_eq; lia).
      rewrite take_insert_ge by lia. unfold old. rewrite H5. by rewrite fmap_app.
    - apply NoDup_app. split; [done|]. split; [|apply NoDup_singleton].
      intros a Ha Hp. apply list_elem_of_singleton in Hp. specialize (Hfresh a Ha). lia.
    - intros a Ha. apply elem_of_app in Ha as [Ha|Ha].
      + rewrite lookup_insert_ne by (specialize (Hfresh a Ha); lia). by apply H7.
      + apply list_elem_of_singleton in Ha as ->. rewrite lookup_insert_eq. simpl.
        rewrite (cstring_terminated value s Hcs). eauto. }
  exists m'. split; [|split; [done|split; [|split; [|split; [done|split; [done|split; [|split; [|done]]]]]]]].
  - step ltac:(by apply calloc_chars_run). fold p.
    step ltac:(eapply (store_slot_run b _ _ _ slots1); [done|lia]).
    simpl. unfold strcpy. rewrite Hcs.
    step ltac:(eapply write_chars_run;
               [simpl; apply lookup_insert_eq
               |rewrite length_app, length_replicate; simpl; lia]).
    unfold put_chars, m'. simpl. rewrite Nat2Z.id. fold sl'.
    rewrite insert_insert_eq. do 3 f_equal.
    rewrite drop_ge; [by rewrite app_nil_r|].
    rewrite length_app, length_replicate. simpl. lia.
  - split; simpl.
    + apply (ok_anext _ Hok).
    + intros a Ha. rewrite lookup_insert_ne by (unfold p; lia).
      apply (ok_cheap _ Hok). lia.
    + intros b' Hb'. pose proof (live_below_anext m1 b Hok ltac:(eauto)).
      rewrite lookup_insert_ne by lia. by apply (ok_aheap _ Hok).
  - rewrite (valid_contents _ _ _ _ Hv'), (valid_contents _ _ _ _ Hv), fmap_app.
    f_equal.
    + apply list_fmap_ext. intros i a Hi. simpl.
      apply list_elem_of_lookup_2 in Hi. specialize (Hfresh a Hi).
      by rewrite lookup_insert_ne by lia.
    + simpl. rewrite lookup_insert_eq. simpl.
      by rewrite (cstring_terminated value s Hcs).
  - intros a Ha. simpl. by rewrite lookup_insert_ne by (unfold p; lia).
  - intros b' Hb'. simpl. by rewrite lookup_insert_ne.
Qed.

Lemma set_end_end (v : igraph_strvector_t) : set_end v (end_ v) = v.
Proof. by destruct v. Qed.

Section add.
Context (m : mem) (v : igraph_strvector_t) (slots : list cptr) (ps : list Z).
Context (value s : list byte).
Hypothesis Hok : mem_ok m.
Hypothesis Hv : valid m v slots ps.
Hypothesis Hcs : cstring value = Some s.

(** With a slot to spare. *)
Lemma add_spare :
  size_of v < capacity_of v → size_of v < IGRAPH_INTEGER_MAX → scheduled m ≠ Fails →
  ∃ m',
    igraph_strvector_add v value m
      = Done (IGRAPH_SUCCESS, set_end v (stor_begin v + size_of v + 1)) m' ∧
    valid m' (set_end v (stor_begin v + size_of v + 1))
          (<[length ps := Vptr (cnext m)]> slots) (ps ++ [cnext m]) ∧
    mem_ok m' ∧
    contents m' (set_end v (stor_begin v + size_of v + 1)) = contents m v ++ [Some s] ∧
    (∀ a, a < cnext m → cheap m' !! a = cheap m !! a) ∧
    (∀ b', b' ≠ stor_begin v → aheap m' !! b' = aheap m !! b') ∧
    oracle m' = tail (oracle m).
Proof.
  intros Hspare Hmax Hf.
  pose proof (valid_size _ _ _ _ Hv) as Hsz.
  pose proof (valid_cap _ _ _ _ Hv) as Hcap.
  pose proof (valid_base _ _ _ _ Hv) as Hbase.
  assert (Hve : set_end v (stor_begin v + Z.of_nat (length ps)) = v).
  { rewrite <- Hsz. unfold size_of.
    replace (stor_begin v + (end_ v - stor_begin v)) with (end_ v) by lia.
    apply set_end_end. }
  destruct (add_tail m v slots ps value s Hok ltac:(by rewrite Hve) ltac:(lia)
              ltac:(lia) Hcs Hf)
    as (m' & Hrun & Hv' & Hok' & Hc' & _ & _ & Hch & Hah & Ho).
  rewrite Hve in Hc'. rewrite <- Hsz in Hrun, Hv', Hc'.
  exists m'. split; [|done].
  unfold igraph_strvector_add.
  step ltac:(by apply size_run). step ltac:(by apply strlen_run).
  destruct (Z.eqb_spec (size_of v) IGRAPH_INTEGER_MAX); [lia|].
  step ltac:(by apply assert_base).
  unfold capacity_of, size_of in Hspare.
  destruct (Z.eqb_spec (end_ v) (stor_end v)); [lia|].
  rewrite bind_ret. apply Hrun.
Qed.

(** With no slot to spare: the slot array grows first. *)
Lemma add_full :
  size_of v = capacity_of v → size_of v < Z.quot IGRAPH_INTEGER_MAX 2 →
  granted (Z.to_nat (Z.max 1 (size_of v)) + 2) m →
  ∃ v1 m1 m' qs,
    igraph_strvector_resize v (Z.max 1 (2 * size_of v)) m
      = Done (IGRAPH_SUCCESS, v1) m1 ∧
    igraph_strvector_add v value m
      = Done (IGRAPH_SUCCESS, set_end v1 (stor_begin v1 + size_of v + 1)) m' ∧
    valid m' (set_end v1 (stor_begin v1 + size_of v + 1))
          (<[length ps := Vptr (cnext m1)]> (Vptr <$> (ps ++ qs))) (ps ++ [cnext m1]) ∧
    mem_ok m' ∧
    capacity_of v1 = Z.max 1 (2 * size_of v) ∧
    contents m' (set_end v1 (stor_begin v1 + size_of v + 1)) = contents m v ++ [Some s] ∧
    frame m m' (stor_begin v) ∧
    length qs = Z.to_nat (Z.max 1 (size_of v)) ∧
    (∀ q, q ∈ qs → cnext m ≤ q < cnext m1 ∧ is_Some (cheap m' !! q)) ∧
    NoDup (ps ++ qs).
Proof.
  intros Hfull Hhalf Hg.
  pose proof (valid_size _ _ _ _ Hv) as Hsz.
  pose proof (valid_base _ _ _ _ Hv) as Hbase.
  assert (Hmaxv : Z.quot IGRAPH_INTEGER_MAX 2 = 2 ^ 62 - 1) by (by vm_compute).
  assert (Hmaxi : IGRAPH_INTEGER_MAX = 2 ^ 63 - 1) by done.
  set (new := Z.max 1 (2 * size_of v)).
  assert (Htoadd : Z.to_nat (new - size_of v) = Z.to_nat (Z.max 1 (size_of v))).
  { unfold new. lia. }
  destruct (resize_granted m v slots ps new Hok Hv ltac:(unfold new; lia))
    as (v1 & m1 & qs & Hrs & Hv1 & Hok1 & Hlq & Hsz1 & Hcap1 & Hc1 & Hfr & Hwhere
        & Hqs & Ho1).
  { rewrite Htoadd. apply (granted_le _ (Z.to_nat (Z.max 1 (size_of v)) + 2)); [lia|done]. }
  rewrite Htoadd in Hlq, Ho1.
  pose proof (valid_prefix m1 v1 _ _ (length ps) Hv1
                ltac:(rewrite length_app; lia)) as Hvp.
  rewrite take_app_length in Hvp.
  assert (Hf1 : scheduled m1 ≠ Fails).
  { apply (granted_scheduled (Z.to_nat (Z.max 1 (size_of v)) + 2)
             (S (Z.to_nat (Z.max 1 (size_of v)))) m m1 Hg); [lia|done]. }
  destruct (add_tail m1 v1 (Vptr <$> (ps ++ qs)) ps value s Hok1 Hvp)
    as (m' & Hrun & Hv' & Hok' & Hc' & Hcn' & Han' & Hch' & Hah' & Ho'); try done.
  { rewrite Hcap1. unfold new. lia. }
  { rewrite Hcap1, length_fmap, length_app. unfold new. lia. }
  rewrite <- Hsz in Hrun, Hv', Hc', Hvp.
  destruct Hfr as (Hfc & Hfa & Hfch & Hfah).
  exists v1, m1, m', qs. split; [done|]. split; [|split; [done|split; [done|split; [done|split; [|split; [|split; [done|split; [|apply (valid_nodup _ _ _ _ Hv1)]]]]]]]].
  - unfold igraph_strvector_add.
    step ltac:(by apply size_run). step ltac:(by apply strlen_run).
    destruct (Z.eqb_spec (size_of v) IGRAPH_INTEGER_MAX); [lia|].
    step ltac:(by apply assert_base).
    unfold capacity_of, size_of in Hfull.
    destruct (Z.eqb_spec (end_ v) (stor_end v)); [|lia].
    destruct (Z.ltb_spec (size_of v) (Z.quot IGRAPH_INTEGER_MAX 2)); [|lia].
    replace (if size_of v * 2 =? 0 then 1 else size_of v * 2) with new.
    2:{ unfold new. destruct (Z.eqb_spec (size_of v * 2) 0); lia. }
    step ltac:(step ltac:(apply Hrs); done).
    simpl. apply Hrun.
  - rewrite Hc'. f_equal.
    rewrite (valid_contents _ _ _ _ Hvp), (valid_contents _ _ _ _ Hv).
    apply list_fmap_ext. intros i a Hi. simpl. rewrite Hfch; [done|].
    apply (live_below_cnext m a Hok). apply (valid_live_block m v slots ps a Hv).
    by apply list_elem_of_lookup_2 in Hi.
  - unfold frame. split; [lia|]. split; [lia|]. split.
    + intros a Ha. rewrite Hch' by lia. by apply Hfch.
    + intros b' Hne Hlt. rewrite Hah' by (destruct Hwhere; lia). by apply Hfah.
  - intros q Hq.
    assert (Hq1 : q ∈ ps ++ qs) by (apply elem_of_app; by right).
    pose proof (valid_live_block _ _ _ _ q Hv1 Hq1) as Hlive.
    pose proof (live_below_cnext m1 q Hok1 Hlive) as Hqlt.
    split; [split; [by apply Hqs|done]|]. by rewrite Hch'.
Qed.

End add.

(** ** Copying a vector *)

(** [igraph_strvector_destroy] on a struct whose slots up to [end_] can be
    released, whether or not they hold strings. *)
Lemma destroy_releasable (m : mem) (sv : igraph_strvector_t) (sl : list cptr) (n : nat) :
  0 < stor_begin sv → aheap m !! stor_begin sv = Some sl →
  size_of sv = Z.of_nat n → (n ≤ length sl)%nat → releasable m (take n sl) →
  ∃ m', igraph_strvector_destroy sv m = Done (set_stor_begin sv 0) m' ∧
    aheap m' = delete (stor_begin sv) (aheap m) ∧
    (∀ a, Vptr a ∈ take n sl → cheap m' !! a = None) ∧
    (∀ a, Vptr a ∉ take n sl → cheap m' !! a = cheap m !! a) ∧
    cnext m' = cnext m ∧ anext m' = anext m ∧ oracle m' = oracle m.
Proof.
  intros Hpos Hblk Hsz Hlen Hrel. unfold size_of in Hsz.
  destruct (free_loop m (stor_begin sv) sl 0 n Hblk ltac:(lia) Hrel)
    as (m2 & Hrun & (Hc & Ha & Ho & Hkept & sl2 & Hsl2 & Hl2 & _) & Hgone).
  simpl in Hrun, Hkept, Hgone. rewrite take_take, Nat.min_id in Hkept, Hgone.
  eexists. split; [|split; [|split; [|split; [|split; [|split]]]]].
  - unfold igraph_strvector_destroy.
    step ltac:(apply assert_base; lia).
    unfold for_all.
    replace (Z.to_nat (end_ sv - stor_begin sv)) with n by lia.
    assert (for_each n (stor_begin sv)
              (fun ptr => if ptr =? 0 then ret tt
                          else IGRAPH_FREE_slot (stor_begin sv) (slot_index sv ptr)) m
            = Done tt m2) as Hloop.
    { rewrite (for_each_shift n (stor_begin sv) 0 _
                 (fun i => IGRAPH_FREE_slot (stor_begin sv) i)); [apply Hrun|].
      intros k m1 Hk. destruct (Z.eqb_spec (stor_begin sv + Z.of_nat k) 0); [lia|].
      unfold slot_index. f_equal. lia. }
    step ltac:(apply Hloop).
    step ltac:(apply free_slots_run; rewrite Hsl2, lookup_insert_eq; eauto).
    done.
  - simpl. rewrite Hsl2. apply delete_insert_eq.
  - done.
  - done.
  - done.
  - done.
  - done.
Qed.

Lemma granted_succ (k : nat) (m m2 : mem) :
  granted k m → oracle m2 = drop k (oracle m) → scheduled m2 ≠ Fails →
  granted (S k) m.
Proof.
  unfold granted, scheduled. intros Hg -> Hs.
  apply Forall_lookup. intros i o Hi.
  apply lookup_take_Some in Hi as [Hi Hlt].
  destruct (decide (i < k)%nat) as [Hik|Hik].
  - rewrite Forall_lookup in Hg. apply (Hg i). by rewrite lookup_take_lt.
  - assert (i = k) as -> by lia.
    rewrite <- (Nat.add_0_r k), <- lookup_drop in Hi.
    destruct (drop k (oracle m)) as [|o' os]; [done|]. simpl in Hi. by injection Hi as ->.
Qed.


Section copy.
Context (m0 : mem) (from : igraph_strvector_t) (slotsF : list cptr) (psF : list Z).
Context (b : Z).
Hypothesis Hv : valid m0 from slotsF psF.
Hypothesis Hb : 0 < b.
Hypothesis Hne : b ≠ stor_begin from.
Hypothesis Hblk : aheap m0 !! b = Some (replicate (length psF) Vnull).
Hypothesis Hfresh : ∀ a, cnext m0 ≤ a → cheap m0 !! a = None.

Let n := length psF.
Let toV := mkStrvector b (b + Z.of_nat n) (b + Z.of_nat n).

Lemma clone_loop :
  (∃ m2, for_range 0 (Z.of_nat n) (fun i =>
           let* str := igraph_strvector_get from i in
           let* value := read_chars str in
           let* e := igraph_strvector_set toV i value in
           if is_success e then ret None
           else
             let* to' := igraph_strvector_destroy toV in
             ret (Some (e, to'))) m0 = Done None m2
         ∧ cloned_inv m0 b n psF n m2 ∧ granted n m0) ∨
  (∃ r m2, for_range 0 (Z.of_nat n) (fun i =>
           let* str := igraph_strvector_get from i in
           let* value := read_chars str in
           let* e := igraph_strvector_set toV i value in
           if is_success e then ret None
           else
             let* to' := igraph_strvector_destroy toV in
             ret (Some (e, to'))) m0 = Done (Some r) m2
         ∧ r = (IGRAPH_ENOMEM, set_stor_begin toV 0) ∧ ¬ granted n m0 ∧
           cheap m2 = cheap m0 ∧ aheap m2 = delete b (aheap m0) ∧
           cnext m0 ≤ cnext m2 ∧ anext m2 = anext m0).
Proof.
  pose proof (valid_base _ _ _ _ Hv) as HbaseF.
  pose proof (valid_block _ _ _ _ Hv) as HblkF.
  unfold for_range. rewrite Z.sub_0_r, Nat2Z.id.
  apply (for_loop_inv (fun k m2 => cloned_inv m0 b n psF k m2 ∧ granted k m0)).
  - split; [|unfold granted; rewrite take_0; constructor].
    split; [simpl; lia|]. split; [done|]. split; [done|]. split; [done|].
    split; [intros j a s Hj; lia|]. split; [simpl; intros a Ha; apply Hfresh; lia|].
    exists (replicate n Vnull). split; [|split].
    + symmetry. by apply insert_id.
    + by rewrite length_replicate.
    + intros i. case_decide; [lia|]. case_decide.
      * by apply lookup_replicate_2.
      * apply lookup_replicate_None. lia.
  - intros k m2 Hk [(Hc & Ha & Ho & Hold & Hnew & Hfresh2 & sl & Hsl & Hlsl & Hpt) Hgk].
    rewrite Z.add_0_l.
    assert (Hblk2 : aheap m2 !! b = Some sl) by (rewrite Hsl; apply lookup_insert_eq).
    assert (HblkF2 : aheap m2 !! stor_begin from = Some slotsF).
    { rewrite Hsl. by rewrite lookup_insert_ne. }
    destruct (lookup_lt_is_Some_2 psF k Hk) as [a Hak].
    pose proof (valid_slot _ _ _ _ _ _ Hv Hak) as Hslot.
    assert (Hain : a ∈ psF) by (by apply list_elem_of_lookup_2 in Hak).
    destruct (valid_strings _ _ _ _ Hv a Hain) as [s Hs].
    destruct (cheap m0 !! a) as [buf|] eqn:Hbuf; [|done]. simpl in Hs.
    assert (Halt : a < cnext m0).
    { destruct (Z.lt_ge_cases a (cnext m0)) as [|Hge]; [done|].
      rewrite (Hfresh a Hge) in Hbuf. done. }
    assert (Hbuf2 : cheap m2 !! a = Some buf) by (by rewrite Hold).
    assert (Hget : igraph_strvector_get from (Z.of_nat k) m2 = Done (Vptr a) m2).
    { apply get_run; [done|]. unfold slot_at. by rewrite HblkF2. }
    assert (Hnull : sl !! k = Some Vnull).
    { rewrite Hpt. case_decide; [lia|]. case_decide; [done|lia]. }
    destruct (decide (scheduled m2 = Fails)) as [Hf|Hf].
    + (* the copy of element [k] is refused *)
      right.
      set (sl3 := <[k := Vnull]> sl).
      set (m3 := put_slots (pop_oracle m2) b sl3).
      assert (Hset : igraph_strvector_set toV (Z.of_nat k) buf m2 = Done IGRAPH_ENOMEM m3).
      { unfold igraph_strvector_set. simpl.
        step ltac:(apply assert_base; lia).
        step ltac:(by apply strlen_run).
        step ltac:(apply (load_slot_run _ _ _ sl); [done|lia|by rewrite Nat2Z.id]).
        simpl.
        step ltac:(by apply calloc_chars_fails).
        step ltac:(eapply (store_slot_run b _ _ _ sl); [done|lia]).
        simpl. rewrite Nat2Z.id. done. }
      assert (Hrel : releasable m3 (take n sl3)).
      { intros i p Hi. apply lookup_take_Some in Hi as [Hi Hin].
        unfold sl3 in Hi. apply list_lookup_insert_Some in Hi as [(<- & <- & _)|[Hik Hi]].
        { by left. }
        rewrite Hpt in Hi. case_decide as Hlt.
        - right. injection Hi as <-. eexists. split; [done|]. split.
          + simpl. destruct (lookup_lt_is_Some_2 psF i ltac:(lia)) as [ai Hai].
            assert (Haiin : ai ∈ psF) by (by apply list_elem_of_lookup_2 in Hai).
            destruct (valid_strings _ _ _ _ Hv ai Haiin) as [si Hsi].
            rewrite (Hnew i ai si Hlt Hai Hsi). eauto.
          + intros j Hj. apply lookup_take_Some in Hj as [Hj _].
            unfold sl3 in Hj.
            apply list_lookup_insert_Some in Hj as [(_ & ? & _)|[_ Hj]]; [done|].
            rewrite Hpt in Hj. case_decide; [injection Hj; lia|].
            case_decide; done.
        - case_decide; [|done]. injection Hi as <-. by left. }
      destruct (destroy_releasable m3 toV sl3 n Hb) as (m4 & Hd & Hah4 & Hgone & Hkept & Hc4 & Ha4 & _).
      { simpl. apply lookup_insert_eq. }
      { unfold size_of. simpl. lia. }
      { unfold sl3. rewrite length_insert. lia. }
      { done. }
      exists (IGRAPH_ENOMEM, set_stor_begin toV 0), m4. split.
      { step ltac:(apply Hget).
        step ltac:(by apply read_chars_run).
        step ltac:(apply Hset). simpl.
        step ltac:(apply Hd). done. }
      split; [done|]. split.
      { intros Hg. by apply (granted_scheduled n k m0 m2 Hg Hk Ho). }
      split; [|split; [|split]].
      * apply map_eq. intros c.
        destruct (decide (Vptr c ∈ take n sl3)) as [Hin|Hout].
        -- rewrite (Hgone c Hin). symmetry. apply Hfresh.
           apply elem_of_take in Hin as (i & Hi & _). unfold sl3 in Hi.
           apply list_lookup_insert_Some in Hi as [(_ & ? & _)|[_ Hi]]; [done|].
           rewrite Hpt in Hi. case_decide; [injection Hi; lia|]. case_decide; done.
        -- rewrite (Hkept c Hout). simpl.
           destruct (Z.lt_ge_cases c (cnext m0)) as [Hlt|Hge]; [by apply Hold|].
           rewrite (Hfresh c Hge).
           destruct (Z.lt_ge_cases c (cnext m2)) as [Hlt2|Hge2]; [|by apply Hfresh2].
           exfalso. apply Hout.
           apply elem_of_take. exists (Z.to_nat (c - cnext m0)). split; [|lia].
           unfold sl3. rewrite list_lookup_insert_ne by lia. rewrite Hpt.
           case_decide; [|lia]. do 2 f_equal. lia.
      * rewrite Hah4. simpl. rewrite Hsl. rewrite insert_insert_eq.
        rewrite delete_insert_eq. done.
      * rewrite Hc4. simpl. lia.
      * rewrite Ha4. simpl. done.
    + (* it is granted *)
      left. set (q := cnext m2). set (sl' := <[k := Vptr q]> sl).
      set (m3 := put_chars (put_slots (alloc_chars m2
                    (replicate (Z.to_nat (Z.of_nat (length s) + 1)) x00)) b sl')
                  q ((s ++ [x00]) ++ drop (length (s ++ [x00]))
                       (replicate (Z.to_nat (Z.of_nat (length s) + 1)) x00))).
      assert (Hset : igraph_strvector_set toV (Z.of_nat k) buf m2 = Done IGRAPH_SUCCESS m3).
      { unfold igraph_strvector_set. simpl.
        step ltac:(apply assert_base; lia).
        step ltac:(by apply strlen_run).
        step ltac:(apply (load_slot_run _ _ _ sl); [done|lia|by rewrite Nat2Z.id]).
        simpl.
        step ltac:(by apply calloc_chars_run). fold q.
        step ltac:(eapply (store_slot_run b _ _ _ sl); [done|lia]).
        rewrite Nat2Z.id. fold sl'. simpl.
        unfold strcpy. rewrite Hs.
        step ltac:(eapply write_chars_run;
                   [simpl; apply lookup_insert_eq
                   |rewrite length_app, length_replicate; simpl; lia]).
        done. }
      exists m3. split.
      { step ltac:(apply Hget).
        step ltac:(by apply read_chars_run).
        step ltac:(apply Hset). done. }
      split; [|by apply (granted_succ k m0 m2)].
      unfold cloned_inv. simpl.
      assert (Hdrop : drop (length (s ++ [x00]))
                        (replicate (Z.to_nat (Z.of_nat (length s) + 1)) x00) = []).
      { apply drop_ge. rewrite length_app, length_replicate. simpl. lia. }
      rewrite Hdrop, app_nil_r.
      split; [lia|]. split; [done|]. split; [rewrite Ho; apply tail_drop|].
      split; [|split; [|split]].
      * intros c Hc'. rewrite !lookup_insert_ne by (unfold q; lia). by apply Hold.
      * intros j aj sj Hj Haj Hsj. destruct (decide (j = k)) as [->|Hnek].
        -- replace (cnext m0 + Z.of_nat k) with q by (unfold q; lia).
           rewrite lookup_insert_eq. rewrite Hak in Haj. injection Haj as <-.
           simpl in Hsj. rewrite Hbuf in Hsj. simpl in Hsj. rewrite Hs in Hsj.
           by injection Hsj as <-.
        -- rewrite !lookup_insert_ne by (unfold q; lia). apply (Hnew j aj); [lia|done|done].
      * intros c Hc'. rewrite !lookup_insert_ne by (unfold q; lia). apply Hfresh2. lia.
      * exists sl'. split; [|split].
        -- rewrite Hsl. by rewrite insert_insert_eq.
        -- unfold sl'. by rewrite length_insert.
        -- intros i. unfold sl'. destruct (decide (i = k)) as [->|Hnek].
           ++ rewrite list_lookup_insert_eq by lia. case_decide; [|lia].
              do 2 f_equal. unfold q. lia.
           ++ rewrite list_lookup_insert_ne by done. rewrite Hpt.
              repeat case_decide; try done; lia.
Qed.

End copy.

Section copy_run.
Context (m : mem) (to from : igraph_strvector_t) (slotsF : list cptr) (psF : list Z).
Hypothesis Hok : mem_ok m.
Hypothesis Hv : valid m from slotsF psF.

(** Every way [igraph_strvector_copy] can go on a valid source. *)
Lemma copy_run :
  ∃ e to' m', igraph_strvector_copy to from m = Done (e, to') m' ∧
    ((granted (S (length psF)) m ∧ e = IGRAPH_SUCCESS ∧
      ∃ slotsT psT,
        valid m' to' slotsT psT ∧ mem_ok m' ∧
        valid m' from slotsF psF ∧
        contents m' to' = contents m from ∧
        contents m' from = contents m from ∧
        stor_begin to' = anext m ∧
        (∀ a, a ∈ psT → cnext m ≤ a) ∧
        (∀ a, a < cnext m → cheap m' !! a = cheap m !! a) ∧
        (∀ b', b' ≠ anext m → b' < anext m → aheap m' !! b' = aheap m !! b')) ∨
     (¬ granted (S (length psF)) m ∧ e = IGRAPH_ENOMEM ∧ stor_begin to' = 0 ∧
      cheap m' = cheap m ∧ aheap m' = aheap m)).
Proof.
  pose proof (valid_base _ _ _ _ Hv) as HbaseF.
  pose proof (valid_block _ _ _ _ Hv) as HblkF.
  pose proof (valid_size _ _ _ _ Hv) as Hsz.
  pose proof (ok_anext _ Hok) as Hpos.
  set (n := length psF) in *.
  destruct (decide (scheduled m = Fails)) as [Hf|Hf].
  { exists IGRAPH_ENOMEM, (set_stor_begin to 0), (pop_oracle m). split.
    - unfold igraph_strvector_copy.
      step ltac:(by apply size_run).
      step ltac:(by apply calloc_slots_fails). done.
    - right. split; [|done]. intros Hg. by apply granted_first in Hg. }
  set (b := anext m).
  set (m0 := mkMem (cheap m) (<[b := replicate n Vnull]> (aheap m))
                   (cnext m) (b + Z.max (size_of from) 1) (tail (oracle m))).
  assert (HbF : stor_begin from < b).
  { apply (live_below_anext m _ Hok). eauto. }
  assert (Hv0 : valid m0 from slotsF psF).
  { apply (valid_frame m); [done| |done]. simpl. by rewrite lookup_insert_ne by lia. }
  assert (Hunfold : igraph_strvector_copy to from m =
    (let* r := for_range 0 (Z.of_nat n) (fun i =>
       let* str := igraph_strvector_get from i in
       let* value := read_chars str in
       let* e := igraph_strvector_set
                   (mkStrvector b (b + Z.of_nat n) (b + Z.of_nat n)) i value in
       if is_success e then ret None
       else
         let* to' := igraph_strvector_destroy
                       (mkStrvector b (b + Z.of_nat n) (b + Z.of_nat n)) in
         ret (Some (e, to'))) in
     match r with
     | Some res => ret res
     | None => ret (IGRAPH_SUCCESS, mkStrvector b (b + Z.of_nat n) (b + Z.of_nat n))
     end) m0).
  { unfold igraph_strvector_copy.
    step ltac:(by apply size_run).
    step ltac:(by apply calloc_slots_run). fold b.
    rewrite Hsz, Nat2Z.id. rewrite <- Hsz at 1. fold m0.
    destruct (Z.eqb_spec b 0) as [Hb0|_]; [lia|].
    step ltac:(by apply size_run).
    step ltac:(by apply size_run).
    rewrite Hsz. done. }
  rewrite Hunfold. clear Hunfold.
  destruct (clone_loop m0 from slotsF psF b Hv0 ltac:(lia) ltac:(lia))
    as [(m2 & Hloop & Hinv & Hgn)|(r & m2 & Hloop & -> & Hng & Hch & Hah & Hc & Ha)].
  { simpl. apply lookup_insert_eq. }
  { simpl. apply (ok_cheap _ Hok). }
  - (* every element is copied *)
    destruct Hinv as (Hc & Ha & Ho & Hold & Hnew & Hfresh & sl & Hsl & Hlsl & Hpt).
    simpl in Hc, Ha, Ho, Hold, Hnew, Hsl. fold n in Hc, Hnew, Hlsl, Hpt.
    rewrite insert_insert_eq in Hsl.
    set (toV := mkStrvector b (b + Z.of_nat n) (b + Z.of_nat n)).
    set (psT := (fun j : nat => cnext m + Z.of_nat j) <$> seq 0 n).
    assert (Hps : sl = Vptr <$> psT).
    { apply list_eq. intros i. rewrite Hpt, list_lookup_fmap.
      unfold psT. rewrite fresh_addresses_lookup.
      repeat case_decide; try done; lia. }
    assert (Hstr : ∀ j, (j < n)%nat → ∃ a s, psF !! j = Some a ∧
              string_at m (Vptr a) = Some s ∧
              string_at m2 (Vptr (cnext m + Z.of_nat j)) = Some s).
    { intros j Hj. destruct (lookup_lt_is_Some_2 psF j Hj) as [a Haj].
      assert (Hain : a ∈ psF) by (by apply list_elem_of_lookup_2 in Haj).
      destruct (valid_strings _ _ _ _ Hv a Hain) as [s Hs].
      exists a, s. split; [done|]. split; [done|]. simpl.
      rewrite (Hnew j a s Hj Haj Hs). simpl.
      destruct (cheap m !! a) as [buf|]; [|done]. by apply (cstring_terminated buf). }
    assert (HvT : valid m2 toV sl psT).
    { split.
      - simpl. lia.
      - simpl. rewrite Hsl. apply lookup_insert_eq.
      - unfold size_of, psT. simpl. rewrite length_fmap, length_seq. lia.
      - unfold size_of, capacity_of. simpl. lia.
      - rewrite Hps. apply take_ge. rewrite length_fmap. lia.
      - apply fresh_addresses_nodup.
      - intros a Hin. apply fresh_addresses_elem in Hin as (j & Hj & ->).
        destruct (Hstr j Hj) as (a & s & _ & _ & Hs2). simpl in Hs2. rewrite Hs2. eauto. }
    assert (HvF : valid m2 from slotsF psF ∧ contents m2 from = contents m from).
    { apply (valid_frame m); [done| |].
      - rewrite Hsl. by rewrite lookup_insert_ne by lia.
      - intros a Hin. apply Hold. apply (live_below_cnext m a Hok).
        by apply (valid_live_block m from slotsF psF). }
    exists IGRAPH_SUCCESS, toV, m2. split.
    { step ltac:(apply Hloop). done. }
    left. split.
    { unfold granted in *. destruct (oracle m) as [|o os] eqn:Hor; [by rewrite take_nil|].
      simpl in *. constructor; [|done].
      unfold scheduled in Hf. by rewrite Hor in Hf. }
    split; [done|]. exists sl, psT.
    destruct HvF as [HvF HcF].
    split; [done|]. split; [|split; [done|split; [|split; [done|split; [done|split; [|split; [done|]]]]]]].
    + split.
      * rewrite Ha. lia.
      * done.
      * intros b' Hb'. rewrite Ha in Hb'. rewrite Hsl.
        rewrite lookup_insert_ne by lia. apply (ok_aheap _ Hok). lia.
    + rewrite (valid_contents _ _ _ _ HvT), (valid_contents _ _ _ _ Hv).
      apply list_eq. intros i. rewrite !list_lookup_fmap.
      unfold psT. rewrite fresh_addresses_lookup. case_decide as Hi.
      * destruct (Hstr i Hi) as (a & s & Hai & Hs & Hs2). rewrite Hai. simpl.
        simpl in Hs, Hs2. by rewrite Hs, Hs2.
      * simpl. by rewrite lookup_ge_None_2 by (fold n; lia).
    + intros a Hin. apply fresh_addresses_elem in Hin as (j & Hj & ->). lia.
    + intros b' Hne Hlt. rewrite Hsl. by rewrite lookup_insert_ne.
  - (* a copy is refused: everything is released *)
    exists IGRAPH_ENOMEM,
           (set_stor_begin (mkStrvector b (b + Z.of_nat n) (b + Z.of_nat n)) 0), m2.
    split.
    { step ltac:(apply Hloop). done. }
    right. split.
    { intros Hg. apply Hng. by apply (granted_tail n m m0). }
    split; [done|]. split; [done|]. split; [done|].
    rewrite Hah. simpl. rewrite delete_insert_eq. apply delete_id.
    apply (ok_aheap _ Hok). lia.
Qed.

End copy_run.

(** ** Removing one element *)

(** [igraph_strvector_remove_section] on a valid vector and a section within
    the size. *)
Lemma remove_section_run (m : mem) (v : igraph_strvector_t)
    (slots : list cptr) (ps : list Z) (from to : Z) :
  valid m v slots ps → 0 ≤ from ≤ to → to ≤ size_of v →
  ∃ m' slots',
    igraph_strvector_remove_section v from to m
      = Done (set_end v (end_ v - (to - from))) m' ∧
    (∀ a, a ∈ take (Z.to_nat (to - from)) (drop (Z.to_nat from) ps) →
          cheap m' !! a = None) ∧
    (∀ a, a ∉ take (Z.to_nat (to - from)) (drop (Z.to_nat from) ps) →
          cheap m' !! a = cheap m !! a) ∧
    valid m' (set_end v (end_ v - (to - from))) slots'
          (take (Z.to_nat from) ps ++ drop (Z.to_nat to) ps) ∧
    contents m' (set_end v (end_ v - (to - from)))
      = take (Z.to_nat from) (contents m v) ++ drop (Z.to_nat to) (contents m v) ∧
    aheap m' = <[stor_begin v := slots']> (aheap m) ∧
    cnext m' = cnext m ∧ anext m' = anext m ∧ oracle m' = oracle m.
Proof.
  intros Hv Hft Hts.
  assert (Hrange : 0 ≤ from ≤ to ∧ to ≤ size_of v) by done.
  destruct (section_bounds m v slots ps from to Hv Hrange) as [Hnat Hlen].
  set (f := Z.to_nat from) in *. set (t := Z.to_nat to) in *.
  set (b := stor_begin v).
  destruct (release_loop m v slots ps from to Hv Hrange)
    as (m1 & Hrun1 & Hc1 & Ha1 & Ho1 & Hgone & Hkept & sl1 & Hsl1 & Hl1 & Hpt1).
  destruct (shift_loop m v slots ps from to Hv Hrange m1 sl1 Hc1 Ha1 Ho1 Hsl1 Hl1)
    as (m2 & Hrun2 & Hc2 & Ha2 & Ho2 & Hch2 & sl2 & Hsl2 & Hl2 & Hpt2).
  fold f t b in Hgone, Hkept, Hpt1, Hpt2, Hsl1, Hsl2.
  replace (Z.to_nat (to - from)) with (t - f)%nat by lia.
  pose proof (valid_size _ _ _ _ Hv) as Hsz.
  pose proof (valid_cap _ _ _ _ Hv) as Hcap.
  assert (Hblk2 : aheap m2 !! b = Some sl2) by (rewrite Hsl2; apply lookup_insert_eq).
  assert (Hdisj : ∀ a, a ∈ take f ps ++ drop t ps → a ∉ take (t - f) (drop f ps)).
  { intros a Hin Hrem. pose proof (valid_nodup _ _ _ _ Hv) as Hnd.
    rewrite (split3 ps f t) in Hnd by lia.
    apply NoDup_app in Hnd as (_ & Hd1 & Hnd).
    apply NoDup_app in Hnd as (_ & Hd2 & _).
    apply elem_of_app in Hin as [Hin|Hin].
    - apply (Hd1 a Hin). apply elem_of_app. by left.
    - by apply (Hd2 a Hrem). }
  assert (Hsl2pt : ∀ i a, (take f ps ++ drop t ps) !! i = Some a → sl2 !! i = Some (Vptr a)).
  { intros i a Hi. rewrite Hpt2.
    pose proof (lookup_lt_Some _ _ _ Hi) as Hlt.
    rewrite length_app, length_take, length_drop in Hlt.
    destruct (decide (i < f)%nat) as [Hif|Hif].
    - case_decide; [lia|]. rewrite Hpt1. case_decide; [lia|].
      rewrite lookup_app_l in Hi by (rewrite length_take; lia).
      rewrite lookup_take_lt in Hi by done. by apply (valid_slot m v slots ps).
    - case_decide; [|lia]. rewrite Hpt1. case_decide; [lia|].
      rewrite lookup_app_r in Hi by (rewrite length_take; lia).
      rewrite length_take, lookup_drop in Hi.
      apply (valid_slot m v slots ps); [done|].
      rewrite <- Hi. f_equal. lia. }
  assert (Hvalid' : valid m2 (set_end v (end_ v - (to - from))) sl2
                      (take f ps ++ drop t ps)).
  { split; simpl.
    - apply (valid_base _ _ _ _ Hv).
    - done.
    - unfold size_of in *. simpl. rewrite length_app, length_take, length_drop. lia.
    - unfold size_of, capacity_of in *. simpl. lia.
    - apply list_eq. intros i. rewrite list_lookup_fmap.
      destruct ((take f ps ++ drop t ps) !! i) as [a|] eqn:Hi; simpl.
      + rewrite lookup_take_lt by (by apply lookup_lt_Some in Hi). by apply Hsl2pt.
      + apply lookup_take_ge. by apply lookup_ge_None_1 in Hi.
    - pose proof (valid_nodup _ _ _ _ Hv) as Hnd.
      rewrite (split3 ps f t) in Hnd by lia.
      apply NoDup_app in Hnd as (Hn1 & Hd1 & Hnd).
      apply NoDup_app in Hnd as (_ & Hd2 & Hn3).
      apply NoDup_app. split; [done|split; [|done]].
      intros a Ha1' Ha3. apply (Hd1 a Ha1'). apply elem_of_app. by right.
    - intros a Ha. rewrite Hch2, (Hkept a (Hdisj a Ha)).
      apply (valid_strings _ _ _ _ Hv).
      apply elem_of_app in Ha as [Ha|Ha].
      + apply elem_of_take in Ha as (i & Hi & _). by apply list_elem_of_lookup_2 in Hi.
      + apply list_elem_of_lookup in Ha as (i & Hi). rewrite lookup_drop in Hi.
        by apply list_elem_of_lookup_2 in Hi. }
  exists m2, sl2. split; [|split; [|split; [|split; [|split; [|split]]]]].
  - unfold igraph_strvector_remove_section.
    rewrite (bind_done _ _ _ _ _ (assert_base _ m (valid_base _ _ _ _ Hv))).
    rewrite (bind_done _ _ _ _ _ Hrun1).
    rewrite (bind_done _ _ _ _ _ Hrun2). done.
  - intros a Ha. rewrite Hch2. by apply Hgone.
  - intros a Ha. rewrite Hch2. by apply Hkept.
  - done.
  - rewrite (valid_contents _ _ _ _ Hvalid'), (valid_contents _ _ _ _ Hv).
    rewrite fmap_app, <- fmap_take, <- fmap_drop. f_equal.
    + apply list_fmap_ext. intros i a Hi. unfold string_at.
      rewrite Hch2, Hkept; [done|]. apply Hdisj, elem_of_app. left.
      by apply list_elem_of_lookup_2 in Hi.
    + apply list_fmap_ext. intros i a Hi. unfold string_at.
      rewrite Hch2, Hkept; [done|]. apply Hdisj, elem_of_app. right.
      by apply list_elem_of_lookup_2 in Hi.
  - done.
  - done.
Qed.

(** ** Gathering by index *)

Lemma mem_ok_shrunk (m m' : mem) (b : Z) (sl : list cptr) :
  mem_ok m → is_Some (aheap m !! b) →
  cnext m' = cnext m → anext m' = anext m →
  (∀ a, cheap m' !! a = None ∨ cheap m' !! a = cheap m !! a) →
  (∀ b', b' ≠ b → aheap m' !! b' = aheap m !! b') →
  mem_ok m'.
Proof.
  intros Hok Hb Hc Ha Hch Hah. split.
  - rewrite Ha. apply (ok_anext _ Hok).
  - intros a Hge. destruct (Hch a) as [->| ->]; [done|]. apply (ok_cheap _ Hok). lia.
  - intros b' Hge. pose proof (live_below_anext m b Hok Hb).
    rewrite Hah by lia. apply (ok_aheap _ Hok). lia.
Qed.

(** [igraph_strvector_resize] to any size, with every allocation granted. *)
Lemma resize_any (m : mem) (v : igraph_strvector_t) (slots : list cptr)
    (ps : list Z) (newsize : Z) :
  mem_ok m → valid m v slots ps → 0 ≤ newsize →
  granted (S (Z.to_nat (newsize - size_of v))) m →
  ∃ v1 m1 slots1 ps1 c,
    igraph_strvector_resize v newsize m = Done (IGRAPH_SUCCESS, v1) m1 ∧
    valid m1 v1 slots1 ps1 ∧ mem_ok m1 ∧ size_of v1 = newsize ∧
    contents m1 v1 = take (Z.to_nat newsize) (contents m v)
                     ++ replicate (Z.to_nat (newsize - size_of v)) (Some []) ∧
    (∀ a, a < cnext m → a ∉ ps → cheap m1 !! a = cheap m !! a) ∧
    (∀ b', b' ≠ stor_begin v → b' < anext m → aheap m1 !! b' = aheap m !! b') ∧
    (stor_begin v1 = stor_begin v ∨ anext m ≤ stor_begin v1) ∧
    (∀ a, a ∈ ps1 → a ∈ ps ∨ cnext m ≤ a) ∧
    cnext m ≤ cnext m1 ∧ anext m ≤ anext m1 ∧
    (c ≤ S (Z.to_nat (newsize - size_of v)))%nat ∧ oracle m1 = drop c (oracle m).
Proof.
  intros Hok Hv Hnew Hg.
  pose proof (valid_size _ _ _ _ Hv) as Hsz.
  pose proof (valid_base _ _ _ _ Hv) as Hbase.
  pose proof (valid_block _ _ _ _ Hv) as Hblk.
  assert (Hlc : length (contents m v) = length ps).
  { rewrite (valid_contents _ _ _ _ Hv). by rewrite length_fmap. }
  destruct (Z.lt_trichotomy newsize (size_of v)) as [Hlt|[Heq|Hgt]].
  - destruct (resize_shrink_valid m v slots ps newsize Hv ltac:(lia))
      as (m' & slots' & Hrun & Hv' & Hsz' & _ & Hc' & Hgone & Hkept & Hcn & Han & Hor & Hah & _).
    exists (set_end v (stor_begin v + newsize)), m', slots', (take (Z.to_nat newsize) ps), 0%nat.
    split; [done|]. split; [done|]. split.
    { apply (mem_ok_shrunk m m' (stor_begin v) slots Hok); [by eauto|done|done| |done].
      intros a. destruct (decide (a ∈ drop (Z.to_nat newsize) ps)); [left|right]; eauto. }
    split; [done|]. split.
    { replace (Z.to_nat (newsize - size_of v)) with 0%nat by lia.
      simpl. by rewrite app_nil_r. }
    split.
    { intros a _ Hout. apply Hkept. intros Hin. apply Hout.
      by apply (subseteq_drop (Z.to_nat newsize) ps). }
    split; [intros b' Hne _; by apply Hah|]. split; [by left|].
    split; [intros a Ha; left; by apply (subseteq_take (Z.to_nat newsize) ps)|].
    split; [lia|]. split; [lia|]. split; [lia|]. done.
  - subst newsize.
    exists v, m, slots, ps, 0%nat. split; [by apply resize_same|].
    split; [done|]. split; [done|]. split; [done|]. split.
    { rewrite Z.sub_diag. simpl. rewrite app_nil_r. rewrite take_ge; [done|]. lia. }
    split; [done|]. split; [done|]. split; [by left|]. split; [by left|].
    split; [lia|]. split; [lia|]. split; [lia|]. done.
  - destruct (resize_granted m v slots ps newsize Hok Hv Hgt Hg)
      as (v1 & m1 & qs & Hrun & Hv1 & Hok1 & Hlq & Hsz1 & Hcap1 & Hc1 & Hfr & Hwhere
          & Hqs & Ho1).
    destruct Hfr as (Hfc & Hfa & Hfch & Hfah).
    exists v1, m1, (Vptr <$> (ps ++ qs)), (ps ++ qs), (S (Z.to_nat (newsize - size_of v))).
    split; [done|]. split; [done|]. split; [done|]. split; [done|]. split.
    { rewrite Hc1. f_equal. rewrite take_ge; [done|]. lia. }
    split; [intros a Ha _; by apply Hfch|]. split; [done|]. split; [done|].
    split.
    { intros a Ha. apply elem_of_app in Ha as [Ha|Ha]; [by left|right; by apply Hqs]. }
    split; [lia|]. split; [lia|]. split; [lia|]. done.
Qed.

Section index_loop.
Context (m1 : mem) (v newv : igraph_strvector_t) (slotsV : list cptr) (psV : list Z).
Context (idx : list Z).
Hypothesis Hne : stor_begin newv ≠ stor_begin v.
Hypothesis Hsize : size_of newv = Z.of_nat (length idx).
Hypothesis Hidx : Forall (fun j => 0 ≤ j < size_of v) idx.
Hypothesis Hg : granted (length idx) m1.


Lemma index_loop :
  gathered m1 v newv slotsV psV idx 0 m1 →
  ∃ m2, for_all 0 (Z.of_nat (length idx)) (fun i =>
          let* j := vector_int_get idx i in
          let* str := igraph_strvector_get v j in
          let* value := read_chars str in
          let* _ := igraph_strvector_set newv i value in
          ret tt) m1 = Done tt m2
        ∧ gathered m1 v newv slotsV psV idx (length idx) m2.
Proof.
  intros H0. unfold for_all. rewrite Z.sub_0_r, Nat2Z.id.
  apply for_each_inv; [done|].
  intros k m2 Hk (slotsN & psN & HvN & Hok & HvV & Hdisj & HcV & Ho & Hah & Hres).
  rewrite Z.add_0_l.
  destruct (lookup_lt_is_Some_2 idx k Hk) as [j Hj].
  assert (Hjr : 0 ≤ j < size_of v).
  { rewrite Forall_lookup in Hidx. by apply (Hidx k). }
  pose proof (valid_size _ _ _ _ HvV) as HszV.
  pose proof (valid_size _ _ _ _ HvN) as HszN.
  destruct (lookup_lt_is_Some_2 psV (Z.to_nat j)) as [a Ha]; [lia|].
  assert (Hain : a ∈ psV) by (by apply list_elem_of_lookup_2 in Ha).
  destruct (valid_strings _ _ _ _ HvV a Hain) as [s Hs].
  destruct (cheap m2 !! a) as [buf|] eqn:Hbuf; [|done]. simpl in Hs.
  assert (Hel : element m1 v (Z.to_nat j) = Some s).
  { assert (Hl : contents m1 v !! Z.to_nat j = Some (Some s)).
    { rewrite <- HcV, (valid_contents _ _ _ _ HvV), list_lookup_fmap, Ha. simpl.
      rewrite Hbuf. simpl. by rewrite Hs. }
    unfold contents in Hl. rewrite list_lookup_fmap in Hl.
    destruct (seq 0 (Z.to_nat (size_of v)) !! Z.to_nat j) as [i|] eqn:Hi; [|done].
    apply lookup_seq in Hi as [-> _]. simpl in Hl. by injection Hl. }
  assert (Hf : scheduled m2 ≠ Fails) by (by apply (granted_scheduled _ k m1 m2 Hg Hk Ho)).
  destruct (set_granted m2 newv slotsN psN (Z.of_nat k) Hok HvN ltac:(lia) buf s Hs Hf)
    as (m3 & aN & aN' & Hset & HaN & HaN' & HvN3 & HcN3 & Hok3 & Ho3 & Hsame & Hah3).
  rewrite Nat2Z.id in HaN, HvN3, HcN3.
  assert (HaNin : aN ∈ psN) by (by apply list_elem_of_lookup_2 in HaN).
  assert (Htarget : aN' = aN ∨ aN' = cnext m2).
  { rewrite HaN'. unfold realloc_target. destruct (scheduled m2); auto. }
  assert (Hlive : ∀ c, c ∈ psV → c < cnext m2).
  { intros c Hc. apply (live_below_cnext m2 c Hok).
    by apply (valid_live_block _ _ _ _ c HvV). }
  assert (HvV3 : valid m3 v slotsV psV ∧ contents m3 v = contents m2 v).
  { apply (valid_frame m2); [done| |].
    - rewrite Hah3 by done. apply (valid_block _ _ _ _ HvV).
    - intros c Hc. apply Hsame.
      + intros ->. by apply (Hdisj aN).
      + destruct Htarget as [-> | ->].
        * intros ->. by apply (Hdisj aN).
        * specialize (Hlive c Hc). lia. }
  destruct HvV3 as [HvV3 HcV3].
  exists m3. split.
  { step ltac:(by apply vector_int_get_run; [lia|rewrite Nat2Z.id]).
    step ltac:(rewrite <- (Z2Nat.id j) by lia; apply get_run;
               [apply (valid_base _ _ _ _ HvV)|];
               unfold slot_at; rewrite (valid_block _ _ _ _ HvV); simpl;
               by apply (valid_slot m2 v slotsV psV)).
    step ltac:(by apply read_chars_run).
    step ltac:(apply Hset). done. }
  exists (<[k := Vptr aN']> slotsN), (<[k := aN']> psN).
  split; [done|]. split; [done|]. split; [done|]. split.
  { intros c Hc Hin. apply list_elem_of_lookup_1 in Hin as [i Hi].
    apply list_lookup_insert_Some in Hi as [(_ & <- & _)|[_ Hi]].
    - destruct Htarget as [-> | ->]; [by apply (Hdisj aN)|].
      specialize (Hlive _ Hc). lia.
    - apply (Hdisj c Hc). by apply list_elem_of_lookup_2 in Hi. }
  split; [by rewrite HcV3|]. split; [rewrite Ho3, Ho; apply tail_drop|].
  split.
  { intros b' Hb'. rewrite Hah3 by done. by apply Hah. }
  assert (Hlk : (k < length (contents m2 newv))%nat).
  { rewrite (valid_contents _ _ _ _ HvN), length_fmap. lia. }
  rewrite HcN3.
  rewrite (take_S_r _ _ (Some s)) by (by apply list_lookup_insert_eq).
  rewrite (take_S_r idx k j Hj), fmap_app. simpl.
  rewrite take_insert_ge by lia. by rewrite Hres, Hel.
Qed.

End index_loop.

Lemma contents_lookup (m : mem) (v : igraph_strvector_t) (i : nat) :
  (i < Z.to_nat (size_of v))%nat → contents m v !! i = Some (element m v i).
Proof.
  intros Hi. unfold contents. rewrite list_lookup_fmap, lookup_seq_lt by done. done.
Qed.




Lemma get_spec_aux (m : mem) (v : igraph_strvector_t) (slots : list cptr) (ps : list Z)
    (idx : Z) :
  valid m v slots ps → 0 ≤ idx < size_of v →
  ∃ a buf s, igraph_strvector_get v idx m = Done (Vptr a) m ∧
             read_chars (Vptr a) m = Done buf m ∧ cstring buf = Some s.
Proof.
  intros Hv Hi. pose proof (valid_size _ _ _ _ Hv) as Hsz.
  destruct (lookup_lt_is_Some_2 ps (Z.to_nat idx)) as [a Ha]; [lia|].
  assert (Hain : a ∈ ps) by (by apply list_elem_of_lookup_2 in Ha).
  destruct (valid_strings _ _ _ _ Hv a Hain) as [s Hs].
  destruct (cheap m !! a) as [buf|] eqn:Hbuf; [|done]. simpl in Hs.
  exists a, buf, s. split; [|split; [by apply read_chars_run|done]].
  rewrite <- (Z2Nat.id idx) by lia. apply get_run; [apply (valid_base _ _ _ _ Hv)|].
  unfold slot_at. rewrite (valid_block _ _ _ _ Hv). simpl.
  by apply (valid_slot m v slots ps).
Qed.



Lemma valid_with_oracle (m : mem) (v : igraph_strvector_t) (slots : list cptr)
    (ps : list Z) (o : list alloc_outcome) :
  valid m v slots ps → valid (with_oracle m o) v slots ps.
Proof.
  intros Hv. apply (valid_frame m); [done| |done]. apply (valid_block _ _ _ _ Hv).
Qed.

(** ** Printing *)

Lemma for_fold_inv {A} (I : nat → A → Prop) (n : nat) (lo : Z) (acc : A)
    (body : Z → A → M A) (m : mem) :
  I 0%nat acc →
  (∀ k a, (k < n)%nat → I k a →
     ∃ a', body (lo + Z.of_nat k) a m = Done a' m ∧ I (S k) a') →
  ∃ a', for_fold n lo acc body m = Done a' m ∧ I n a'.
Proof.
  revert I lo acc. induction n as [|n IH]; intros I lo acc H0 Hstep.
  - by exists acc.
  - destruct (Hstep 0%nat acc) as (a1 & Hb & H1); [lia|done|].
    rewrite Z.add_0_r in Hb.
    destruct (IH (fun k => I (S k)) (lo + 1) a1 H1) as (a' & Hrun & Hn).
    { intros k a Hk HI. destruct (Hstep (S k) a) as (a3 & Hb3 & H3); [lia|done|].
      exists a3. split; [|done]. rewrite <- Hb3. f_equal. lia. }
    exists a'. split; [|done]. simpl. by rewrite (bind_done _ _ _ _ _ Hb).
Qed.

Lemma print_element (m : mem) (v : igraph_strvector_t) (slots : list cptr)
    (ps : list Z) (strs : list (list byte)) (i : nat) (s : list byte) :
  valid m v slots ps → contents m v = Some <$> strs → strs !! i = Some s →
  ∃ a buf, STR v (Z.of_nat i) m = Done (Vptr a) m ∧
           read_chars (Vptr a) m = Done buf m ∧ cstring buf = Some s.
Proof.
  intros Hv Hstrs Hi.
  assert (Hc : contents m v !! i = Some (Some s)).
  { by rewrite Hstrs, list_lookup_fmap, Hi. }
  rewrite (valid_contents _ _ _ _ Hv), list_lookup_fmap in Hc.
  destruct (ps !! i) as [a|] eqn:Ha; [|done]. simpl in Hc.
  destruct (cheap m !! a) as [buf|] eqn:Hbuf; [|done]. simpl in Hc.
  exists a, buf. split; [|split].
  - unfold STR. apply (load_slot_run _ _ _ slots).
    + apply (valid_block _ _ _ _ Hv).
    + lia.
    + rewrite Nat2Z.id. by apply (valid_slot m v slots ps).
  - by apply read_chars_run.
  - by injection Hc.
Qed.

(** [igraph_strvector_print] on either kind of stream. *)
Lemma print_run (m : mem) (v : igraph_strvector_t) (slots : list cptr) (ps : list Z)
    (sep sp : list byte) (strs : list (list byte)) (file : FILE) :
  valid m v slots ps → cstring sep = Some sp → contents m v = Some <$> strs →
  igraph_strvector_print v file sep m
  = Done (IGRAPH_SUCCESS,
          if failing file then file
          else mkFILE (written file ++ joined sp strs) false) m.
Proof.
  intros Hv Hsep Hstrs.
  pose proof (valid_size _ _ _ _ Hv) as Hsz.
  pose proof (valid_base _ _ _ _ Hv) as Hbase.
  assert (Hl : length strs = length ps).
  { rewrite <- (length_fmap Some strs), <- Hstrs, (valid_contents _ _ _ _ Hv).
    by rewrite length_fmap. }
  unfold igraph_strvector_print.
  step ltac:(by apply size_run).
  destruct strs as [|s0 rest].
  - simpl in Hl. rewrite Hsz, <- Hl. simpl.
    rewrite bind_ret. simpl. rewrite bind_ret. rewrite app_nil_r.
    destruct file as [w [|]]; done.
  - simpl in Hl.
    destruct (Z.eqb_spec (size_of v) 0) as [|_]; [lia|]. simpl.
    destruct (print_element m v slots ps _ 0 s0 Hv Hstrs eq_refl) as (a0 & buf0 & Hstr0 & Hrd0 & Hcs0).
    change (Z.of_nat 0) with 0 in Hstr0.
    set (file1 := if failing file then file
                  else mkFILE (written file ++ s0) false).
    assert (Hfirst : (let* p := STR v 0 in
                      let* s := read_chars p in
                      let* r := fprintf_strings file [s] in
                      ret (snd r)) m = Done file1 m).
    { step ltac:(apply Hstr0). step ltac:(apply Hrd0).
      unfold fprintf_strings. simpl. rewrite Hcs0. simpl.
      unfold file1. rewrite app_nil_r. by destruct (failing file). }
    step ltac:(apply Hfirst).
    destruct (for_fold_inv
                (fun k f => f = if failing file then file
                                else mkFILE (written file ++ s0
                                       ++ concat ((fun x => sp ++ x) <$> take k rest)) false)
                (Z.to_nat (size_of v - 1)) 1 file1
                (fun i file =>
                   let* p := STR v i in
                   let* s := read_chars p in
                   let* r := fprintf_strings file [sep; s] in
                   ret (snd r)) m)
      as (f2 & Hrun & Hf2).
    { unfold file1. rewrite take_0. simpl. by rewrite app_nil_r. }
    { intros k f Hk ->.
      destruct (lookup_lt_is_Some_2 rest k ltac:(lia)) as [s Hs].
      destruct (print_element m v slots ps _ (S k) s Hv Hstrs Hs) as (a & buf & Hstr & Hrd & Hcs).
      replace (1 + Z.of_nat k) with (Z.of_nat (S k)) by lia.
      destruct (failing file) eqn:Hfail.
      - exists file. split; [|done].
        step ltac:(apply Hstr). step ltac:(apply Hrd).
        unfold fprintf_strings. simpl. rewrite Hsep, Hcs. simpl. by rewrite Hfail.
      - eexists. split.
        { step ltac:(apply Hstr). step ltac:(apply Hrd).
          unfold fprintf_strings. simpl. rewrite Hsep, Hcs. simpl. reflexivity. }
        simpl. rewrite (take_S_r rest k s Hs), fmap_app, concat_app. simpl.
        rewrite !app_nil_r. by rewrite <- !app_assoc. }
    step ltac:(apply Hrun). rewrite Hf2.
    rewrite take_ge by lia. done.
Qed.




(** The strings of a valid vector. *)
Lemma valid_strings_list (m : mem) (v : igraph_strvector_t) (slots : list cptr)
    (ps : list Z) :
  valid m v slots ps → ∃ strs, contents m v = Some <$> strs.
Proof.
  intros Hv. rewrite (valid_contents _ _ _ _ Hv).
  pose proof (valid_strings _ _ _ _ Hv) as Hs. clear Hv.
  induction ps as [|a ps IH].
  - by exists [].
  - destruct IH as [strs Hstrs].
    { intros c Hc. apply Hs. by right. }
    destruct (Hs a ltac:(by left)) as [s Hsa].
    exists (s :: strs). rewrite !fmap_cons, Hstrs. simpl. by rewrite Hsa.
Qed.

(** ** Further properties of the string vector *)

(** X1: [igraph_strvector_init] with [size] ≥ 0, when none of its [size + 1]
    allocations is refused, returns success and a valid vector at a new slot
    array, of size and capacity [size], whose elements are empty strings in
    new blocks; what was allocated before is untouched. *)
Theorem init_spec (m : mem) (sv : igraph_strvector_t) (size : Z) :
  mem_ok m → 0 ≤ size → granted (S (Z.to_nat size)) m →
  ∃ v m' slots ps,
    igraph_strvector_init sv size m = Done (IGRAPH_SUCCESS, v) m' ∧
    valid m' v slots ps ∧ mem_ok m' ∧
    size_of v = size ∧ capacity_of v = size ∧
    contents m' v = replicate (Z.to_nat size) (Some []) ∧
    (∀ a, a ∈ ps → cheap m !! a = None) ∧
    (∀ a, a < cnext m → cheap m' !! a = cheap m !! a) ∧
    (∀ b, b ≠ stor_begin v → aheap m' !! b = aheap m !! b).
Proof.
  intros Hok Hsize Hg.
  destruct (init_granted m sv size Hok Hsize Hg)
    as (v & m' & slots & ps & Hrun & Hv & Hok' & Hb & Hsz & Hcap & Hc & Hps & Hold
        & Hah & _).
  exists v, m', slots, ps. split; [done|]. split; [done|]. split; [done|].
  split; [done|]. split; [done|]. split; [done|]. split; [|split; [done|]].
  - intros a Ha. apply (ok_cheap _ Hok). apply Hps in Ha. lia.
  - intros b Hne. rewrite Hah. rewrite Hb in Hne. by rewrite lookup_insert_ne.
Qed.

(** X2: when the allocator refuses the slot array,
    [igraph_strvector_init] returns [IGRAPH_ENOMEM], leaves [stor_begin]
    null and allocates nothing. *)
Theorem init_refused (m : mem) (sv : igraph_strvector_t) (size : Z) :
  scheduled m = Fails →
  igraph_strvector_init sv size m
  = Done (IGRAPH_ENOMEM, set_stor_begin sv 0) (pop_oracle m).
Proof.
  intros Hf. unfold igraph_strvector_init.
  step ltac:(by apply calloc_slots_fails). done.
Qed.

(** X3: [igraph_strvector_destroy] on a valid vector releases every element
    and the slot array and nothing else, and leaves [stor_begin] null, so
    that a second [igraph_strvector_destroy] stops on its assertion. *)
Theorem destroy_spec (m : mem) (v : igraph_strvector_t) (slots : list cptr) (ps : list Z) :
  valid m v slots ps → 0 < stor_begin v →
  ∃ m', igraph_strvector_destroy v m = Done (set_stor_begin v 0) m' ∧
    aheap m' = delete (stor_begin v) (aheap m) ∧
    (∀ a, a ∈ ps → cheap m' !! a = None) ∧
    (∀ a, a ∉ ps → cheap m' !! a = cheap m !! a) ∧
    igraph_strvector_destroy (set_stor_begin v 0) m' = Fault AssertionFailed.
Proof.
  intros Hv Hpos.
  destruct (destroy_valid m v slots ps Hv Hpos)
    as (m' & Hrun & Hah & Hgone & Hkept & _ & _ & _ & Hagain).
  by exists m'.
Qed.

(** X4: [igraph_strvector_init] followed by [igraph_strvector_destroy]
    leaves the two heaps as they were before the [init]: every block the
    [init] allocated is released. *)
Theorem init_destroy_roundtrip (m : mem) (sv : igraph_strvector_t) (size : Z) :
  mem_ok m → 0 ≤ size → granted (S (Z.to_nat size)) m →
  ∃ v m1 m2,
    igraph_strvector_init sv size m = Done (IGRAPH_SUCCESS, v) m1 ∧
    igraph_strvector_destroy v m1 = Done (set_stor_begin v 0) m2 ∧
    cheap m2 = cheap m ∧ aheap m2 = aheap m.
Proof.
  intros Hok Hsize Hg.
  destruct (init_granted m sv size Hok Hsize Hg)
    as (v & m1 & slots & ps & Hinit & Hv & Hok1 & Hb & _ & _ & _ & Hps & Hold & Hah & _).
  pose proof (ok_anext _ Hok) as Hpos.
  destruct (destroy_valid m1 v slots ps Hv ltac:(lia))
    as (m2 & Hd & Hah2 & Hgone & Hkept & _).
  exists v, m1, m2. split; [done|]. split; [done|]. split.
  - apply map_eq. intros a. destruct (decide (a ∈ ps)) as [Hin|Hout].
    + rewrite (Hgone a Hin). symmetry. apply (ok_cheap _ Hok). apply Hps in Hin. lia.
    + rewrite (Hkept a Hout). destruct (Z.lt_ge_cases a (cnext m)) as [Hlt|Hge].
      * by apply Hold.
      * rewrite (ok_cheap _ Hok a Hge). apply (ok_cheap _ Hok1).
        destruct (Z.lt_ge_cases a (cnext m1)); [|done].
        exfalso. apply Hout. apply Hps. lia.
  - rewrite Hah2, Hah, Hb. rewrite delete_insert_eq. apply delete_id.
    apply (ok_aheap _ Hok). lia.
Qed.

(** X5: [igraph_strvector_get] at an index below the size returns the
    block of that element, which holds a terminated string, and changes
    nothing. *)
Theorem get_spec (m : mem) (v : igraph_strvector_t) (slots : list cptr) (ps : list Z)
    (idx : Z) :
  valid m v slots ps → 0 ≤ idx < size_of v →
  ∃ a s, igraph_strvector_get v idx m = Done (Vptr a) m ∧
         ps !! Z.to_nat idx = Some a ∧
         string_at m (Vptr a) = Some s ∧
         contents m v !! Z.to_nat idx = Some (Some s).
Proof.
  intros Hv Hi. pose proof (valid_size _ _ _ _ Hv) as Hsz.
  destruct (lookup_lt_is_Some_2 ps (Z.to_nat idx)) as [a Ha]; [lia|].
  assert (Hain : a ∈ ps) by (by apply list_elem_of_lookup_2 in Ha).
  destruct (valid_strings _ _ _ _ Hv a Hain) as [s Hs].
  exists a, s. split; [|split; [done|split; [done|]]].
  - rewrite <- (Z2Nat.id idx) by lia. apply get_run; [apply (valid_base _ _ _ _ Hv)|].
    unfold slot_at. rewrite (valid_block _ _ _ _ Hv). simpl.
    by apply (valid_slot m v slots ps).
  - rewrite (valid_contents _ _ _ _ Hv), list_lookup_fmap, Ha. simpl. by rewrite Hs.
Qed.

(** X6: [igraph_strvector_set] at an index below the size either succeeds,
    and then element [idx] holds a copy of the string while every other
    element, the size and the capacity are as before, or is refused by the
    allocator, and then it returns [IGRAPH_ENOMEM] and the vector is as it
    was.  In both cases the vector stays valid. *)
Theorem set_spec (m : mem) (v : igraph_strvector_t) (slots : list cptr) (ps : list Z)
    (idx : Z) (value s : list byte) :
  mem_ok m → valid m v slots ps → 0 ≤ idx < size_of v → cstring value = Some s →
  ∃ e m' slots' ps',
    igraph_strvector_set v idx value m = Done e m' ∧
    valid m' v slots' ps' ∧
    (∀ b', b' ≠ stor_begin v → aheap m' !! b' = aheap m !! b') ∧
    (∀ c, c ∉ ps → c < cnext m → cheap m' !! c = cheap m !! c) ∧
    ((scheduled m ≠ Fails ∧ e = IGRAPH_SUCCESS ∧
      contents m' v = <[Z.to_nat idx := Some s]> (contents m v)) ∨
     (scheduled m = Fails ∧ e = IGRAPH_ENOMEM ∧ contents m' v = contents m v)).
Proof.
  intros Hok Hv Hidx Hcs.
  destruct (decide (scheduled m = Fails)) as [Hf|Hf].
  - destruct (set_refused m v slots ps idx Hv Hidx value s Hcs Hf) as (Hrun & Hv' & Hc).
    exists IGRAPH_ENOMEM, (pop_oracle m), slots, ps.
    split; [done|]. split; [done|]. split; [done|]. split; [done|]. right. done.
  - destruct (set_granted m v slots ps idx Hok Hv Hidx value s Hcs Hf)
      as (m' & a & a' & Hrun & Ha & Ha' & Hv' & Hc & _ & _ & Hsame & Hah).
    exists IGRAPH_SUCCESS, m'. eexists. eexists.
    split; [done|]. split; [exact Hv'|]. split; [done|]. split; [|by left].
    intros c Hc1 Hc2. apply Hsame.
    + intros ->. apply Hc1. by apply list_elem_of_lookup_2 in Ha.
    + rewrite Ha'. unfold realloc_target. destruct (scheduled m); try lia.
      all: intros ->; apply Hc1; by apply list_elem_of_lookup_2 in Ha.
Qed.

(** X7: [igraph_strvector_remove] at an index below the size releases the
    block of that element and no other, and leaves a valid vector, one
    shorter, with the other elements in their order. *)
Theorem remove_spec (m : mem) (v : igraph_strvector_t) (slots : list cptr)
    (ps : list Z) (elem : Z) :
  valid m v slots ps → 0 ≤ elem < size_of v →
  ∃ m' slots' a,
    igraph_strvector_remove v elem m = Done (set_end v (end_ v - 1)) m' ∧
    ps !! Z.to_nat elem = Some a ∧
    cheap m' !! a = None ∧
    (∀ c, c ≠ a → cheap m' !! c = cheap m !! c) ∧
    valid m' (set_end v (end_ v - 1)) slots' (delete (Z.to_nat elem) ps) ∧
    size_of (set_end v (end_ v - 1)) = size_of v - 1 ∧
    capacity_of (set_end v (end_ v - 1)) = capacity_of v ∧
    contents m' (set_end v (end_ v - 1)) = delete (Z.to_nat elem) (contents m v).
Proof.
  intros Hv He. pose proof (valid_size _ _ _ _ Hv) as Hsz.
  destruct (remove_section_run m v slots ps elem (elem + 1) Hv ltac:(lia) ltac:(lia))
    as (m' & slots' & Hrun & Hgone & Hkept & Hv' & Hc' & _).
  replace (elem + 1 - elem) with 1 in * by lia.
  replace (Z.to_nat (elem + 1)) with (S (Z.to_nat elem)) in * by lia.
  rewrite <- !delete_take_drop in *.
  destruct (lookup_lt_is_Some_2 ps (Z.to_nat elem)) as [a Ha]; [lia|].
  assert (Hone : take (Z.to_nat 1) (drop (Z.to_nat elem) ps) = [a]).
  { change (Z.to_nat 1) with 1%nat. rewrite (drop_S ps a _ Ha). simpl. by rewrite take_0. }
  rewrite Hone in Hgone, Hkept.
  exists m', slots', a. split; [|split; [done|split; [|split; [|split; [done|split; [|split; [done|done]]]]]]].
  - unfold igraph_strvector_remove.
    step ltac:(apply assert_base; apply (valid_base _ _ _ _ Hv)). done.
  - apply Hgone. by apply list_elem_of_singleton.
  - intros c Hc. apply Hkept. intros Hin. by apply list_elem_of_singleton in Hin.
  - unfold size_of. simpl. lia.
Qed.

(** X8: [igraph_strvector_copy] of a valid vector, when none of its
    allocations is refused, returns success and a valid vector at a new slot
    array whose elements are copies, in new blocks, of the strings of the
    source; the source is untouched. *)
Theorem copy_spec (m : mem) (to from : igraph_strvector_t) (slotsF : list cptr)
    (psF : list Z) :
  mem_ok m → valid m from slotsF psF → granted (S (length psF)) m →
  ∃ to' m' slotsT psT,
    igraph_strvector_copy to from m = Done (IGRAPH_SUCCESS, to') m' ∧
    valid m' to' slotsT psT ∧ mem_ok m' ∧
    valid m' from slotsF psF ∧
    contents m' to' = contents m from ∧
    contents m' from = contents m from ∧
    stor_begin to' ≠ stor_begin from ∧
    (∀ a, a ∈ psT → a ∉ psF).
Proof.
  intros Hok Hv Hg.
  destruct (copy_run m to from slotsF psF Hok Hv)
    as (e & to' & m' & Hrun & [(_ & -> & slotsT & psT & HvT & Hok' & HvF & HcT & HcF
                                & Hb & Hnew & _)|(Hng & _)]); [|done].
  exists to', m', slotsT, psT. split; [done|]. split; [done|]. split; [done|].
  split; [done|]. split; [done|]. split; [done|]. split.
  - rewrite Hb. pose proof (live_below_anext m (stor_begin from) Hok
                             ltac:(rewrite (valid_block _ _ _ _ Hv); eauto)). lia.
  - intros a Ha Hin. specialize (Hnew a Ha).
    pose proof (live_below_cnext m a Hok (valid_live_block _ _ _ _ a Hv Hin)). lia.
Qed.

(** X9: when one of the allocations of [igraph_strvector_copy] is refused,
    the call returns [IGRAPH_ENOMEM] with [stor_begin] null and both heaps
    as they were at the call: the copies made so far and the slot array are
    released. *)
Theorem copy_refused (m : mem) (to from : igraph_strvector_t) (slotsF : list cptr)
    (psF : list Z) :
  mem_ok m → valid m from slotsF psF → ¬ granted (S (length psF)) m →
  ∃ to' m',
    igraph_strvector_copy to from m = Done (IGRAPH_ENOMEM, to') m' ∧
    stor_begin to' = 0 ∧ cheap m' = cheap m ∧ aheap m' = aheap m.
Proof.
  intros Hok Hv Hng.
  destruct (copy_run m to from slotsF psF Hok Hv)
    as (e & to' & m' & Hrun & [(Hg & _)|(_ & -> & Hb & Hch & Hah)]); [done|].
  by exists to', m'.
Qed.

(** X10: [igraph_strvector_clear] on a valid vector releases every element and
    no other block, and leaves a valid empty vector with the same reserved
    slots. *)
Theorem clear_spec (m : mem) (sv : igraph_strvector_t) (slots : list cptr) (ps : list Z) :
  valid m sv slots ps →
  ∃ m' slots',
    igraph_strvector_clear sv m = Done (set_end sv (stor_begin sv)) m' ∧
    valid m' (set_end sv (stor_begin sv)) slots' [] ∧
    size_of (set_end sv (stor_begin sv)) = 0 ∧
    capacity_of (set_end sv (stor_begin sv)) = capacity_of sv ∧
    contents m' (set_end sv (stor_begin sv)) = [] ∧
    (∀ a, a ∈ ps → cheap m' !! a = None) ∧
    (∀ a, a ∉ ps → cheap m' !! a = cheap m !! a) ∧
    oracle m' = oracle m.
Proof.
  intros Hv. pose proof (valid_size _ _ _ _ Hv) as Hsz.
  destruct (release_tail m sv slots ps 0 Hv ltac:(lia))
    as (m2 & sl2 & Hrun & Hc & Ha & Ho & Hsl2 & Hl2 & _ & _ & Hgone & Hkept & Hv2 & Hc2).
  rewrite Nat.sub_0_r in Hrun. simpl in Hrun. rewrite Z.add_0_r in Hv2, Hc2.
  exists m2, sl2. split; [|split; [done|split; [|split; [done|split; [done|]]]]].
  - unfold igraph_strvector_clear.
    step ltac:(apply size_run; apply (valid_base _ _ _ _ Hv)).
    unfold for_all. rewrite Z.sub_0_r, Hsz, Nat2Z.id.
    step ltac:(apply Hrun). done.
  - unfold size_of. simpl. lia.
  - split; [|split]; done.
Qed.

(** X11: shrinking with [igraph_strvector_resize] on a valid vector asks the
    allocator for nothing and succeeds: the elements from [newsize] on are
    released and no other block, the reserved slots stay, and the vector is
    valid with the first [newsize] elements. *)
Theorem resize_shrinks (m : mem) (v : igraph_strvector_t) (slots : list cptr)
    (ps : list Z) (newsize : Z) :
  valid m v slots ps → 0 ≤ newsize < size_of v →
  ∃ m' slots',
    igraph_strvector_resize v newsize m
      = Done (IGRAPH_SUCCESS, set_end v (stor_begin v + newsize)) m' ∧
    valid m' (set_end v (stor_begin v + newsize)) slots' (take (Z.to_nat newsize) ps) ∧
    size_of (set_end v (stor_begin v + newsize)) = newsize ∧
    capacity_of (set_end v (stor_begin v + newsize)) = capacity_of v ∧
    contents m' (set_end v (stor_begin v + newsize))
      = take (Z.to_nat newsize) (contents m v) ∧
    (∀ a, a ∈ drop (Z.to_nat newsize) ps → cheap m' !! a = None) ∧
    (∀ a, a ∉ drop (Z.to_nat newsize) ps → cheap m' !! a = cheap m !! a) ∧
    oracle m' = oracle m.
Proof.
  intros Hv Hnew.
  destruct (resize_shrink_valid m v slots ps newsize Hv Hnew)
    as (m' & slots' & Hrun & Hv' & Hsz & Hcap & Hc & Hgone & Hkept & _ & _ & Ho & _).
  by exists m', slots'.
Qed.

(** X12: growing with [igraph_strvector_resize], when none of the
    [newsize - size + 1] allocations is refused, returns success and a valid
    vector of size and capacity [newsize] whose elements are the old
    ones followed by empty strings; blocks and slot arrays of other vectors
    are untouched. *)
Theorem resize_grows (m : mem) (v : igraph_strvector_t) (slots : list cptr)
    (ps : list Z) (newsize : Z) :
  mem_ok m → valid m v slots ps → size_of v < newsize →
  granted (S (Z.to_nat (newsize - size_of v))) m →
  ∃ v1 m1 slots1 ps1,
    igraph_strvector_resize v newsize m = Done (IGRAPH_SUCCESS, v1) m1 ∧
    valid m1 v1 slots1 ps1 ∧ mem_ok m1 ∧
    size_of v1 = newsize ∧ capacity_of v1 = newsize ∧
    contents m1 v1
      = contents m v ++ replicate (Z.to_nat (newsize - size_of v)) (Some []) ∧
    frame m m1 (stor_begin v).
Proof.
  intros Hok Hv Hnew Hg.
  destruct (resize_granted m v slots ps newsize Hok Hv Hnew Hg)
    as (v1 & m1 & qs & H1 & H2 & H3 & _ & H4 & H5 & H6 & H7 & _).
  exists v1, m1. eexists. eexists.
  split; [done|]. split; [exact H2|]. done.
Qed.

(** X13: when the allocator refuses the larger slot array,
    [igraph_strvector_resize] returns [IGRAPH_ENOMEM] and the vector is as
    it was. *)
Theorem resize_refused (m : mem) (v : igraph_strvector_t) (slots : list cptr)
    (ps : list Z) (newsize : Z) :
  valid m v slots ps → size_of v < newsize → scheduled m = Fails →
  igraph_strvector_resize v newsize m = Done (IGRAPH_ENOMEM, v) (pop_oracle m) ∧
  valid (pop_oracle m) v slots ps ∧ contents (pop_oracle m) v = contents m v.
Proof.
  intros Hv Hnew Hf.
  pose proof (valid_base _ _ _ _ Hv) as Hbase.
  pose proof (valid_block _ _ _ _ Hv) as Hblk.
  split.
  - unfold igraph_strvector_resize.
    step ltac:(by apply size_run). simpl.
    step ltac:(by apply size_run). step ltac:(by apply assert_base).
    destruct (Z.ltb_spec newsize (size_of v)); [lia|].
    rewrite Z.gtb_ltb. destruct (Z.ltb_spec (size_of v) newsize); [|lia].
    step ltac:(apply realloc_slots_fails; [by eauto|done]). done.
  - apply (valid_frame m); [done|done|done].
Qed.

(** X14: after [igraph_strvector_resize] has shrunk a vector,
    [igraph_strvector_get] at an index between the new and the old size
    stops on its assertion: the slot of a released element is null. *)
Theorem get_released_aborts (m : mem) (v : igraph_strvector_t) (slots : list cptr)
    (ps : list Z) (newsize idx : Z) :
  valid m v slots ps → 0 ≤ newsize ≤ idx → idx < size_of v →
  ∃ v' m', igraph_strvector_resize v newsize m = Done (IGRAPH_SUCCESS, v') m' ∧
           size_of v' = newsize ∧
           igraph_strvector_get v' idx m' = Fault AssertionFailed.
Proof.
  intros Hv Hn Hi.
  destruct (resize_shrink_valid m v slots ps newsize Hv ltac:(lia))
    as (m' & slots' & Hrun & Hv' & Hsz' & _ & _ & _ & _ & _ & _ & _ & _ & Hnull).
  exists (set_end v (stor_begin v + newsize)), m'. split; [done|]. split; [done|].
  specialize (Hnull idx ltac:(lia)). unfold slot_at in Hnull.
  destruct (aheap m' !! stor_begin (set_end v (stor_begin v + newsize))) as [sl|] eqn:Hblk;
    [|done].
  simpl in Hnull. unfold igraph_strvector_get.
  step ltac:(apply assert_base; apply (valid_base _ _ _ _ Hv')).
  step ltac:(apply (load_slot_run _ _ _ sl); [done|lia|done]).
  done.
Qed.

(** X15: [igraph_strvector_add] on a valid vector of fewer than
    [IGRAPH_INTEGER_MAX / 2] elements, when none of its allocations is
    refused, returns success and a valid vector with a copy of the string as
    its new last element; the capacity is as before when a slot was to
    spare, and twice the size (1 for an empty vector) otherwise. *)
Theorem add_spec (m : mem) (v : igraph_strvector_t) (slots : list cptr) (ps : list Z)
    (value s : list byte) :
  mem_ok m → valid m v slots ps → cstring value = Some s →
  size_of v < Z.quot IGRAPH_INTEGER_MAX 2 →
  granted (Z.to_nat (Z.max 1 (size_of v)) + 2) m →
  ∃ v' m' slots' ps',
    igraph_strvector_add v value m = Done (IGRAPH_SUCCESS, v') m' ∧
    valid m' v' slots' ps' ∧ mem_ok m' ∧
    size_of v' = size_of v + 1 ∧
    contents m' v' = contents m v ++ [Some s] ∧
    capacity_of v' = (if decide (size_of v = capacity_of v)
                      then Z.max 1 (2 * size_of v) else capacity_of v) ∧
    (∀ a, a < cnext m → cheap m' !! a = cheap m !! a) ∧
    (∀ b', b' ≠ stor_begin v → b' < anext m → aheap m' !! b' = aheap m !! b').
Proof.
  intros Hok Hv Hcs Hhalf Hg.
  pose proof (valid_cap _ _ _ _ Hv) as Hcap.
  assert (Hmaxv : Z.quot IGRAPH_INTEGER_MAX 2 = 2 ^ 62 - 1) by (by vm_compute).
  assert (Hmaxi : IGRAPH_INTEGER_MAX = 2 ^ 63 - 1) by done.
  case_decide as Hfull.
  - destruct (add_full m v slots ps value s Hok Hv Hcs Hfull Hhalf Hg)
      as (v1 & m1 & m' & qs & _ & Hrun & Hv' & Hok' & Hcap1 & Hc' & Hfr & _).
    destruct Hfr as (_ & _ & Hfch & Hfah).
    eexists _, m', _, _. split; [exact Hrun|]. split; [exact Hv'|].
    split; [done|]. split; [unfold size_of; simpl; lia|]. split; [done|].
    split; [|done]. unfold capacity_of in *. simpl. done.
  - destruct (add_spare m v slots ps value s Hok Hv Hcs ltac:(lia) ltac:(lia))
      as (m' & Hrun & Hv' & Hok' & Hc' & Hch & Hah & _).
    { apply (granted_scheduled _ 0 m m Hg); [lia|done]. }
    eexists _, m', _, _. split; [exact Hrun|]. split; [exact Hv'|].
    split; [done|]. split; [unfold size_of; simpl; lia|]. split; [done|].
    split; [done|]. split; [done|]. intros b' Hne _. by apply Hah.
Qed.

(** X16: when [igraph_strvector_add] has a slot to spare and the copy of the
    string is refused, it returns [IGRAPH_ENOMEM] and the vector is as it
    was, in struct, size and contents. *)
Theorem add_refused (m : mem) (v : igraph_strvector_t) (slots : list cptr)
    (ps : list Z) (value s : list byte) :
  valid m v slots ps → size_of v < capacity_of v → size_of v < IGRAPH_INTEGER_MAX →
  cstring value = Some s → scheduled m = Fails →
  ∃ m' slots',
    igraph_strvector_add v value m = Done (IGRAPH_ENOMEM, v) m' ∧
    valid m' v slots' ps ∧ contents m' v = contents m v.
Proof.
  intros Hv Hspare Hmax Hcs Hf.
  destruct (add_spare_refused m v slots ps value s Hv Hspare Hmax Hcs Hf)
    as (m' & Hrun & Hv' & Hc).
  by exists m', (<[length ps := Vnull]> slots).
Qed.

(** X17: after [igraph_strvector_add] on a full vector, a block the call
    allocated is live and no slot of the vector leads to it: the empty
    string [igraph_strvector_resize] put in the new last slot is overwritten
    without being released. *)
Theorem add_full_leaks (m : mem) (v : igraph_strvector_t) (slots : list cptr)
    (ps : list Z) (value s : list byte) :
  mem_ok m → valid m v slots ps → cstring value = Some s →
  size_of v = capacity_of v → size_of v < Z.quot IGRAPH_INTEGER_MAX 2 →
  granted (Z.to_nat (Z.max 1 (size_of v)) + 2) m →
  ∃ v' m' slots' q,
    igraph_strvector_add v value m = Done (IGRAPH_SUCCESS, v') m' ∧
    aheap m' !! stor_begin v' = Some slots' ∧
    cheap m !! q = None ∧ is_Some (cheap m' !! q) ∧ Vptr q ∉ slots'.
Proof.
  intros Hok Hv Hcs Hfull Hhalf Hg.
  destruct (add_full m v slots ps value s Hok Hv Hcs Hfull Hhalf Hg)
    as (v1 & m1 & m' & qs & _ & Hrun & Hv' & _ & _ & _ & _ & Hlq & Hqs & Hnd).
  destruct (lookup_lt_is_Some_2 qs 0) as [q Hq]; [lia|].
  assert (Hqin : q ∈ qs) by (by apply list_elem_of_lookup_2 in Hq).
  destruct (Hqs q Hqin) as [[Hge Hlt] Hlive].
  eexists _, m', _, q. split; [exact Hrun|].
  split; [apply (valid_block _ _ _ _ Hv')|].
  split; [apply (ok_cheap _ Hok); lia|]. split; [done|].
  intros Hin. apply list_elem_of_lookup_1 in Hin as [i Hi].
  apply list_lookup_insert_Some in Hi as [(_ & Hp & _)|[Hne Hi]].
  - injection Hp as Hp. lia.
  - rewrite list_lookup_fmap in Hi.
    destruct ((ps ++ qs) !! i) as [c|] eqn:Hc; [|done].
    injection Hi as ->. apply Hne.
    apply (NoDup_lookup (ps ++ qs) (length ps) i q Hnd); [|done].
    rewrite lookup_app_r by lia. by rewrite Nat.sub_diag.
Qed.


(** X19: [igraph_strvector_print] on a valid vector writes the strings in
    index order with the separator between them and none after the last,
    leaves the memory as it was and returns [IGRAPH_SUCCESS]. *)
Theorem print_spec (m : mem) (v : igraph_strvector_t) (slots : list cptr) (ps : list Z)
    (sep sp : list byte) (strs : list (list byte)) (out : list byte) :
  valid m v slots ps → cstring sep = Some sp → contents m v = Some <$> strs →
  igraph_strvector_print v (mkFILE out false) sep m
  = Done (IGRAPH_SUCCESS, mkFILE (out ++ joined sp strs) false) m.
Proof.
  intros Hv Hsep Hstrs.
  by rewrite (print_run m v slots ps sep sp strs (mkFILE out false) Hv Hsep Hstrs).
Qed.

(** X20: [igraph_strvector_print] does not look at what [fprintf] returns:
    on a stream whose writes fail it still returns [IGRAPH_SUCCESS], with
    nothing written. *)
Theorem print_hides_write_failure (m : mem) (v : igraph_strvector_t)
    (slots : list cptr) (ps : list Z) (sep sp : list byte) (strs : list (list byte))
    (out : list byte) :
  valid m v slots ps → cstring sep = Some sp → contents m v = Some <$> strs →
  igraph_strvector_print v (mkFILE out true) sep m
  = Done (IGRAPH_SUCCESS, mkFILE out true) m.
Proof.
  intros Hv Hsep Hstrs.
  by rewrite (print_run m v slots ps sep sp strs (mkFILE out true) Hv Hsep Hstrs).
Qed.

(** X21: [igraph_strvector_index] with in-range indices and every
    allocation granted resizes [newv] to the number of indices and makes its
    element [i] a copy of element [idx[i]] of [v]; [v] is untouched. *)
Theorem index_spec (m : mem) (v newv : igraph_strvector_t) (slotsV slotsN : list cptr)
    (psV psN : list Z) (idx : list Z) :
  mem_ok m → valid m v slotsV psV → valid m newv slotsN psN →
  stor_begin newv ≠ stor_begin v → (∀ a, a ∈ psV → a ∉ psN) →
  Forall (fun j => 0 ≤ j < size_of v) idx →
  granted (S (Z.to_nat (Z.of_nat (length idx) - size_of newv)) + length idx) m →
  ∃ newv' m' slotsN' psN',
    igraph_strvector_index v newv idx m = Done (IGRAPH_SUCCESS, newv') m' ∧
    valid m' newv' slotsN' psN' ∧ mem_ok m' ∧
    size_of newv' = Z.of_nat (length idx) ∧
    contents m' newv' = (fun j => element m v (Z.to_nat j)) <$> idx ∧
    valid m' v slotsV psV ∧ contents m' v = contents m v.
Proof.
  intros Hok HvV HvN Hne Hdisj Hidx Hg.
  set (n := length idx) in *.
  destruct (resize_any m newv slotsN psN (Z.of_nat n) Hok HvN ltac:(lia))
    as (v1 & m1 & slots1 & ps1 & c & Hrs & Hv1 & Hok1 & Hsz1 & _ & Hch & Hah & Hwhere
        & Hps1 & _ & _ & Hc & Ho1).
  { apply (granted_le _ (S (Z.to_nat (Z.of_nat n - size_of newv)) + n)); [lia|done]. }
  pose proof (live_below_anext m (stor_begin v) Hok
                ltac:(rewrite (valid_block _ _ _ _ HvV); eauto)) as HbV.
  assert (Hlive : ∀ a, a ∈ psV → a < cnext m).
  { intros a Ha. apply (live_below_cnext m a Hok).
    by apply (valid_live_block _ _ _ _ a HvV). }
  destruct (valid_frame m m1 v slotsV psV HvV) as [HvV1 HcV1].
  { rewrite Hah by done. apply (valid_block _ _ _ _ HvV). }
  { intros a Ha. apply Hch; [by apply Hlive|by apply Hdisj]. }
  assert (Hne1 : stor_begin v1 ≠ stor_begin v) by (destruct Hwhere; lia).
  assert (Hg1 : granted n m1).
  { apply (granted_drop c n m m1); [|done].
    apply (granted_le _ (S (Z.to_nat (Z.of_nat n - size_of newv)) + n)); [lia|done]. }
  destruct (index_loop m1 v v1 slotsV psV idx Hne1 Hsz1 Hidx Hg1)
    as (m2 & Hloop & slotsN' & psN' & HvN2 & Hok2 & HvV2 & _ & HcV2 & _ & _ & Hres).
  { exists slots1, ps1. split; [done|]. split; [done|]. split; [done|]. split.
    - intros a Ha Hin. destruct (Hps1 a Hin) as [Hin'|Hge].
      + by apply (Hdisj a).
      + specialize (Hlive a Ha). lia.
    - split; [done|]. split; [done|]. split; [done|]. by rewrite !take_0. }
  exists v1, m2, slotsN', psN'. split.
  { unfold igraph_strvector_index, igraph_vector_int_size. fold n.
    step ltac:(apply Hrs). simpl.
    step ltac:(apply Hloop). done. }
  split; [done|]. split; [done|]. split; [done|]. split.
  - assert (Hl2 : length (contents m2 v1) = n).
    { rewrite (valid_contents _ _ _ _ HvN2), length_fmap.
      pose proof (valid_size _ _ _ _ HvN2). lia. }
    rewrite <- (take_ge (contents m2 v1) n) by lia. fold n in Hres. rewrite Hres.
    rewrite take_ge by (unfold n; lia).
    apply list_fmap_ext. intros i j Hj. simpl.
    rewrite Forall_lookup in Hidx. specialize (Hidx i j Hj).
    assert (Some (element m1 v (Z.to_nat j)) = Some (element m v (Z.to_nat j))); [|congruence].
    rewrite <- !contents_lookup by lia. by rewrite HcV1.
  - split; [done|]. by rewrite HcV2.
Qed.

(** X22: [igraph_strvector_index] does not look at what
    [igraph_strvector_set] returns: when [newv] has the size of the index
    list already and every copy is refused, the call still returns
    [IGRAPH_SUCCESS], and [newv] holds what it held before. *)
Theorem index_hides_refusal (m : mem) (v newv : igraph_strvector_t)
    (slotsV slotsN : list cptr) (psV psN : list Z) (idx : list Z) :
  valid m v slotsV psV → valid m newv slotsN psN →
  size_of newv = Z.of_nat (length idx) →
  Forall (fun j => 0 ≤ j < size_of v) idx →
  (∀ k, (k < length idx)%nat → oracle m !! k = Some Fails) →
  igraph_strvector_index v newv idx m
  = Done (IGRAPH_SUCCESS, newv) (with_oracle m (drop (length idx) (oracle m))).
Proof.
  intros HvV HvN Hsize Hidx Hfails.
  unfold igraph_strvector_index, igraph_vector_int_size.
  rewrite <- Hsize.
  step ltac:(apply resize_same; apply (valid_base _ _ _ _ HvN)). simpl.
  rewrite Hsize.
  destruct (for_each_inv (fun k m2 => m2 = with_oracle m (drop k (oracle m)))
              (length idx) 0
              (fun i =>
                 let* j := vector_int_get idx i in
                 let* str := igraph_strvector_get v j in
                 let* value := read_chars str in
                 let* _ := igraph_strvector_set newv i value in
                 ret tt) m) as (m2 & Hrun & ->).
  { by destruct m. }
  { intros k m2 Hk ->. rewrite Z.add_0_l.
    set (mk := with_oracle m (drop k (oracle m))).
    pose proof (valid_with_oracle m v slotsV psV (drop k (oracle m)) HvV) as HvVk.
    pose proof (valid_with_oracle m newv slotsN psN (drop k (oracle m)) HvN) as HvNk.
    fold mk in HvVk, HvNk.
    destruct (lookup_lt_is_Some_2 idx k Hk) as [j Hj].
    assert (Hjr : 0 ≤ j < size_of v).
    { rewrite Forall_lookup in Hidx. by apply (Hidx k). }
    destruct (get_spec_aux mk v slotsV psV j HvVk Hjr) as (a & buf & s & Hget & Hrd & Hcs).
    assert (Hf : scheduled mk = Fails).
    { unfold scheduled, mk. simpl.
      pose proof (Hfails k Hk) as Hk'.
      rewrite <- (Nat.add_0_r k), <- lookup_drop in Hk'.
      destruct (drop k (oracle m)); [done|]. simpl in Hk'. by injection Hk'. }
    destruct (set_refused mk newv slotsN psN (Z.of_nat k) HvNk ltac:(lia) buf s Hcs Hf)
      as (Hset & _).
    eexists. split.
    { step ltac:(by apply vector_int_get_run; [lia|rewrite Nat2Z.id]).
      step ltac:(apply Hget). step ltac:(apply Hrd). step ltac:(apply Hset). done. }
    unfold pop_oracle, mk, with_oracle. simpl. by rewrite tail_drop. }
  unfold for_all. rewrite Z.sub_0_r, Nat2Z.id.
  step ltac:(apply Hrun). done.
Qed.

(** ** The further properties on concrete vectors *)

(** A vector of two empty strings from the empty memory. *)
Lemma init_witness :
  ∃ v m', igraph_strvector_init (mkStrvector 0 0 0) 2 (empty_mem [])
            = Done (IGRAPH_SUCCESS, v) m' ∧
          size_of v = 2 ∧ contents m' v = [Some []; Some []].
Proof.
  destruct (init_spec (empty_mem []) (mkStrvector 0 0 0) 2)
    as (v & m' & slots & ps & Hrun & _ & _ & Hsz & _ & Hc & _).
  - apply check_mem_ok_sound. by vm_compute.
  - lia.
  - apply granted_nil. by vm_compute.
  - exists v, m'. split; [exact Hrun|]. split; [exact Hsz|exact Hc].
Defined.

(** The slot array is refused. *)
Lemma init_refused_witness :
  igraph_strvector_init (mkStrvector 5 5 5) 2 (empty_mem [Fails])
  = Done (IGRAPH_ENOMEM, mkStrvector 0 5 5) (empty_mem []).
Proof.
  refine (eq_trans (init_refused (empty_mem [Fails]) (mkStrvector 5 5 5) 2 _) _).
  - by vm_compute.
  - by vm_compute.
Defined.

(** Destroying ["a"; "b"]. *)
Lemma destroy_witness :
  ∃ m', after vec_ab [] igraph_strvector_destroy = Done (mkStrvector 0 3 3) m' ∧
        cheap m' !! 1 = None ∧ cheap m' !! 2 = None ∧ aheap m' !! 1 = None ∧
        igraph_strvector_destroy (mkStrvector 0 3 3) m' = Fault AssertionFailed.
Proof.
  destruct (destroy_spec (snd (state_of vec_ab [])) (fst (state_of vec_ab []))
              [Vptr 1; Vptr 2] [1; 2])
    as (m' & Hrun & Hah & Hgone & _ & Hagain).
  - apply check_valid_sound. by vm_compute.
  - by vm_compute.
  - exists m'. split; [exact Hrun|].
    split; [apply Hgone; by left|]. split; [apply Hgone; right; by left|].
    split; [|exact Hagain]. rewrite Hah. by vm_compute.
Defined.

(** Initialising and destroying in the empty memory leaves it empty. *)
Lemma init_destroy_roundtrip_witness :
  ∃ v m1 m2,
    igraph_strvector_init (mkStrvector 0 0 0) 2 (empty_mem [])
      = Done (IGRAPH_SUCCESS, v) m1 ∧
    igraph_strvector_destroy v m1 = Done (set_stor_begin v 0) m2 ∧
    cheap m2 = ∅ ∧ aheap m2 = ∅.
Proof.
  destruct (init_destroy_roundtrip (empty_mem []) (mkStrvector 0 0 0) 2)
    as (v & m1 & m2 & Hinit & Hd & Hch & Hah).
  - apply check_mem_ok_sound. by vm_compute.
  - lia.
  - apply granted_nil. by vm_compute.
  - exists v, m1, m2. split; [exact Hinit|]. split; [exact Hd|].
    split; [exact Hch|exact Hah].
Defined.

(** Element 1 of ["a"; "b"]. *)
Lemma get_witness :
  ∃ a, after vec_ab [] (fun v => igraph_strvector_get v 1)
         = Done (Vptr a) (snd (state_of vec_ab [])) ∧
       string_at (snd (state_of vec_ab [])) (Vptr a) = Some (bytes "b").
Proof.
  destruct (get_spec (snd (state_of vec_ab [])) (fst (state_of vec_ab []))
              [Vptr 1; Vptr 2] [1; 2] 1)
    as (a & s & Hget & _ & Hs & Hc).
  - apply check_valid_sound. by vm_compute.
  - by vm_compute.
  - exists a. split; [exact Hget|]. refine (eq_trans Hs _).
    vm_compute in Hc. injection Hc as Hc. by rewrite <- Hc.
Defined.

(** Setting element 0 of ["a"; "b"] to "xyz". *)
Lemma set_witness :
  ∃ m', after vec_ab [] (fun v => igraph_strvector_set v 0 (lit "xyz"))
          = Done IGRAPH_SUCCESS m' ∧
        contents m' (fst (state_of vec_ab [])) = [Some (bytes "xyz"); Some (bytes "b")].
Proof.
  destruct (set_spec (snd (state_of vec_ab [])) (fst (state_of vec_ab []))
              [Vptr 1; Vptr 2] [1; 2] 0 (lit "xyz") (bytes "xyz"))
    as (e & m' & slots' & ps' & Hrun & _ & _ & _ & [(_ & He & Hc)|(Hf & _)]).
  - apply check_mem_ok_sound. by vm_compute.
  - apply check_valid_sound. by vm_compute.
  - by vm_compute.
  - by vm_compute.
  - subst e. exists m'. split; [exact Hrun|]. refine (eq_trans Hc _). by vm_compute.
  - vm_compute in Hf. discriminate Hf.
Defined.

(** Removing element 1 of ["a"; "b"; "c"]. *)
Lemma remove_witness :
  ∃ m', after vec_abc [] (fun v => igraph_strvector_remove v 1)
          = Done (mkStrvector 1 4 3) m' ∧
        contents m' (mkStrvector 1 4 3) = [Some (bytes "a"); Some (bytes "c")] ∧
        cheap m' !! 2 = None.
Proof.
  destruct (remove_spec (snd (state_of vec_abc [])) (fst (state_of vec_abc []))
              [Vptr 1; Vptr 2; Vptr 3] [1; 2; 3] 1)
    as (m' & slots' & a & Hrun & Ha & Hgone & _ & _ & _ & _ & Hc).
  - apply check_valid_sound. by vm_compute.
  - by vm_compute.
  - exists m'. split; [exact Hrun|]. split; [refine (eq_trans Hc _); by vm_compute|].
    vm_compute in Ha. injection Ha as Ha. by rewrite Ha.
Defined.

(** A copy of ["a"; "b"]. *)
Lemma copy_witness :
  ∃ to' m',
    igraph_strvector_copy (mkStrvector 0 0 0) (fst (state_of vec_ab []))
      (snd (state_of vec_ab [])) = Done (IGRAPH_SUCCESS, to') m' ∧
    contents m' to' = [Some (bytes "a"); Some (bytes "b")] ∧
    contents m' (fst (state_of vec_ab [])) = [Some (bytes "a"); Some (bytes "b")] ∧
    stor_begin to' ≠ 1.
Proof.
  destruct (copy_spec (snd (state_of vec_ab [])) (mkStrvector 0 0 0)
              (fst (state_of vec_ab [])) [Vptr 1; Vptr 2] [1; 2])
    as (to' & m' & slotsT & psT & Hrun & _ & _ & _ & HcT & HcF & Hne & _).
  - apply check_mem_ok_sound. by vm_compute.
  - apply check_valid_sound. by vm_compute.
  - apply granted_nil. by vm_compute.
  - exists to', m'. split; [exact Hrun|].
    split; [refine (eq_trans HcT _); by vm_compute|].
    split; [refine (eq_trans HcF _); by vm_compute|exact Hne].
Defined.

(** The copy of the second string of ["a"; "b"] is refused. *)
Lemma copy_refused_witness :
  ∃ to' m',
    igraph_strvector_copy (mkStrvector 0 0 0)
      (fst (state_of vec_ab [InPlace; InPlace; Fails]))
      (snd (state_of vec_ab [InPlace; InPlace; Fails]))
    = Done (IGRAPH_ENOMEM, to') m' ∧
    stor_begin to' = 0 ∧
    cheap m' = cheap (snd (state_of vec_ab [])) ∧
    aheap m' = aheap (snd (state_of vec_ab [])).
Proof.
  destruct (copy_refused (snd (state_of vec_ab [InPlace; InPlace; Fails]))
              (mkStrvector 0 0 0) (fst (state_of vec_ab [InPlace; InPlace; Fails]))
              [Vptr 1; Vptr 2] [1; 2])
    as (to' & m' & Hrun & Hb & Hch & Hah).
  - apply check_mem_ok_sound. by vm_compute.
  - apply check_valid_sound. by vm_compute.
  - intros Hg. unfold granted in Hg. rewrite Forall_lookup in Hg.
    apply (Hg 2%nat Fails); [by vm_compute|done].
  - exists to', m'. split; [exact Hrun|]. split; [exact Hb|].
    split; [exact Hch|exact Hah].
Defined.

(** Clearing ["a"; "b"; "c"; "d"]. *)
Lemma clear_witness :
  ∃ m', after vec_abcd [] igraph_strvector_clear = Done (mkStrvector 1 5 1) m' ∧
        contents m' (mkStrvector 1 5 1) = [] ∧
        capacity_of (mkStrvector 1 5 1) = 4 ∧
        cheap m' !! 3 = None.
Proof.
  destruct (clear_spec (snd (state_of vec_abcd [])) (fst (state_of vec_abcd []))
              [Vptr 1; Vptr 2; Vptr 3; Vptr 4] [1; 2; 3; 4])
    as (m' & slots' & Hrun & _ & _ & _ & Hc & Hgone & _).
  - apply check_valid_sound. by vm_compute.
  - exists m'. split; [exact Hrun|]. split; [exact Hc|]. split; [done|].
    apply Hgone. do 2 right. by left.
Defined.

(** ["a"; "b"; "c"; "d"] cut back to one element. *)
Lemma resize_shrinks_witness :
  ∃ m', after vec_abcd [] (fun v => igraph_strvector_resize v 1)
          = Done (IGRAPH_SUCCESS, mkStrvector 1 5 2) m' ∧
        contents m' (mkStrvector 1 5 2) = [Some (bytes "a")] ∧
        cheap m' !! 2 = None.
Proof.
  destruct (resize_shrinks (snd (state_of vec_abcd [])) (fst (state_of vec_abcd []))
              [Vptr 1; Vptr 2; Vptr 3; Vptr 4] [1; 2; 3; 4] 1)
    as (m' & slots' & Hrun & _ & _ & _ & Hc & Hgone & _).
  - apply check_valid_sound. by vm_compute.
  - by vm_compute.
  - exists m'. split; [exact Hrun|]. split; [refine (eq_trans Hc _); by vm_compute|].
    apply Hgone. by left.
Defined.

(** ["a"; "b"] grown to four elements. *)
Lemma resize_grows_witness :
  ∃ v1 m1, after vec_ab [] (fun v => igraph_strvector_resize v 4)
             = Done (IGRAPH_SUCCESS, v1) m1 ∧
           capacity_of v1 = 4 ∧
           contents m1 v1 = [Some (bytes "a"); Some (bytes "b"); Some []; Some []].
Proof.
  destruct (resize_grows (snd (state_of vec_ab [])) (fst (state_of vec_ab []))
              [Vptr 1; Vptr 2] [1; 2] 4)
    as (v1 & m1 & slots1 & ps1 & Hrun & _ & _ & _ & Hcap & Hc & _).
  - apply check_mem_ok_sound. by vm_compute.
  - apply check_valid_sound. by vm_compute.
  - by vm_compute.
  - apply granted_nil. by vm_compute.
  - exists v1, m1. split; [exact Hrun|]. split; [exact Hcap|].
    refine (eq_trans Hc _). by vm_compute.
Defined.

(** The larger slot array for ["a"; "b"] is refused. *)
Lemma resize_refused_witness :
  after vec_ab [Fails] (fun v => igraph_strvector_resize v 4)
    = Done (IGRAPH_ENOMEM, mkStrvector 1 3 3) (snd (state_of vec_ab [])) ∧
  contents (snd (state_of vec_ab [])) (mkStrvector 1 3 3)
    = [Some (bytes "a"); Some (bytes "b")].
Proof.
  destruct (resize_refused (snd (state_of vec_ab [Fails])) (fst (state_of vec_ab [Fails]))
              [Vptr 1; Vptr 2] [1; 2] 4)
    as (Hrun & _ & Hc).
  - apply check_valid_sound. by vm_compute.
  - by vm_compute.
  - by vm_compute.
  - split; [exact Hrun|]. refine (eq_trans Hc _). by vm_compute.
Defined.

(** Element 2 of ["a"; "b"; "c"; "d"] after it was cut back to one
    element. *)
Lemma get_released_aborts_witness :
  ∃ v' m', after vec_abcd [] (fun v => igraph_strvector_resize v 1)
             = Done (IGRAPH_SUCCESS, v') m' ∧
           igraph_strvector_get v' 2 m' = Fault AssertionFailed.
Proof.
  destruct (get_released_aborts (snd (state_of vec_abcd [])) (fst (state_of vec_abcd []))
              [Vptr 1; Vptr 2; Vptr 3; Vptr 4] [1; 2; 3; 4] 1 2)
    as (v' & m' & Hrun & _ & Hget).
  - apply check_valid_sound. by vm_compute.
  - lia.
  - by vm_compute.
  - exists v', m'. split; [exact Hrun|exact Hget].
Defined.

(** Adding "c" to ["a"; "b"], which has no slot to spare. *)
Lemma add_witness :
  ∃ v' m', after vec_ab [] (fun v => igraph_strvector_add v (lit "c"))
             = Done (IGRAPH_SUCCESS, v') m' ∧
           size_of v' = 3 ∧ capacity_of v' = 4 ∧
           contents m' v' = [Some (bytes "a"); Some (bytes "b"); Some (bytes "c")].
Proof.
  destruct (add_spec (snd (state_of vec_ab [])) (fst (state_of vec_ab []))
              [Vptr 1; Vptr 2] [1; 2] (lit "c") (bytes "c"))
    as (v' & m' & slots' & ps' & Hrun & _ & _ & Hsz & Hc & Hcap & _).
  - apply check_mem_ok_sound. by vm_compute.
  - apply check_valid_sound. by vm_compute.
  - by vm_compute.
  - by vm_compute.
  - apply granted_nil. by vm_compute.
  - exists v', m'. split; [exact Hrun|].
    split; [refine (eq_trans Hsz _); by vm_compute|].
    split; [refine (eq_trans Hcap _); by vm_compute|].
    refine (eq_trans Hc _). by vm_compute.
Defined.

(** Adding to ["a"] with a slot to spare, the copy refused. *)
Lemma add_refused_witness :
  ∃ m', after vec_a_spare [Fails] (fun v => igraph_strvector_add v (lit "z"))
          = Done (IGRAPH_ENOMEM, mkStrvector 1 3 2) m' ∧
        contents m' (mkStrvector 1 3 2) = [Some (bytes "a")].
Proof.
  destruct (add_refused (snd (state_of vec_a_spare [Fails]))
              (fst (state_of vec_a_spare [Fails])) [Vptr 1; Vnull] [1]
              (lit "z") (bytes "z"))
    as (m' & slots' & Hrun & _ & Hc).
  - apply check_valid_sound. by vm_compute.
  - by vm_compute.
  - by vm_compute.
  - by vm_compute.
  - by vm_compute.
  - exists m'. split; [exact Hrun|]. refine (eq_trans Hc _). by vm_compute.
Defined.

(** Adding "c" to ["a"; "b"] leaves a block that no slot leads to. *)
Lemma add_full_leaks_witness :
  ∃ v' m' slots' q,
    after vec_ab [] (fun v => igraph_strvector_add v (lit "c"))
      = Done (IGRAPH_SUCCESS, v') m' ∧
    aheap m' !! stor_begin v' = Some slots' ∧
    cheap (snd (state_of vec_ab [])) !! q = None ∧
    is_Some (cheap m' !! q) ∧ Vptr q ∉ slots'.
Proof.
  destruct (add_full_leaks (snd (state_of vec_ab [])) (fst (state_of vec_ab []))
              [Vptr 1; Vptr 2] [1; 2] (lit "c") (bytes "c"))
    as (v' & m' & slots' & q & Hrun & Hblk & Hnew & Hlive & Hout).
  - apply check_mem_ok_sound. by vm_compute.
  - apply check_valid_sound. by vm_compute.
  - by vm_compute.
  - by vm_compute.
  - by vm_compute.
  - apply granted_nil. by vm_compute.
  - exists v', m', slots', q. split; [exact Hrun|]. split; [exact Hblk|].
    split; [exact Hnew|]. split; [exact Hlive|exact Hout].
Defined.


(** Printing ["a"; "b"; "c"] with ", " between the strings. *)
Lemma print_witness :
  after vec_abc [] (fun v => igraph_strvector_print v (mkFILE [] false) (lit ", "))
  = Done (IGRAPH_SUCCESS, mkFILE (bytes "a, b, c") false) (snd (state_of vec_abc [])).
Proof.
  refine (eq_trans
            (print_spec (snd (state_of vec_abc [])) (fst (state_of vec_abc []))
               [Vptr 1; Vptr 2; Vptr 3] [1; 2; 3] (lit ", ") (bytes ", ")
               [bytes "a"; bytes "b"; bytes "c"] [] _ _ _) _).
  - apply check_valid_sound. by vm_compute.
  - by vm_compute.
  - by vm_compute.
  - by vm_compute.
Defined.

(** Printing ["a"; "b"; "c"] to a stream whose writes fail. *)
Lemma print_hides_write_failure_witness :
  after vec_abc [] (fun v => igraph_strvector_print v (mkFILE [] true) (lit ", "))
  = Done (IGRAPH_SUCCESS, mkFILE [] true) (snd (state_of vec_abc [])).
Proof.
  apply (print_hides_write_failure (snd (state_of vec_abc [])) (fst (state_of vec_abc []))
           [Vptr 1; Vptr 2; Vptr 3] [1; 2; 3] (lit ", ") (bytes ", ")
           [bytes "a"; bytes "b"; bytes "c"] []).
  - apply check_valid_sound. by vm_compute.
  - by vm_compute.
  - by vm_compute.
Defined.

(** [GatherByIndex(["x"; "y"; "z"], [2; 0; 0])] gives ["z"; "x"; "x"]. *)
Lemma index_witness :
  ∃ newv' m',
    igraph_strvector_index (fst (fst (xyz_and_empty []))) (snd (fst (xyz_and_empty [])))
      [2; 0; 0] (snd (xyz_and_empty [])) = Done (IGRAPH_SUCCESS, newv') m' ∧
    contents m' newv' = [Some (bytes "z"); Some (bytes "x"); Some (bytes "x")] ∧
    contents m' (fst (fst (xyz_and_empty [])))
      = [Some (bytes "x"); Some (bytes "y"); Some (bytes "z")].
Proof.
  destruct (index_spec (snd (xyz_and_empty [])) (fst (fst (xyz_and_empty [])))
              (snd (fst (xyz_and_empty []))) [Vptr 1; Vptr 2; Vptr 3] []
              [1; 2; 3] [] [2; 0; 0])
    as (newv' & m' & slotsN' & psN' & Hrun & _ & _ & _ & Hc & _ & HcV).
  - apply check_mem_ok_sound. by vm_compute.
  - apply check_valid_sound. by vm_compute.
  - apply check_valid_sound. by vm_compute.
  - by vm_compute.
  - intros a _ Hin. by apply elem_of_nil in Hin.
  - repeat constructor; by vm_compute.
  - apply granted_nil. by vm_compute.
  - exists newv', m'. split; [exact Hrun|].
    split; [refine (eq_trans Hc _); by vm_compute|].
    refine (eq_trans HcV _). by vm_compute.
Defined.

(** Gathering elements 1 and 0 of ["a"; "b"] into [""; "d"] with both copies
    refused: success, and [""; "d"] is still there. *)
Lemma index_hides_refusal_witness :
  igraph_strvector_index (fst (fst (two_vectors [Fails; Fails])))
    (snd (fst (two_vectors [Fails; Fails]))) [1; 0] (snd (two_vectors [Fails; Fails]))
  = Done (IGRAPH_SUCCESS, mkStrvector 3 5 5) (snd (two_vectors [])) ∧
  contents (snd (two_vectors [])) (mkStrvector 3 5 5) = [Some (bytes ""); Some (bytes "d")].
Proof.
  split; [|by vm_compute].
  refine (eq_trans
            (index_hides_refusal (snd (two_vectors [Fails; Fails]))
               (fst (fst (two_vectors [Fails; Fails])))
               (snd (fst (two_vectors [Fails; Fails])))
               [Vptr 1; Vptr 2] [Vptr 3; Vptr 4] [1; 2] [3; 4] [1; 0] _ _ _ _ _) _).
  - apply check_valid_sound. by vm_compute.
  - apply check_valid_sound. by vm_compute.
  - by vm_compute.
  - repeat constructor; by vm_compute.
  - intros k Hk. destruct k as [|[|k]]; [by vm_compute|by vm_compute|simpl in Hk; lia].
  - by vm_compute.
Defined.
